(** * Nimble / Alpha columnar format: encodings, layout tree, layout planner
    and writer policies.

    A shallow embedding of
    - [dwio/nimble/velox/FlushPolicy.cpp],
    - [dwio/nimble/velox/BufferGrowthPolicy.cpp], over a model of the
      double-precision arithmetic it computes in,
    - [alpha/encodings/RleEncoding.h] and [dwio/nimble/encodings/RleEncoding.cpp],
    - [dwio/alpha/velox/EncodingLayoutTree.cpp],
    - [dwio/alpha/velox/FlatMapLayoutPlanner.cpp],
    - the tablet, tree and content walks of [dwio/nimble/tools/NimbleDumpLib.cpp],
    with the properties the format description states about them and
    further properties of the code. *)

From Stdlib Require Import ZArith List Lia QArith Qround Qpower Lqa.
From Stdlib.Strings Require Import String Ascii.
From Stdlib Require Import DecimalString.
From stdpp Require Import gmap strings list fin_maps.

Local Open Scope Z_scope.

(** ** Fixed-width unsigned integers *)

Module Common.

(** A [w]-bit unsigned value is a [Z] in [0, 2^w); storing into a [w]-bit
    variable reduces modulo [2^w]. *)
Definition wrap (w : Z) (x : Z) : Z := x mod 2 ^ w.
Definition wrap8 : Z -> Z := wrap 8.
Definition wrap16 : Z -> Z := wrap 16.
Definition wrap32 : Z -> Z := wrap 32.
Definition wrap64 : Z -> Z := wrap 64.

Definition in_range (w : Z) (x : Z) : Prop := 0 <= x < 2 ^ w.

Lemma wrap_small w x : in_range w x -> wrap w x = x.
Proof. unfold in_range, wrap. intros H. apply Z.mod_small. lia. Qed.

Lemma wrap32_small x : in_range 32 x -> wrap32 x = x.
Proof. apply wrap_small. Qed.

Lemma wrap_in_range w x : 0 <= w -> in_range w (wrap w x).
Proof.
  intros Hw. unfold in_range, wrap. apply Z.mod_pos_bound.
  apply Z.pow_pos_nonneg; lia.
Qed.

(** *** Little-endian reads and writes

    Modelled from the spec: [encoding::read], [encoding::write] and
    [encoding::writeString] live in EncodingPrimitives.h, which is not among
    the sources.  Multi-byte integers are little-endian and a string is
    written as its [u32] length followed by its bytes.  A byte is a [Z] in
    [0, 256) and a buffer is a list of bytes. *)

Fixpoint write_le (n : nat) (x : Z) : list Z :=
  match n with
  | O => []
  | S n' => (x mod 256) :: write_le n' (x / 256)
  end.

Fixpoint read_le (bs : list Z) : Z :=
  match bs with
  | [] => 0
  | b :: bs' => b + 256 * read_le bs'
  end.

(** The [len] bytes of [buf] that start at offset [pos]; nothing when they
    are not all inside the buffer (the source would read outside it). *)
Definition subspan (buf : list Z) (pos len : Z) : option (list Z) :=
  if (0 <=? pos) && (0 <=? len) && (pos + len <=? Z.of_nat (length buf))
  then Some (firstn (Z.to_nat len) (skipn (Z.to_nat pos) buf))
  else None.

(** [encoding::read<T>(pos)] for an [n]-byte unsigned [T]: the value and the
    advanced position. *)
Definition read (n : nat) (buf : list Z) (pos : Z) : option (Z * Z) :=
  match subspan buf pos (Z.of_nat n) with
  | Some bs => Some (read_le bs, pos + Z.of_nat n)
  | None => None
  end.

Definition writeString (bytes : list Z) : list Z :=
  write_le 4 (wrap32 (Z.of_nat (length bytes))) ++ bytes.

Lemma length_write_le n x : length (write_le n x) = n.
Proof. revert x. induction n as [|n IH]; intros x; simpl; [reflexivity|]. now rewrite IH. Qed.

Lemma read_le_write_le n x :
  0 <= x < 256 ^ Z.of_nat n -> read_le (write_le n x) = x.
Proof.
  revert x. induction n as [|n IH]; intros x Hx.
  - simpl in *. lia.
  - cbn [write_le read_le]. rewrite IH.
    + pose proof (Z.div_mod x 256). lia.
    + rewrite Nat2Z.inj_succ, Z.pow_succ_r in Hx by lia.
      split; [apply Z.div_pos; lia | apply Z.div_lt_upper_bound; lia].
Qed.

Lemma subspan_app (pre bs post : list Z) :
  subspan (pre ++ bs ++ post) (Z.of_nat (length pre)) (Z.of_nat (length bs))
  = Some bs.
Proof.
  unfold subspan. rewrite !length_app.
  destruct (Z.leb_spec 0 (Z.of_nat (length pre))); [|lia].
  destruct (Z.leb_spec 0 (Z.of_nat (length bs))); [|lia].
  destruct (Z.leb_spec (Z.of_nat (length pre) + Z.of_nat (length bs))
              (Z.of_nat (length pre + (length bs + length post)))); [|lia].
  simpl. rewrite !Nat2Z.id. f_equal.
  now rewrite drop_app_length, take_app_length.
Qed.

Lemma read_write_le (n : nat) (x : Z) (pre post : list Z) :
  0 <= x < 256 ^ Z.of_nat n ->
  read n (pre ++ write_le n x ++ post) (Z.of_nat (length pre))
  = Some (x, Z.of_nat (length pre) + Z.of_nat n).
Proof.
  intros Hx. unfold read.
  pose proof (subspan_app pre (write_le n x) post) as H.
  rewrite length_write_le in H. rewrite H.
  now rewrite read_le_write_le.
Qed.

End Common.

(** ** Flush policy ([FlushPolicy.cpp]) *)

Module FlushPolicy.

(** [enum class FlushDecision]. *)
Inductive FlushDecision : Type := None_ | Stripe | Chunk.

(** Modelled from the spec: [StripeProgress] is declared in FlushPolicy.h,
    which is not among the sources; the description gives it the raw bytes
    accumulated, the row count and the time since the stripe was opened.
    Sizes are [uint64_t]. *)
Record StripeProgress : Type := {
  rawStripeSize : Z;
  rowCount : Z;
  timeSinceOpen : Z
}.

(** The policy object: its only state is the configured threshold
    [rawStripeSize_]. *)
Record RawStripeSizeFlushPolicy : Type := {
  rawStripeSize_ : Z
}.

Definition shouldFlush (self : RawStripeSizeFlushPolicy)
    (stripeProgress : StripeProgress) : FlushDecision :=
  if rawStripeSize_ self <=? rawStripeSize stripeProgress
  then Stripe else None_.

(** C9. For every stripe progress, [shouldFlush] answers [Stripe] exactly
    when the accumulated raw stripe size has reached the configured
    threshold, answers [None] otherwise, and never answers [Chunk]. *)
Theorem shouldFlush_threshold :
  forall (self : RawStripeSizeFlushPolicy) (sp : StripeProgress),
    (shouldFlush self sp = Stripe <-> rawStripeSize_ self <= rawStripeSize sp)
    /\ (shouldFlush self sp = None_ <-> rawStripeSize sp < rawStripeSize_ self)
    /\ shouldFlush self sp <> Chunk.
Proof.
  intros self sp. unfold shouldFlush.
  destruct (Z.leb_spec (rawStripeSize_ self) (rawStripeSize sp)) as [Hle|Hlt].
  - repeat split; (congruence || lia || (intros; reflexivity)).
  - repeat split; (congruence || lia || (intros; reflexivity)).
Qed.

End FlushPolicy.

(** ** Double-precision numbers

    The growth policy computes a capacity in a [double].  This module gives
    the values of IEEE 754 binary64 and the operations the policy uses, with
    their rounding to nearest, ties to even. *)

Module Double.

(** A [double] (IEEE 754 binary64) is a finite number, an infinity or a
    NaN.  A finite double is kept as the rational number it is; the sign of
    a zero is not kept, as nothing below depends on it. *)
Inductive double : Type :=
| Finite (value : Q)
| Infinity (negative : bool)
| NaN.

Definition pow2 (e : Z) : Q := (2 # 1) ^ e.

(** The integer [e] with [2^e <= q < 2^(e+1)], for a positive [q]. *)
Definition ilog2 (q : Q) : Z :=
  let e := Z.log2 (Qnum q) - Z.log2 (Zpos (Qden q)) in
  if Qle_bool (pow2 e) q then e else e - 1.

(** The nearest integer, the even one of two that are equally near. *)
Definition round_half_even (q : Q) : Z :=
  let f := Qfloor q in
  match (q - inject_Z f ?= 1 # 2)%Q with
  | Lt => f
  | Gt => f + 1
  | Eq => if Z.even f then f else f + 1
  end.

(** Rounding of a positive number to 53 significant bits, to nearest and
    ties to even, with exponents from -1022 (below which the spacing of
    the subnormal numbers stays the same) to 1023 (above which the result
    is an infinity). *)
Definition round_magnitude (negative : bool) (a : Q) : double :=
  let e := Z.max (ilog2 a) (-1022) in
  let quantum := pow2 (e - 52) in
  let m := round_half_even (a / quantum) in
  let v := (inject_Z m * quantum)%Q in
  if Qle_bool (pow2 1024) v then Infinity negative
  else Finite (if negative then (- v)%Q else v).

(** The double nearest to a rational number: what an arithmetic operation
    returns for its exact result. *)
Definition round (q : Q) : double :=
  let q := Qred q in
  match Qnum q with
  | 0 => Finite 0
  | Zpos _ => round_magnitude false q
  | Zneg _ => round_magnitude true (- q)
  end.

(** The conversion of a [uint64_t] to [double] that the language makes
    when the two are compared. *)
Definition of_uint64 (n : Z) : double := round (inject_Z n).

(** [x * y]. *)
Definition mul (x y : double) : double :=
  match x, y with
  | Finite a, Finite b => round (a * b)
  | Finite a, Infinity negative | Infinity negative, Finite a =>
      match (a ?= 0)%Q with
      | Eq => NaN
      | Gt => Infinity negative
      | Lt => Infinity (negb negative)
      end
  | Infinity nx, Infinity ny => Infinity (xorb nx ny)
  | _, _ => NaN
  end.

(** [x < y]. *)
Definition lt (x y : double) : bool :=
  match x, y with
  | Finite a, Finite b =>
      match (a ?= b)%Q with Lt => true | _ => false end
  | Finite _, Infinity negative => negb negative
  | Infinity negative, Finite _ => negative
  | Infinity nx, Infinity ny => nx && negb ny
  | _, _ => false
  end.

(** [std::floor]. *)
Definition floor (x : double) : double :=
  match x with
  | Finite a => Finite (inject_Z (Qfloor a))
  | _ => x
  end.

(** Whether a rational number is a double. *)
Definition is_double (q : Q) : bool :=
  match round q with
  | Finite v => Qeq_bool v q
  | _ => false
  end.

(** *** Powers of two *)

Lemma two_neq_0 : ~ (2 # 1 == 0)%Q.
Proof. intros H. discriminate H. Qed.

Lemma pow2_pos (e : Z) : (0 < pow2 e)%Q.
Proof. apply Qpower_0_lt. reflexivity. Qed.

Lemma pow2_plus (a b : Z) : (pow2 (a + b) == pow2 a * pow2 b)%Q.
Proof. apply Qpower_plus, two_neq_0. Qed.

Lemma pow2_le (a b : Z) : a <= b -> (pow2 a <= pow2 b)%Q.
Proof. intros H. apply Qpower_le_compat_l; [exact H | discriminate]. Qed.

Lemma pow2_lt (a b : Z) : a < b -> (pow2 a < pow2 b)%Q.
Proof. intros H. apply Qpower_lt_compat_l; [exact H | reflexivity]. Qed.

Lemma pow2_lt_inv (a b : Z) : (pow2 a < pow2 b)%Q -> a < b.
Proof. intros H. apply (Qpower_lt_compat_l_inv (2 # 1)); [exact H | reflexivity]. Qed.

Lemma pow2_Z (n : Z) : 0 <= n -> (pow2 n == inject_Z (2 ^ n))%Q.
Proof. intros H. symmetry. apply (Zpower_Qpower 2 n H). Qed.

Lemma pow2_succ (a : Z) : (pow2 (a + 1) == 2 * pow2 a)%Q.
Proof. rewrite pow2_plus. change (pow2 1) with (2 # 1)%Q. ring. Qed.

(** *** The exponent *)

Lemma ilog2_spec (q : Q) :
  (0 < q)%Q -> (pow2 (ilog2 q) <= q)%Q /\ (q < pow2 (ilog2 q + 1))%Q.
Proof.
  intros Hq. destruct q as [n d].
  assert (Hn : 0 < n) by (unfold Qlt in Hq; simpl in Hq; lia).
  unfold ilog2. cbn [Qnum Qden].
  set (a := Z.log2 n). set (b := Z.log2 (Zpos d)).
  destruct (Z.log2_spec n Hn) as [Ha1 Ha2]. fold a in Ha1, Ha2.
  destruct (Z.log2_spec (Zpos d) ltac:(lia)) as [Hb1 Hb2]. fold b in Hb1, Hb2.
  assert (Ha0 : 0 <= a) by apply Z.log2_nonneg.
  assert (Hb0 : 0 <= b) by apply Z.log2_nonneg.
  unfold Z.succ in *.
  assert (HN : ((n # d) * inject_Z (Zpos d) == inject_Z n)%Q).
  { rewrite (Qmake_Qdiv n d). field. intros H. discriminate H. }
  rewrite Zle_Qle, <- pow2_Z in Ha1, Hb1 by lia.
  rewrite Zlt_Qlt, <- pow2_Z in Ha2, Hb2 by lia.
  pose proof (pow2_pos b) as Hpb. pose proof (pow2_pos (a - b - 1)) as Hp1.
  pose proof (pow2_pos (a - b)) as Hp0.
  assert (E1 : (pow2 (a - b - 1) * pow2 (b + 1) == pow2 a)%Q).
  { rewrite <- pow2_plus. replace (a - b - 1 + (b + 1)) with a by lia. reflexivity. }
  assert (E2 : (pow2 (a - b + 1) * pow2 b == pow2 (a + 1))%Q).
  { rewrite <- pow2_plus. replace (a - b + 1 + b) with (a + 1) by lia. reflexivity. }
  set (q := (n # d)%Q) in *.
  set (D := inject_Z (Zpos d)) in *. set (N := inject_Z n) in *.
  assert (Hlow : (pow2 (a - b - 1) < q)%Q).
  { destruct (Qlt_le_dec (pow2 (a - b - 1)) q) as [H|H]; [exact H|exfalso].
    assert ((q * pow2 (b + 1) <= pow2 (a - b - 1) * pow2 (b + 1))%Q)
      by (apply Qmult_le_compat_r; [exact H | apply Qlt_le_weak, pow2_pos]).
    assert ((q * D < q * pow2 (b + 1))%Q)
      by (apply Qmult_lt_l; assumption).
    lra. }
  assert (Hhigh : (q < pow2 (a - b + 1))%Q).
  { destruct (Qlt_le_dec q (pow2 (a - b + 1))) as [H|H]; [exact H|exfalso].
    assert ((pow2 (a - b + 1) * pow2 b <= q * pow2 b)%Q)
      by (apply Qmult_le_compat_r; [exact H | apply Qlt_le_weak, pow2_pos]).
    assert ((q * pow2 b <= q * D)%Q)
      by (apply Qmult_le_l; assumption).
    lra. }
  destruct (Qle_bool (pow2 (a - b)) q) eqn:Hc.
  - apply Qle_bool_iff in Hc. split; [exact Hc | exact Hhigh].
  - assert (Hc' : (q < pow2 (a - b))%Q).
    { destruct (Qlt_le_dec q (pow2 (a - b))) as [H|H]; [exact H|].
      apply Qle_bool_iff in H. congruence. }
    replace (a - b - 1 + 1) with (a - b) by lia.
    split; [apply Qlt_le_weak; exact Hlow | exact Hc'].
Qed.

Lemma ilog2_unique (q : Q) (e : Z) :
  (pow2 e <= q)%Q -> (q < pow2 (e + 1))%Q -> ilog2 q = e.
Proof.
  intros H1 H2.
  assert (Hq : (0 < q)%Q) by (pose proof (pow2_pos e); lra).
  destruct (ilog2_spec q Hq) as [H3 H4].
  assert (ilog2 q < e + 1) by (apply pow2_lt_inv; lra).
  assert (e < ilog2 q + 1) by (apply pow2_lt_inv; lra).
  lia.
Qed.

(** *** Rounding to an integer *)

Lemma round_half_even_error (q : Q) :
  (inject_Z (round_half_even q) - q <= 1 # 2)%Q
  /\ (q - inject_Z (round_half_even q) <= 1 # 2)%Q.
Proof.
  unfold round_half_even.
  pose proof (Qfloor_le q) as H1. pose proof (Qlt_floor q) as H2.
  rewrite inject_Z_plus in H2. change (inject_Z 1) with 1%Q in H2.
  destruct (Qcompare_spec (q - inject_Z (Qfloor q)) (1 # 2)) as [H|H|H].
  - destruct (Z.even (Qfloor q)); rewrite ?inject_Z_plus;
      change (inject_Z 1) with 1%Q; split; lra.
  - split; lra.
  - rewrite inject_Z_plus. change (inject_Z 1) with 1%Q. split; lra.
Qed.

Lemma round_half_even_Z (q : Q) (m : Z) :
  (q == inject_Z m)%Q -> round_half_even q = m.
Proof.
  intros H. unfold round_half_even.
  rewrite (Qfloor_comp _ _ H), Qfloor_Z.
  destruct (Qcompare_spec (q - inject_Z m) (1 # 2)) as [H'|H'|H'];
    [lra | reflexivity | lra].
Qed.

Lemma round_half_even_comp (p q : Q) :
  (p == q)%Q -> round_half_even p = round_half_even q.
Proof.
  intros H. unfold round_half_even. rewrite (Qfloor_comp _ _ H).
  assert (E : (p - inject_Z (Qfloor q) ?= 1 # 2)%Q
              = (q - inject_Z (Qfloor q) ?= 1 # 2)%Q) by (rewrite H; reflexivity).
  rewrite E. reflexivity.
Qed.

Lemma round_half_even_nonneg (q : Q) : (0 <= q)%Q -> 0 <= round_half_even q.
Proof.
  intros H. unfold round_half_even.
  assert (0 <= Qfloor q).
  { rewrite <- (Qfloor_Z 0). apply Qfloor_resp_le. exact H. }
  destruct (q - inject_Z (Qfloor q) ?= 1 # 2)%Q; [|lia|lia].
  destruct (Z.even (Qfloor q)); lia.
Qed.

(** *** Rounding to a double *)

(** The rounded magnitude is a multiple of the spacing at its exponent and
    lies within half of that spacing. *)
Lemma round_magnitude_spec (a : Q) :
  (0 < a)%Q -> (a < pow2 1023)%Q ->
  let e := Z.max (ilog2 a) (-1022) in
  let m := round_half_even (a / pow2 (e - 52)) in
  round_magnitude false a = Finite (inject_Z m * pow2 (e - 52))
  /\ 0 <= m
  /\ (inject_Z m * pow2 (e - 52) - a <= pow2 (e - 53))%Q
  /\ (a - inject_Z m * pow2 (e - 52) <= pow2 (e - 53))%Q.
Proof.
  intros Ha Hlt e m.
  destruct (ilog2_spec a Ha) as [Hl1 Hl2].
  assert (He : e <= 1022).
  { assert (ilog2 a < 1023) by (apply pow2_lt_inv; lra). unfold e. lia. }
  pose proof (pow2_pos (e - 52)) as Hq.
  assert (Ht : (a / pow2 (e - 52) * pow2 (e - 52) == a)%Q).
  { field. intros H. rewrite H in Hq. inversion Hq. }
  assert (Hhalf : (pow2 (e - 52) == 2 * pow2 (e - 53))%Q).
  { rewrite <- pow2_succ. replace (e - 53 + 1) with (e - 52) by lia. reflexivity. }
  destruct (round_half_even_error (a / pow2 (e - 52))) as [Hm1 Hm2].
  fold m in Hm1, Hm2.
  assert (Ht0 : (0 <= a / pow2 (e - 52))%Q).
  { apply Qle_shift_div_l; [exact Hq | lra]. }
  set (t := (a / pow2 (e - 52))%Q) in *. set (s := pow2 (e - 52)) in *.
  set (h := pow2 (e - 53)) in *.
  assert (Hup : (inject_Z m * s - a <= h)%Q).
  { assert (((inject_Z m - t) * s <= (1 # 2) * s)%Q)
      by (apply Qmult_le_compat_r; lra).
    lra. }
  assert (Hdown : (a - inject_Z m * s <= h)%Q).
  { assert (((t - inject_Z m) * s <= (1 # 2) * s)%Q)
      by (apply Qmult_le_compat_r; lra).
    lra. }
  split; [|split; [apply round_half_even_nonneg; exact Ht0 | split; assumption]].
  unfold round_magnitude. fold e. fold s. fold t. fold m.
  destruct (Qle_bool (pow2 1024) (inject_Z m * s)) eqn:Hc; [exfalso|reflexivity].
  apply Qle_bool_iff in Hc.
  assert ((h <= pow2 969)%Q) by (apply pow2_le; lia).
  assert ((pow2 969 < pow2 1023)%Q) by (apply pow2_lt; lia).
  assert ((pow2 1024 == 2 * pow2 1023)%Q) by (apply (pow2_succ 1023)).
  lra.
Qed.

Lemma round_zero (q : Q) : (q == 0)%Q -> round q = Finite 0.
Proof. intros H. unfold round. rewrite (Qred_complete _ _ H). reflexivity. Qed.

Lemma round_positive (q : Q) :
  (0 < q)%Q -> round q = round_magnitude false (Qred q).
Proof.
  intros H. unfold round. cbv zeta.
  pose proof (Qred_correct q) as Hr.
  assert (Hp : (0 < Qred q)%Q) by (rewrite Hr; exact H).
  destruct (Qred q) as [n d]. unfold Qlt in Hp. simpl in Hp.
  destruct n; [lia | reflexivity | lia].
Qed.

Lemma round_comp (p q : Q) : (p == q)%Q -> round p = round q.
Proof. intros H. unfold round. cbv zeta. rewrite (Qred_complete _ _ H). reflexivity. Qed.

(** A number with exponent [e] rounds to a multiple of [2^(e-52)] within
    [2^(e-53)]. *)
Lemma round_spec (q : Q) (e : Z) :
  (pow2 e <= q)%Q -> (q < pow2 (e + 1))%Q -> e <= 1022 ->
  let g := Z.max e (-1022) in
  exists (m : Z) (v : Q),
    round q = Finite v
    /\ (v == inject_Z m * pow2 (g - 52))%Q
    /\ m = round_half_even (q / pow2 (g - 52))
    /\ 0 <= m
    /\ (v - q <= pow2 (g - 53))%Q /\ (q - v <= pow2 (g - 53))%Q.
Proof.
  intros H1 H2 He g.
  assert (Hq : (0 < q)%Q) by (pose proof (pow2_pos e); lra).
  pose proof (Qred_correct q) as Hr.
  assert (Hlog : ilog2 (Qred q) = e) by (apply ilog2_unique; rewrite Hr; assumption).
  assert (H1023 : (q < pow2 1023)%Q).
  { eapply Qlt_le_trans; [exact H2 | apply pow2_le; lia]. }
  destruct (round_magnitude_spec (Qred q)) as (Hv & Hm & Hup & Hdown).
  { rewrite Hr. exact Hq. }
  { rewrite Hr. exact H1023. }
  rewrite Hlog in Hv, Hm, Hup, Hdown. fold g in Hv, Hm, Hup, Hdown.
  exists (round_half_even (Qred q / pow2 (g - 52))), 
         (inject_Z (round_half_even (Qred q / pow2 (g - 52))) * pow2 (g - 52))%Q.
  rewrite (round_positive q Hq).
  split; [exact Hv|]. split; [reflexivity|].
  split.
  { apply round_half_even_comp. rewrite Hr. reflexivity. }
  split; [exact Hm|]. cbv zeta in Hup, Hdown. split; lra.
Qed.

(** In the normal range the relative error of rounding is at most
    [2^-53]. *)
Lemma round_normal (q : Q) :
  (pow2 (-1022) <= q)%Q -> (q < pow2 1023)%Q ->
  exists v : Q,
    round q = Finite v
    /\ (q * (1 - pow2 (-53)) <= v)%Q /\ (v <= q * (1 + pow2 (-53)))%Q.
Proof.
  intros H1 H2.
  assert (Hq : (0 < q)%Q) by (pose proof (pow2_pos (-1022)); lra).
  destruct (ilog2_spec q Hq) as [Hl1 Hl2].
  set (e := ilog2 q) in *.
  assert (He1 : -1022 < e + 1) by (apply pow2_lt_inv; lra).
  assert (He2 : e < 1023) by (apply pow2_lt_inv; lra).
  destruct (round_spec q e Hl1 Hl2 ltac:(lia)) as (m & v & Hv & _ & _ & _ & Hup & Hdown).
  replace (Z.max e (-1022)) with e in Hup, Hdown by lia.
  assert (E : (pow2 (e - 53) == pow2 e * pow2 (-53))%Q).
  { rewrite <- pow2_plus. replace (e + -53) with (e - 53) by lia. reflexivity. }
  pose proof (pow2_pos (-53)) as Hp.
  assert (Hle : (pow2 e * pow2 (-53) <= q * pow2 (-53))%Q).
  { apply Qmult_le_compat_r; [exact Hl1 | lra]. }
  exists v. split; [exact Hv|]. split; lra.
Qed.

(** Below the normal range the error is at most half the spacing of the
    subnormal numbers. *)
Lemma round_subnormal (q : Q) :
  (0 < q)%Q -> (q < pow2 (-1022))%Q ->
  exists v : Q,
    round q = Finite v /\ (0 <= v)%Q /\ (v <= q + pow2 (-1075))%Q.
Proof.
  intros Hq H2.
  destruct (ilog2_spec q Hq) as [Hl1 Hl2].
  set (e := ilog2 q) in *.
  assert (He : e < -1022) by (apply pow2_lt_inv; lra).
  destruct (round_spec q e Hl1 Hl2 ltac:(lia)) as (m & v & Hv & Hvm & _ & Hm & Hup & _).
  replace (Z.max e (-1022)) with (-1022) in Hvm, Hup by lia.
  exists v. split; [exact Hv|]. split.
  - rewrite Hvm. apply Qmult_le_0_compat.
    + change 0%Q with (inject_Z 0). rewrite <- Zle_Qle. exact Hm.
    + apply Qlt_le_weak, pow2_pos.
  - change (-1022 - 53) with (-1075) in Hup. lra.
Qed.

(** A multiple of the spacing at its exponent is a double. *)
Lemma round_exact (q : Q) (e k : Z) :
  (pow2 e <= q)%Q -> (q < pow2 (e + 1))%Q -> -1022 <= e <= 1022 ->
  (q == inject_Z k * pow2 (e - 52))%Q ->
  exists v : Q, round q = Finite v /\ (v == q)%Q.
Proof.
  intros H1 H2 He Hk.
  destruct (round_spec q e H1 H2 ltac:(lia)) as (m & v & Hv & Hvm & Hm & _).
  replace (Z.max e (-1022)) with e in Hvm, Hm by lia.
  pose proof (pow2_pos (e - 52)) as Hp.
  assert (Hmk : m = k).
  { rewrite Hm. apply round_half_even_Z. rewrite Hk. field.
    intros H. rewrite H in Hp. inversion Hp. }
  exists v. split; [exact Hv|]. rewrite Hvm, Hmk, Hk. reflexivity.
Qed.

(** The integers up to [2^53] are doubles. *)
Lemma round_Z (n : Z) :
  0 <= n <= 2 ^ 53 ->
  exists v : Q, round (inject_Z n) = Finite v /\ (v == inject_Z n)%Q.
Proof.
  intros Hn.
  destruct (Z.eq_dec n 0) as [->|Hn0].
  { exists 0%Q. split; [reflexivity | reflexivity]. }
  assert (Hpos : 0 < n) by lia.
  destruct (Z.log2_spec n Hpos) as [Ha1 Ha2]. unfold Z.succ in Ha2.
  set (e := Z.log2 n) in *.
  assert (He0 : 0 <= e) by apply Z.log2_nonneg.
  assert (He53 : e <= 53).
  { destruct (Z.le_gt_cases e 53) as [H|H]; [exact H|exfalso].
    assert (2 ^ 54 <= 2 ^ e) by (apply Z.pow_le_mono_r; lia). lia. }
  assert (Hq1 : (pow2 e <= inject_Z n)%Q) by (rewrite pow2_Z, <- Zle_Qle; lia).
  assert (Hq2 : (inject_Z n < pow2 (e + 1))%Q) by (rewrite pow2_Z, <- Zlt_Qlt; lia).
  destruct (Z.eq_dec e 53) as [He|He].
  - assert (n = 2 ^ 53) by (rewrite He in Ha1; lia). subst n.
    apply (round_exact _ e (2 ^ 52)); [exact Hq1 | exact Hq2 | lia |].
    rewrite He. reflexivity.
  - apply (round_exact _ e (n * 2 ^ (52 - e))); [exact Hq1 | exact Hq2 | lia |].
    rewrite inject_Z_mult, <- (pow2_Z (52 - e)) by lia.
    rewrite <- Qmult_assoc, <- pow2_plus.
    replace (52 - e + (e - 52)) with 0 by lia. change (pow2 0) with 1%Q. ring.
Qed.

(** A double with exponent [e] is a multiple of [2^(e-52)]. *)
Lemma is_double_mantissa (q : Q) (e : Z) :
  is_double q = true ->
  (pow2 e <= q)%Q -> (q < pow2 (e + 1))%Q -> -1022 <= e <= 1022 ->
  exists m : Z, (q == inject_Z m * pow2 (e - 52))%Q.
Proof.
  unfold is_double. intros Hd H1 H2 He.
  destruct (round_spec q e H1 H2 ltac:(lia)) as (m & v & Hv & Hvm & _).
  replace (Z.max e (-1022)) with e in Hvm by lia.
  rewrite Hv in Hd. apply Qeq_bool_iff in Hd.
  exists m. rewrite <- Hd. exact Hvm.
Qed.

(** The least double above one is [1 + 2^-52]. *)
Lemma double_above_one (q : Q) :
  is_double q = true -> (1 < q)%Q -> (1 + pow2 (-52) <= q)%Q.
Proof.
  intros Hd H1.
  assert (E52 : (pow2 (-52) == 1 # 4503599627370496)%Q) by reflexivity.
  destruct (Qlt_le_dec q 2) as [H2|H2]; [|lra].
  destruct (is_double_mantissa q 0 Hd) as (m & Hm); [change (pow2 0) with 1%Q; lra | exact H2 | lia |].
  change (0 - 52) with (-52) in Hm. rewrite E52 in Hm |- *.
  assert (Hlt : 2 ^ 52 < m).
  { rewrite Zlt_Qlt. change (inject_Z (2 ^ 52)) with (4503599627370496 # 1)%Q. lra. }
  assert (Hle : (inject_Z (2 ^ 52 + 1) <= inject_Z m)%Q) by (rewrite <- Zle_Qle; lia).
  change (inject_Z (2 ^ 52 + 1)) with (4503599627370497 # 1)%Q in Hle. lra.
Qed.

(** The greatest double below one is [1 - 2^-53]. *)
Lemma double_below_one (q : Q) :
  is_double q = true -> (q < 1)%Q -> (q <= 1 - pow2 (-53))%Q.
Proof.
  intros Hd H1.
  assert (E53 : (pow2 (-53) == 1 # 9007199254740992)%Q) by reflexivity.
  destruct (Qlt_le_dec q (1 # 2)) as [H2|H2]; [lra|].
  destruct (is_double_mantissa q (-1) Hd) as (m & Hm);
    [change (pow2 (-1)) with (1 # 2)%Q; lra | change (pow2 (-1 + 1)) with 1%Q; exact H1 | lia |].
  change (-1 - 52) with (-53) in Hm. rewrite E53 in Hm |- *.
  assert (Hlt : m < 2 ^ 53).
  { rewrite Zlt_Qlt. change (inject_Z (2 ^ 53)) with (9007199254740992 # 1)%Q. lra. }
  assert (Hle : (inject_Z m <= inject_Z (2 ^ 53 - 1))%Q) by (rewrite <- Zle_Qle; lia).
  change (inject_Z (2 ^ 53 - 1)) with (9007199254740991 # 1)%Q in Hle. lra.
Qed.

End Double.


(** ** Input buffer growth policy ([BufferGrowthPolicy.cpp]) *)

Module BufferGrowthPolicy.
Import Common.

(** The policy object. BufferGrowthPolicy.h is not among the sources, so the
    two members the method reads are fields that a caller may set freely:
    [rangeConfigs_] is a [std::map] from a range lower bound to the growth
    factor of that range, kept here as the list of its entries in ascending
    key order, a factor being a floating-point number; [minCapacity_] is a
    [uint64_t]. *)
Record DefaultInputBufferGrowthPolicy : Type := {
  rangeConfigs_ : list (Z * Double.double);
  minCapacity_ : Z
}.

(** [std::map::upper_bound]: position of the first entry whose key is
    greater than [key]; the length of the list stands for [end()]. *)
Fixpoint upper_bound (m : list (Z * Double.double)) (key : Z) : nat :=
  match m with
  | [] => 0%nat
  | (k, _) :: m' => if key <? k then 0%nat else S (upper_bound m' key)
  end.

(** What a call does: it returns a capacity, or one of the two [folly::to]
    conversions throws, or the loop is still running when the fuel is used
    up. *)
Inductive Outcome : Type :=
| Returned (capacity : Z)
| ConversionError
| OutOfFuel.

(** [folly::to<double>] of a [uint64_t].  folly's conversions between
    integers and floating-point numbers are checked: the result must
    convert back to the value it came from, or the conversion throws.  So
    it throws unless the double holds the number exactly. *)
Definition to_double (n : Z) : option Double.double :=
  match Double.of_uint64 n with
  | Double.Finite v =>
      if Qeq_bool v (inject_Z n) then Some (Double.Finite v) else None
  | _ => None
  end.

(** [folly::to<uint64_t>] of a [double], checked in the same way: it
    throws unless the double is a whole number that a [uint64_t] holds. *)
Definition to_uint64 (x : Double.double) : option Z :=
  match x with
  | Double.Finite a =>
      let r := Qfloor a in
      if Qeq_bool (inject_Z r) a && (0 <=? r) && (r <? 2 ^ 64)
      then Some r else None
  | _ => None
  end.

(** [while (extendedCapacity < newSize) extendedCapacity *= factor;] with
    [newSize] converted to [double] for the comparison. *)
Fixpoint extend (fuel : nat) (factor : Double.double) (newSize : Z)
    (extendedCapacity : Double.double) : option Double.double :=
  match fuel with
  | O => None
  | S fuel' =>
      if Double.lt extendedCapacity (Double.of_uint64 newSize)
      then extend fuel' factor newSize (Double.mul extendedCapacity factor)
      else Some extendedCapacity
  end.

Definition getExtendedCapacity (fuel : nat)
    (self : DefaultInputBufferGrowthPolicy) (newSize capacity : Z) : Outcome :=
  if newSize <=? capacity then Returned capacity
  else
    match upper_bound (rangeConfigs_ self) newSize with
    | O => Returned (minCapacity_ self)
    | S i =>
        match nth_error (rangeConfigs_ self) i with
        | Some (_, factor) =>
            match to_double (Z.max capacity (minCapacity_ self)) with
            | Some start =>
                match extend fuel factor newSize start with
                | Some x =>
                    match to_uint64 (Double.floor x) with
                    | Some r => Returned r
                    | None => ConversionError
                    end
                | None => OutOfFuel
                end
            | None => ConversionError
            end
        | None => OutOfFuel
        end
    end.

(** *** Properties *)

Lemma upper_bound_le_length m key : (upper_bound m key <= length m)%nat.
Proof.
  induction m as [|[k f] m IH]; simpl; [lia|].
  destruct (key <? k); simpl; lia.
Qed.

Lemma to_double_exact (n : Z) :
  0 <= n <= 2 ^ 53 ->
  exists v : Q,
    Double.of_uint64 n = Double.Finite v /\ (v == inject_Z n)%Q
    /\ to_double n = Some (Double.Finite v).
Proof.
  intros Hn. destruct (Double.round_Z n Hn) as (v & Hv & Hvn).
  exists v. split; [exact Hv|]. split; [exact Hvn|].
  unfold to_double, Double.of_uint64. rewrite Hv.
  apply Qeq_bool_iff in Hvn. rewrite Hvn. reflexivity.
Qed.

Lemma to_uint64_floor (y : Q) :
  0 <= Qfloor y < 2 ^ 64 ->
  to_uint64 (Double.floor (Double.Finite y)) = Some (Qfloor y).
Proof.
  intros H. unfold to_uint64, Double.floor. cbv zeta. rewrite Qfloor_Z.
  assert (E : Qeq_bool (inject_Z (Qfloor y)) (inject_Z (Qfloor y)) = true)
    by (apply Qeq_bool_iff; reflexivity).
  rewrite E.
  destruct (Z.leb_spec 0 (Qfloor y)); [|lia].
  destruct (Z.ltb_spec (Qfloor y) (2 ^ 64)); [reflexivity|lia].
Qed.

Lemma extend_fuel_mono (factor : Double.double) (n : Z) (fuel fuel' : nat)
    (x y : Double.double) :
  extend fuel factor n x = Some y -> (fuel <= fuel')%nat ->
  extend fuel' factor n x = Some y.
Proof.
  revert fuel' x. induction fuel as [|fuel IH]; intros fuel' x H Hle.
  - discriminate.
  - destruct fuel' as [|fuel']; [lia|]. simpl in *.
    destruct (Double.lt x (Double.of_uint64 n)); [|exact H].
    apply IH; [exact H | lia].
Qed.

Lemma extend_S (fuel : nat) (factor : Double.double) (n : Z)
    (x : Double.double) :
  extend (S fuel) factor n x
  = if Double.lt x (Double.of_uint64 n)
    then extend fuel factor n (Double.mul x factor)
    else Some x.
Proof. reflexivity. Qed.

Lemma lt_Finite (x y : Q) :
  Double.lt (Double.Finite x) (Double.Finite y) = true <-> (x < y)%Q.
Proof.
  unfold Double.lt. destruct (Qcompare_spec x y) as [H|H|H].
  - split; [discriminate | lra].
  - split; [intros _; exact H | reflexivity].
  - split; [discriminate | lra].
Qed.

(** One pass of the loop with a factor above one moves a capacity of at
    least one up by [2^-54] or more, and not beyond the exact product by
    more than one rounding. *)
Lemma mul_progress (x f : Q) :
  (1 <= x)%Q -> (1 + Double.pow2 (-52) <= f)%Q ->
  (x * f <= inject_Z (2 ^ 63))%Q ->
  exists v : Q,
    Double.mul (Double.Finite x) (Double.Finite f) = Double.Finite v
    /\ (x + Double.pow2 (-54) <= v)%Q
    /\ (v <= x * f * (1 + Double.pow2 (-53)))%Q.
Proof.
  intros Hx Hf Hb.
  assert (E52 : (Double.pow2 (-52) == 1 # 4503599627370496)%Q) by reflexivity.
  assert (E53 : (Double.pow2 (-53) == 1 # 9007199254740992)%Q) by reflexivity.
  assert (E54 : (Double.pow2 (-54) == 1 # 18014398509481984)%Q) by reflexivity.
  rewrite E52 in Hf.
  assert (Hxf : (x * (1 + (1 # 4503599627370496)) <= x * f)%Q)
    by (apply Qmult_le_l; lra).
  destruct (Double.round_normal (x * f)) as (v & Hv & Hlo & Hhi).
  { assert ((Double.pow2 (-1022) <= Double.pow2 0)%Q) by (apply Double.pow2_le; lia).
    change (Double.pow2 0) with 1%Q in *. lra. }
  { assert ((Double.pow2 63 < Double.pow2 1023)%Q) by (apply Double.pow2_lt; lia).
    rewrite (Double.pow2_Z 63) in H by lia. lra. }
  rewrite E53 in Hlo, Hhi.
  exists v. split; [exact Hv|]. rewrite E53, E54.
  set (y := (x * f)%Q) in *. split; lra.
Qed.

Lemma extend_terminates (f : Q) (n : Z) (N : Q) :
  Double.of_uint64 n = Double.Finite N -> (N == inject_Z n)%Q ->
  (1 + Double.pow2 (-52) <= f)%Q ->
  (inject_Z n * f <= inject_Z (2 ^ 63))%Q ->
  forall (fuel : nat) (x : Q),
    (1 <= x)%Q ->
    ((N - x) * inject_Z (2 ^ 54) < inject_Z (Z.of_nat fuel))%Q ->
    exists y : Q,
      extend (S fuel) (Double.Finite f) n (Double.Finite x)
      = Some (Double.Finite y)
      /\ (inject_Z n <= y)%Q
      /\ (y = x \/ (y <= inject_Z n * f * (1 + Double.pow2 (-53)))%Q).
Proof.
  intros HN HNn Hf Hb.
  assert (E52 : (Double.pow2 (-52) == 1 # 4503599627370496)%Q) by reflexivity.
  assert (E53 : (Double.pow2 (-53) == 1 # 9007199254740992)%Q) by reflexivity.
  assert (E54 : (Double.pow2 (-54) == 1 # 18014398509481984)%Q) by reflexivity.
  assert (Z54 : inject_Z (2 ^ 54) = (18014398509481984 # 1)%Q) by reflexivity.
  rewrite Z54.
  induction fuel as [|fuel IH]; intros x Hx Hm.
  - change (inject_Z (Z.of_nat 0)) with 0%Q in Hm.
    exists x. rewrite extend_S, HN.
    destruct (Double.lt (Double.Finite x) (Double.Finite N)) eqn:Hlt.
    { apply lt_Finite in Hlt. lra. }
    split; [reflexivity|]. split; [|now left].
    apply Bool.not_true_iff_false in Hlt. rewrite lt_Finite in Hlt. lra.
  - rewrite extend_S, HN.
    destruct (Double.lt (Double.Finite x) (Double.Finite N)) eqn:Hlt.
    + apply lt_Finite in Hlt.
      assert (Hxf : (x * f <= inject_Z n * f)%Q)
        by (apply Qmult_le_compat_r; rewrite ?E52 in Hf; lra).
      destruct (mul_progress x f Hx Hf) as (v & Hv & Hlo & Hhi); [lra|].
      rewrite Hv. rewrite E54 in Hlo.
      rewrite Nat2Z.inj_succ in Hm. unfold Z.succ in Hm.
      rewrite inject_Z_plus in Hm. change (inject_Z 1) with 1%Q in Hm.
      destruct (IH v) as (y & Hy & Hny & Hor); [lra | lra |].
      exists y. split; [exact Hy|]. split; [exact Hny|]. right.
      assert (HBA : (x * f * (1 + Double.pow2 (-53))
                     <= inject_Z n * f * (1 + Double.pow2 (-53)))%Q).
      { apply Qmult_le_compat_r; [exact Hxf|].
        pose proof (Double.pow2_pos (-53)). lra. }
      destruct Hor as [->|Hle]; [|exact Hle].
      eapply Qle_trans; [exact Hhi | exact HBA].
    + exists x. split; [reflexivity|]. split; [|now left].
      apply Bool.not_true_iff_false in Hlt. rewrite lt_Finite in Hlt. lra.
Qed.

(** The keys of [rangeConfigs_] as a [std::map] keeps them: ascending. *)
Fixpoint ascending (m : list (Z * Double.double)) : Prop :=
  match m with
  | [] => True
  | (k, _) :: m' => Forall (fun e => k < fst e) m' /\ ascending m'
  end.

Lemma upper_bound_ascending (m : list (Z * Double.double)) (key : Z) :
  ascending m ->
  (forall i e, nth_error m i = Some e ->
               (i < upper_bound m key)%nat <-> fst e <= key).
Proof.
  induction m as [|[k f] m IH]; intros Hs i e Hi.
  - destruct i; discriminate.
  - cbn [ascending] in Hs. destruct Hs as [Hk Hs].
    cbn [upper_bound]. destruct (Z.ltb_spec key k) as [Hlt|Hge].
    + split; [lia|]. intros He. exfalso.
      destruct i as [|i]; cbn [nth_error] in Hi.
      * inversion Hi; subst e. simpl in He. lia.
      * apply nth_error_In in Hi. rewrite Forall_forall in Hk.
        assert (k < fst e). { apply Hk. apply list_elem_of_In. exact Hi. }
        lia.
    + destruct i as [|i]; cbn [nth_error] in Hi.
      * inversion Hi; subst e. simpl. split; [lia|]. intros _. lia.
      * rewrite <- (IH Hs i e Hi). lia.
Qed.

(** Growth with a factor that is a double above one: the call returns a
    capacity that covers the request and overshoots it by less than the
    factor and one rounding, unless the start already covers it. *)
Lemma growth_returns (self : DefaultInputBufferGrowthPolicy)
    (newSize capacity : Z) (i : nat) (t : Z) (f : Q) :
  0 <= capacity < newSize -> newSize <= 2 ^ 53 ->
  0 < Z.max capacity (minCapacity_ self) <= 2 ^ 53 ->
  upper_bound (rangeConfigs_ self) newSize = S i ->
  nth_error (rangeConfigs_ self) i = Some (t, Double.Finite f) ->
  Double.is_double f = true -> (1 < f)%Q ->
  (inject_Z newSize * f <= inject_Z (2 ^ 63))%Q ->
  exists (fuel0 : nat) (r : Z),
    (forall fuel, (fuel0 <= fuel)%nat ->
       getExtendedCapacity fuel self newSize capacity = Returned r)
    /\ newSize <= r
    /\ (r = Z.max capacity (minCapacity_ self)
        \/ (inject_Z r
            <= inject_Z newSize * f * (1 + Double.pow2 (-53)))%Q).
Proof.
  intros Hc Hn Hs Hub Hnth Hd Hf1 Hf2.
  set (s := Z.max capacity (minCapacity_ self)) in *.
  destruct (to_double_exact s ltac:(lia)) as (x & _ & Hxs & Hx).
  destruct (to_double_exact newSize ltac:(lia)) as (N & HN & HNn & _).
  pose proof (Double.double_above_one f Hd Hf1) as Hf.
  assert (Z54 : inject_Z (2 ^ 54) = (18014398509481984 # 1)%Q) by reflexivity.
  set (fuel0 := Z.to_nat (newSize * 2 ^ 54)).
  destruct (extend_terminates f newSize N HN HNn Hf Hf2 fuel0 x)
    as (y & Hy & Hny & Hor).
  { rewrite Hxs. change 1%Q with (inject_Z 1). rewrite <- Zle_Qle. lia. }
  { assert (H1 : (inject_Z 1 <= inject_Z s)%Q) by (rewrite <- Zle_Qle; lia).
    assert (H2 : (inject_Z (newSize * 2 ^ 54) <= inject_Z (Z.of_nat fuel0))%Q).
    { rewrite <- Zle_Qle. unfold fuel0. lia. }
    rewrite inject_Z_mult in H2. rewrite Z54 in H2 |- *.
    change (inject_Z 1) with 1%Q in H1. lra. }
  assert (E53 : (Double.pow2 (-53) == 1 # 9007199254740992)%Q) by reflexivity.
  assert (Z63 : inject_Z (2 ^ 63) = (9223372036854775808 # 1)%Q) by reflexivity.
  assert (Z64 : inject_Z (2 ^ 64) = (18446744073709551616 # 1)%Q) by reflexivity.
  assert (Z53 : inject_Z (2 ^ 53) = (9007199254740992 # 1)%Q) by reflexivity.
  assert (Hr1 : newSize <= Qfloor y).
  { rewrite <- (Qfloor_Z newSize). apply Qfloor_resp_le. exact Hny. }
  assert (Hr2 : Qfloor y < 2 ^ 64).
  { rewrite Zlt_Qlt. eapply Qle_lt_trans; [apply Qfloor_le|]. rewrite Z64.
    destruct Hor as [->|Hle].
    - assert ((inject_Z s <= inject_Z (2 ^ 53))%Q) by (rewrite <- Zle_Qle; lia).
      rewrite Z53 in *. lra.
    - rewrite E53 in Hle. rewrite Z63 in Hf2.
      set (A := (inject_Z newSize * f)%Q) in *. lra. }
  exists (S fuel0), (Qfloor y). split; [|split; [exact Hr1|]].
  - intros fuel Hfuel. unfold getExtendedCapacity.
    destruct (Z.leb_spec newSize capacity); [lia|].
    rewrite Hub, Hnth. fold s. rewrite Hx.
    rewrite (extend_fuel_mono _ _ _ _ _ _ Hy Hfuel).
    rewrite to_uint64_floor by lia. reflexivity.
  - destruct Hor as [->|Hle].
    + left. rewrite (Qfloor_comp _ _ Hxs). apply Qfloor_Z.
    + right. eapply Qle_trans; [apply Qfloor_le | exact Hle].
Qed.

(** A policy whose minimum capacity lies below its only range. *)
Definition small_min_policy : DefaultInputBufferGrowthPolicy :=
  {| rangeConfigs_ := [(100, Double.Finite (2 # 1))]; minCapacity_ := 16 |}.

(** A policy with three ranges: 32 -> 4.0, 512 -> 1.5, 4096 -> 1.25. *)
Definition three_ranges_policy : DefaultInputBufferGrowthPolicy :=
  {| rangeConfigs_ := [(32, Double.Finite (4 # 1)); (512, Double.Finite (3 # 2));
                       (4096, Double.Finite (5 # 4))];
     minCapacity_ := 32 |}.

(** C5. When the requested size does not exceed the current capacity, the
    policy returns the current capacity unchanged. *)
Theorem getExtendedCapacity_no_growth :
  forall (fuel : nat) (self : DefaultInputBufferGrowthPolicy)
         (newSize capacity : Z),
    newSize <= capacity ->
    getExtendedCapacity fuel self newSize capacity = Returned capacity.
Proof.
  intros fuel self newSize capacity H. unfold getExtendedCapacity.
  destruct (Z.leb_spec newSize capacity); [reflexivity | lia].
Qed.

Lemma getExtendedCapacity_no_growth_witness :
  40 <= 64 /\
  getExtendedCapacity 0 three_ranges_policy 40 64 = Returned 64.
Proof.
  split; [lia | apply (getExtendedCapacity_no_growth 0 three_ranges_policy 40 64); lia].
Defined.

(** C4, as stated, fails: a request above the current capacity but below
    every range lower bound is answered with the minimum capacity, whatever
    the request and the current capacity are. *)
Lemma getExtendedCapacity_returns_min_capacity :
  getExtendedCapacity 0 small_min_policy 50 20 = Returned 16
  /\ ~ (50 <= 16 /\ 20 <= 16).
Proof. split; [reflexivity | lia]. Qed.

(** The double of 1.4, and a policy that grows by it. *)
Definition double_1_4 : Q := 3152519739159347 # 2251799813685248.

Definition rounded_factor_policy : DefaultInputBufferGrowthPolicy :=
  {| rangeConfigs_ := [(32, Double.Finite double_1_4)]; minCapacity_ := 32 |}.

Definition half_more_policy : DefaultInputBufferGrowthPolicy :=
  {| rangeConfigs_ := [(32, Double.Finite (3 # 2))]; minCapacity_ := 32 |}.

(** The capacity is computed in doubles.  Growing 45 by 1.4 gives a double
    just below 63, so that a request of 63 takes a second multiplication;
    and a request of [2^53 + 1] is compared as the double [2^53], so that a
    capacity of [2^53] is returned for it, which is less than the request. *)
Lemma getExtendedCapacity_in_doubles :
  getExtendedCapacity 10 rounded_factor_policy 63 45 = Returned 88
  /\ getExtendedCapacity 10 half_more_policy (2 ^ 53 + 1) (2 ^ 53)
     = Returned (2 ^ 53).
Proof. split; vm_compute; reflexivity. Qed.

(** C4, amended. Take a call with a current capacity that a [uint64_t]
    holds and a requested size and a minimum capacity of at most [2^53],
    the range in which a double holds every size exactly.  Suppose that a
    request lying below every range lower bound does not exceed the minimum
    capacity, that growth starts from a positive capacity, and that every
    growth factor is a finite double greater than one with the requested
    size times the factor at most [2^63].  Then the call returns, and the
    returned capacity is at least the requested size and at least the
    current capacity. *)
Theorem getExtendedCapacity_covers_request :
  forall (self : DefaultInputBufferGrowthPolicy) (newSize capacity : Z),
    0 <= capacity < 2 ^ 64 ->
    0 <= newSize <= 2 ^ 53 ->
    0 <= minCapacity_ self <= 2 ^ 53 ->
    (upper_bound (rangeConfigs_ self) newSize = 0%nat ->
     newSize <= minCapacity_ self) ->
    (capacity < newSize -> 0 < Z.max capacity (minCapacity_ self)) ->
    (forall t f, In (t, f) (rangeConfigs_ self) ->
       exists q : Q,
         f = Double.Finite q /\ Double.is_double q = true /\ (1 < q)%Q
         /\ (inject_Z newSize * q <= inject_Z (2 ^ 63))%Q) ->
    exists (fuel0 : nat) (r : Z),
      (forall fuel, (fuel0 <= fuel)%nat ->
                    getExtendedCapacity fuel self newSize capacity = Returned r)
      /\ newSize <= r /\ capacity <= r.
Proof.
  intros self newSize capacity Hc Hn Hm Hbelow Hpos Hfac.
  destruct (Z.le_gt_cases newSize capacity) as [Hle|Hgt].
  { exists 0%nat, capacity. split; [|split; [exact Hle | lia]].
    intros fuel _. unfold getExtendedCapacity.
    destruct (Z.leb_spec newSize capacity); [reflexivity | lia]. }
  destruct (upper_bound (rangeConfigs_ self) newSize) as [|i] eqn:Hub.
  { exists 0%nat, (minCapacity_ self).
    specialize (Hbelow eq_refl). split; [|split; lia].
    intros fuel _. unfold getExtendedCapacity.
    destruct (Z.leb_spec newSize capacity); [lia|]. rewrite Hub. reflexivity. }
  pose proof (upper_bound_le_length (rangeConfigs_ self) newSize) as Hlen.
  rewrite Hub in Hlen.
  destruct (nth_error (rangeConfigs_ self) i) as [[t f]|] eqn:Hnth.
  2:{ apply nth_error_None in Hnth. lia. }
  destruct (Hfac t f (nth_error_In _ _ Hnth)) as (q & -> & Hd & Hq1 & Hq2).
  specialize (Hpos Hgt).
  destruct (growth_returns self newSize capacity i t q)
    as (fuel0 & r & Hr & Hnr & _); try assumption; try lia.
  exists fuel0, r. split; [exact Hr | split; [exact Hnr | lia]].
Qed.

Lemma getExtendedCapacity_covers_request_witness :
  exists (fuel0 : nat) (r : Z),
    (forall fuel, (fuel0 <= fuel)%nat ->
                  getExtendedCapacity fuel three_ranges_policy 600 100
                  = Returned r)
    /\ 600 <= r /\ 100 <= r.
Proof.
  apply (getExtendedCapacity_covers_request three_ranges_policy 600 100).
  - lia.
  - lia.
  - simpl; lia.
  - simpl. discriminate.
  - simpl; lia.
  - simpl. intros t f [H|[H|[H|[]]]]; inversion H; subst;
      eexists; (split; [reflexivity|]);
      (split; [vm_compute; reflexivity|]);
      (split; [reflexivity | intro Hgt; discriminate Hgt]).
Defined.

(** *** Growth that does not end, the returned value, and the range used *)

(** The loop makes no progress from a zero capacity. *)
Lemma extend_stuck_zero (f : Q) (n : Z) (N : Q) (fuel : nat) :
  Double.of_uint64 n = Double.Finite N -> (0 < N)%Q ->
  extend fuel (Double.Finite f) n (Double.Finite 0) = None.
Proof.
  intros HN Hpos. induction fuel as [|fuel IH]; [reflexivity|].
  rewrite extend_S, HN.
  destruct (Double.lt (Double.Finite 0) (Double.Finite N)) eqn:Hlt.
  - unfold Double.mul. rewrite (Double.round_zero (0 * f)) by ring. exact IH.
  - apply Bool.not_true_iff_false in Hlt. rewrite lt_Finite in Hlt. contradiction.
Qed.

(** Nor with a factor of one. *)
Lemma extend_stuck_one (f : Q) (n : Z) (N x : Q) (fuel : nat) :
  Double.of_uint64 n = Double.Finite N -> (x < N)%Q ->
  (f == 1)%Q -> Double.round x = Double.Finite x ->
  extend fuel (Double.Finite f) n (Double.Finite x) = None.
Proof.
  intros HN Hlt Hf Hx. induction fuel as [|fuel IH]; [reflexivity|].
  rewrite extend_S, HN. apply lt_Finite in Hlt. rewrite Hlt.
  unfold Double.mul. rewrite (Double.round_comp (x * f) x) by (rewrite Hf; ring).
  rewrite Hx. exact IH.
Qed.

(** Nor with a factor below one. *)
Lemma extend_stuck_below (f : Q) (n : Z) (N : Q) (fuel : nat) :
  Double.of_uint64 n = Double.Finite N ->
  (1 <= N)%Q -> (N <= inject_Z (2 ^ 64))%Q ->
  (0 <= f)%Q -> (f <= 1 - Double.pow2 (-53))%Q ->
  forall x : Q,
    (0 <= x)%Q -> (x < N)%Q ->
    extend fuel (Double.Finite f) n (Double.Finite x) = None.
Proof.
  intros HN HN1 HN64 Hf0 Hf1.
  assert (E53 : (Double.pow2 (-53) == 1 # 9007199254740992)%Q) by reflexivity.
  assert (Z64 : inject_Z (2 ^ 64) = (18446744073709551616 # 1)%Q) by reflexivity.
  rewrite E53 in Hf1. rewrite Z64 in HN64.
  induction fuel as [|fuel IH]; intros x Hx0 Hlt; [reflexivity|].
  rewrite extend_S, HN. pose proof Hlt as Hlt'. apply lt_Finite in Hlt'. rewrite Hlt'.
  unfold Double.mul.
  assert (Hy0 : (0 <= x * f)%Q) by (apply Qmult_le_0_compat; assumption).
  assert (Hy1 : (x * f <= x * (1 - (1 # 9007199254740992)))%Q)
    by (rewrite !(Qmult_comm x); apply Qmult_le_compat_r; assumption).
  set (y := (x * f)%Q) in *.
  destruct (Qlt_le_dec 0 y) as [Hpos|Hzero].
  2:{ rewrite (Double.round_zero y) by lra. apply IH; lra. }
  destruct (Qlt_le_dec y (Double.pow2 (-1022))) as [Hsub|Hnorm].
  - destruct (Double.round_subnormal y Hpos Hsub) as (v & Hv & Hv0 & Hv1).
    rewrite Hv. apply IH; [exact Hv0|].
    assert ((Double.pow2 (-1022) <= Double.pow2 (-1))%Q) by (apply Double.pow2_le; lia).
    assert ((Double.pow2 (-1075) <= Double.pow2 (-1))%Q) by (apply Double.pow2_le; lia).
    change (Double.pow2 (-1)) with (1 # 2)%Q in *. lra.
  - destruct (Double.round_normal y Hnorm) as (v & Hv & Hlo & Hhi).
    { assert ((Double.pow2 64 < Double.pow2 1023)%Q) by (apply Double.pow2_lt; lia).
      rewrite (Double.pow2_Z 64) in H by lia. rewrite Z64 in H. lra. }
    rewrite Hv. rewrite E53 in Hlo, Hhi. apply IH; lra.
Qed.

Definition unit_factor_policy : DefaultInputBufferGrowthPolicy :=
  {| rangeConfigs_ := [(32, Double.Finite (1 # 1))]; minCapacity_ := 16 |}.

(** X1. Growth does not end when it starts from a zero capacity, or when the
    factor of the range is a double between zero and one: whatever the
    number of passes allowed, the loop of [getExtendedCapacity] is still
    running.  The requested size is at most [2^53], so that the comparison
    of the loop sees it exactly. *)
Theorem getExtendedCapacity_never_returns :
  forall (self : DefaultInputBufferGrowthPolicy) (newSize capacity : Z)
         (i : nat) (t : Z) (f : Q) (fuel : nat),
    capacity < newSize -> newSize <= 2 ^ 53 ->
    upper_bound (rangeConfigs_ self) newSize = S i ->
    nth_error (rangeConfigs_ self) i = Some (t, Double.Finite f) ->
    0 <= Z.max capacity (minCapacity_ self) < newSize ->
    Z.max capacity (minCapacity_ self) = 0
    \/ (Double.is_double f = true /\ (0 <= f)%Q /\ (f <= 1)%Q) ->
    getExtendedCapacity fuel self newSize capacity = OutOfFuel.
Proof.
  intros self newSize capacity i t f fuel Hlt Hn Hub Hnth Hstart Hwhy.
  unfold getExtendedCapacity.
  destruct (Z.leb_spec newSize capacity); [lia|].
  rewrite Hub, Hnth.
  set (s := Z.max capacity (minCapacity_ self)) in *.
  destruct (to_double_exact newSize ltac:(lia)) as (N & HN & HNn & _).
  destruct (to_double_exact s ltac:(lia)) as (x & Hxr & Hxs & Hx).
  assert (HsN : (inject_Z s < inject_Z newSize)%Q) by (rewrite <- Zlt_Qlt; lia).
  assert (Hs0 : (inject_Z 0 <= inject_Z s)%Q) by (rewrite <- Zle_Qle; lia).
  assert (HN1 : (inject_Z 1 <= inject_Z newSize)%Q) by (rewrite <- Zle_Qle; lia).
  assert (HN64 : (inject_Z newSize <= inject_Z (2 ^ 64))%Q) by (rewrite <- Zle_Qle; lia).
  change (inject_Z 0) with 0%Q in Hs0. change (inject_Z 1) with 1%Q in HN1.
  destruct Hwhy as [H0|(Hd & Hf0 & Hf1)].
  - rewrite H0. change (to_double 0) with (Some (Double.Finite 0)). cbv beta iota.
    rewrite (extend_stuck_zero f newSize N fuel HN) by lra. reflexivity.
  - rewrite Hx. destruct (Qlt_le_dec f 1) as [Hlt1|Hge1].
    + rewrite (extend_stuck_below f newSize N fuel HN); [reflexivity| | | | | |]; try lra.
      apply Double.double_below_one; assumption.
    + rewrite (extend_stuck_one f newSize N x fuel HN); [reflexivity| | |].
      * lra.
      * lra.
      * unfold Double.of_uint64 in Hxr.
        rewrite (Double.round_comp x (inject_Z s) Hxs). exact Hxr.
Qed.

Lemma getExtendedCapacity_never_returns_witness :
  getExtendedCapacity 1000 unit_factor_policy 40 20 = OutOfFuel.
Proof.
  apply (getExtendedCapacity_never_returns unit_factor_policy 40 20 0 32 (1 # 1) 1000).
  - lia.
  - lia.
  - reflexivity.
  - reflexivity.
  - simpl; lia.
  - right. split; [vm_compute; reflexivity|].
    split; apply Qle_bool_iff; reflexivity.
Defined.

(** X2. When growth happens with sizes of at most [2^53] and a factor that
    is a double greater than one, the call returns a capacity that is at
    least the requested size; and it either is the start (the larger of the
    current and the minimum capacity) or exceeds the requested size by less
    than the factor and one rounding: it is at most the requested size
    times the factor times [1 + 2^-53]. *)
Theorem getExtendedCapacity_overshoot :
  forall (self : DefaultInputBufferGrowthPolicy) (newSize capacity : Z)
         (i : nat) (t : Z) (f : Q),
    0 <= capacity < newSize -> newSize <= 2 ^ 53 ->
    0 < Z.max capacity (minCapacity_ self) <= 2 ^ 53 ->
    upper_bound (rangeConfigs_ self) newSize = S i ->
    nth_error (rangeConfigs_ self) i = Some (t, Double.Finite f) ->
    Double.is_double f = true -> (1 < f)%Q ->
    (inject_Z newSize * f <= inject_Z (2 ^ 63))%Q ->
    exists (fuel0 : nat) (r : Z),
      (forall fuel, (fuel0 <= fuel)%nat ->
         getExtendedCapacity fuel self newSize capacity = Returned r)
      /\ newSize <= r
      /\ (r = Z.max capacity (minCapacity_ self)
          \/ (inject_Z r
              <= inject_Z newSize * f * (1 + Double.pow2 (-53)))%Q).
Proof.
  intros self newSize capacity i t f. apply growth_returns.
Qed.

Lemma getExtendedCapacity_overshoot_witness :
  exists (fuel0 : nat) (r : Z),
    (forall fuel, (fuel0 <= fuel)%nat ->
       getExtendedCapacity fuel rounded_factor_policy 63 45 = Returned r)
    /\ 63 <= r
    /\ (r = Z.max 45 (minCapacity_ rounded_factor_policy)
        \/ (inject_Z r
            <= inject_Z 63 * double_1_4 * (1 + Double.pow2 (-53)))%Q).
Proof.
  apply (getExtendedCapacity_overshoot rounded_factor_policy 63 45
           0 32 double_1_4).
  - lia.
  - lia.
  - simpl; lia.
  - reflexivity.
  - reflexivity.
  - vm_compute; reflexivity.
  - reflexivity.
  - intro H; discriminate H.
Defined.

(** X3. With the range lower bounds in ascending order, a request above the
    current capacity is answered with the minimum capacity exactly when it
    lies below every lower bound; otherwise the factor used is that of the
    range with the greatest lower bound not above the request. *)
Theorem getExtendedCapacity_range :
  forall (self : DefaultInputBufferGrowthPolicy) (newSize capacity : Z)
         (fuel : nat),
    ascending (rangeConfigs_ self) ->
    capacity < newSize ->
    (Forall (fun e => newSize < fst e) (rangeConfigs_ self) ->
     getExtendedCapacity fuel self newSize capacity
     = Returned (minCapacity_ self))
    /\ (forall i t f,
          nth_error (rangeConfigs_ self) i = Some (t, f) ->
          t <= newSize ->
          (forall e, nth_error (rangeConfigs_ self) (S i) = Some e ->
                     newSize < fst e) ->
          getExtendedCapacity fuel self newSize capacity
          = match to_double (Z.max capacity (minCapacity_ self)) with
            | Some start =>
                match extend fuel f newSize start with
                | Some x =>
                    match to_uint64 (Double.floor x) with
                    | Some r => Returned r
                    | None => ConversionError
                    end
                | None => OutOfFuel
                end
            | None => ConversionError
            end).
Proof.
  intros self newSize capacity fuel Hasc Hlt.
  pose proof (upper_bound_ascending (rangeConfigs_ self) newSize Hasc) as Hub.
  pose proof (upper_bound_le_length (rangeConfigs_ self) newSize) as Hlen.
  unfold getExtendedCapacity.
  destruct (Z.leb_spec newSize capacity); [lia|]. split.
  - intros Hall.
    destruct (upper_bound (rangeConfigs_ self) newSize) as [|j] eqn:Hj;
      [reflexivity|].
    destruct (nth_error (rangeConfigs_ self) 0) as [e|] eqn:He.
    + pose proof (proj1 (Hub 0%nat e He) ltac:(lia)) as Hle.
      rewrite Forall_forall in Hall.
      assert (Hin : e ∈ rangeConfigs_ self).
      { apply list_elem_of_In. exact (nth_error_In _ _ He). }
      specialize (Hall e Hin). simpl in Hall. lia.
    + apply nth_error_None in He. lia.
  - intros i t f Hi Ht Hnext.
    assert (Hi' : (i < upper_bound (rangeConfigs_ self) newSize)%nat).
    { apply (Hub i (t, f) Hi). exact Ht. }
    assert (Hsi : ~ (S i < upper_bound (rangeConfigs_ self) newSize)%nat).
    { intros Hlt'.
      destruct (nth_error (rangeConfigs_ self) (S i)) as [e|] eqn:He.
      - pose proof (proj1 (Hub (S i) e He) Hlt'). specialize (Hnext e eq_refl). lia.
      - apply nth_error_None in He. lia. }
    replace (upper_bound (rangeConfigs_ self) newSize) with (S i) by lia.
    rewrite Hi. reflexivity.
Qed.

Lemma getExtendedCapacity_range_witness :
  getExtendedCapacity 10 three_ranges_policy 600 100
  = match to_double (Z.max 100 (minCapacity_ three_ranges_policy)) with
    | Some start =>
        match extend 10 (Double.Finite (3 # 2)) 600 start with
        | Some x =>
            match to_uint64 (Double.floor x) with
            | Some r => Returned r
            | None => ConversionError
            end
        | None => OutOfFuel
        end
    | None => ConversionError
    end.
Proof.
  apply (proj2 (getExtendedCapacity_range three_ranges_policy 600 100 10
           ltac:(simpl; repeat constructor; lia) ltac:(lia)) 1%nat 512
           (Double.Finite (3 # 2))).
  - reflexivity.
  - lia.
  - intros e He. inversion He; subst e. simpl. lia.
Defined.
End BufferGrowthPolicy.

(** ** Run-length encoding ([RleEncoding.h], [RleEncoding.cpp]) *)

Module Rle.
Import Common.

(** Modelled from the spec: [Encoding::kPrefixSize] and
    [Encoding::serializePrefix] are declared in Encoding.h, which is not
    among the sources.  Every payload starts with the encoding kind
    (1 byte), the data type (1 byte) and the row count (4 bytes LE). *)
Definition kPrefixSize : Z := 6.

Definition serializePrefix (encodingType dataType rowCount : Z) : list Z :=
  write_le 1 encodingType ++ write_le 1 dataType ++ write_le 4 rowCount.

(** [detail::BufferedEncoding<T, 32>] is declared in Encoding.h as well.  It
    hands out the rows of a nested encoding one at a time.  [encoding_] holds
    the rows the nested encoding decodes to and [encodingPosition_] counts
    the rows handed out.  The run loops below fetch one value more than the
    rows they consume, so a fetch may happen after the last row: what it
    finds in the buffer is left open as [pastEnd_]. *)
Record BufferedEncoding (T : Type) : Type := {
  encoding_ : list T;
  pastEnd_ : nat -> T;
  encodingPosition_ : nat
}.
Arguments encoding_ {T} _.
Arguments pastEnd_ {T} _ _.
Arguments encodingPosition_ {T} _.

Definition buffered_nextValue {T : Type} (b : BufferedEncoding T)
  : T * BufferedEncoding T :=
  (nth (encodingPosition_ b) (encoding_ b) (pastEnd_ b (encodingPosition_ b)),
   {| encoding_ := encoding_ b;
      pastEnd_ := pastEnd_ b;
      encodingPosition_ := S (encodingPosition_ b) |}).

Definition buffered_reset {T : Type} (b : BufferedEncoding T)
  : BufferedEncoding T :=
  {| encoding_ := encoding_ b; pastEnd_ := pastEnd_ b; encodingPosition_ := 0 |}.

(** What [RLEEncodingBase] asks of the class deriving from it (the CRTP
    parameter [RLEEncoding]): the state [D] of the run values and the two
    members the base calls through [derived()]. *)
Class RunValues (V D : Type) : Type := {
  nextValue : D -> V * D;
  resetValues : D -> D
}.

(** [RLEEncoding<T>] for numeric [T]: the run values are a nested encoding. *)
Record ScalarRunValues (T : Type) : Type := {
  values_ : BufferedEncoding T
}.
Arguments values_ {T} _.

#[export] Instance scalar_run_values (T : Type) : RunValues T (ScalarRunValues T) := {|
  nextValue d :=
    let (v, b) := buffered_nextValue (values_ d) in (v, {| values_ := b |});
  resetValues d := {| values_ := buffered_reset (values_ d) |}
|}.

(** [RLEEncoding<bool>]: only the first run value is kept. *)
Record BoolRunValues : Type := {
  initialValue_ : bool;
  value_ : bool
}.

(** [value_ = !value_; return !value_;] and [value_ = initialValue_;]. *)
#[export] Instance bool_run_values : RunValues bool BoolRunValues := {|
  nextValue d :=
    let d' := {| initialValue_ := initialValue_ d; value_ := negb (value_ d) |} in
    (negb (value_ d'), d');
  resetValues d :=
    {| initialValue_ := initialValue_ d; value_ := initialValue_ d |}
|}.

(** The members of [RLEEncodingBase]; [derived] is the part of the object
    that belongs to the deriving class. *)
Record RLEEncodingBase (V D : Type) : Type := {
  copiesRemaining_ : Z;
  currentValue_ : V;
  materializedRunLengths_ : BufferedEncoding Z;
  derived : D
}.
Arguments copiesRemaining_ {V D} _.
Arguments currentValue_ {V D} _.
Arguments materializedRunLengths_ {V D} _.
Arguments derived {V D} _.

Section Base.
Context {V D : Type} `{RunValues V D}.

(** [copiesRemaining_ = materializedRunLengths_.nextValue();
     currentValue_ = nextValue();] *)
Definition nextRun (self : RLEEncodingBase V D) : RLEEncodingBase V D :=
  let (copies, lengths) := buffered_nextValue (materializedRunLengths_ self) in
  let (value, d) := nextValue (derived self) in
  {| copiesRemaining_ := copies;
     currentValue_ := value;
     materializedRunLengths_ := lengths;
     derived := d |}.

Definition reset (self : RLEEncodingBase V D) : RLEEncodingBase V D :=
  nextRun
    {| copiesRemaining_ := copiesRemaining_ self;
       currentValue_ := currentValue_ self;
       materializedRunLengths_ := buffered_reset (materializedRunLengths_ self);
       derived := resetValues (derived self) |}.

Definition setCopiesRemaining (self : RLEEncodingBase V D) (copies : Z)
  : RLEEncodingBase V D :=
  {| copiesRemaining_ := copies;
     currentValue_ := currentValue_ self;
     materializedRunLengths_ := materializedRunLengths_ self;
     derived := derived self |}.

(** The loop of [skip]; one unit of fuel per iteration. *)
Fixpoint skip_loop (fuel : nat) (rowsLeft : Z) (self : RLEEncodingBase V D)
  : option (RLEEncodingBase V D) :=
  if rowsLeft =? 0 then Some self
  else
    match fuel with
    | O => None
    | S fuel' =>
        if rowsLeft <? copiesRemaining_ self
        then Some (setCopiesRemaining self
                     (wrap32 (copiesRemaining_ self - rowsLeft)))
        else skip_loop fuel' (wrap32 (rowsLeft - copiesRemaining_ self))
               (nextRun self)
    end.

Definition skip (fuel : nat) (rowCount : Z) (self : RLEEncodingBase V D)
  : option (RLEEncodingBase V D) :=
  skip_loop fuel rowCount self.

(** The loop of [materialize]; [output] is what has been written to the
    buffer so far. *)
Fixpoint materialize_loop (fuel : nat) (rowsLeft : Z)
    (self : RLEEncodingBase V D) (output : list V)
  : option (list V * RLEEncodingBase V D) :=
  if rowsLeft =? 0 then Some (output, self)
  else
    match fuel with
    | O => None
    | S fuel' =>
        if rowsLeft <? copiesRemaining_ self
        then Some (output ++ repeat (currentValue_ self) (Z.to_nat rowsLeft),
                   setCopiesRemaining self
                     (wrap32 (copiesRemaining_ self - rowsLeft)))
        else materialize_loop fuel'
               (wrap32 (rowsLeft - copiesRemaining_ self))
               (nextRun self)
               (output ++ repeat (currentValue_ self)
                            (Z.to_nat (copiesRemaining_ self)))
    end.

Definition materialize (fuel : nat) (rowCount : Z) (self : RLEEncodingBase V D)
  : option (list V * RLEEncodingBase V D) :=
  materialize_loop fuel rowCount self [].

End Base.

(** Modelled from the spec: [rle::computeRuns] is declared in
    dwio/alpha/common/Rle.h, which is not among the sources.  It cuts the
    values into maximal runs of equal neighbours and gives the length and the
    value of each run, in order. *)
Fixpoint computeRuns {T : Type} `{EqDecision T} (values : list T)
  : list Z * list T :=
  match values with
  | [] => ([], [])
  | x :: rest =>
      match computeRuns rest with
      | (l :: runLengths, v :: runValues) =>
          if decide (x = v)
          then (l + 1 :: runLengths, v :: runValues)
          else (1 :: l :: runLengths, x :: v :: runValues)
      | _ => ([1], [x])
      end
  end.

(** How a constructor ends: with the object, or with a failed check, a
    nested decoder that throws, or a read outside the payload (undefined in
    the source). *)
Inductive ConstructionError : Type :=
| ReadOutsideData
| RunLengthsNotDecodable
| UnexpectedRunLengthEncodingEnd.

Inductive Constructed (A : Type) : Type :=
| Built (a : A)
| Rejected (e : ConstructionError).
Arguments Built {A} a.
Arguments Rejected {A} e.

Section Encode.
(** The nested [u32] codec is chosen by [EncodingSelection::encodeNested] on
    the way in and by [EncodingFactory::decode] on the way out; neither is
    among the sources, nor are the numeric values of [EncodingType::RLE] and
    of the data types. *)
Variable encodeNested : list Z -> list Z.
Variable decode : list Z -> option (list Z).
Variable EncodingType_RLE : Z.

(** [RLEEncodingBase::encode], with the deriving class's
    [getSerializedRunValues] and data type.  [encodingSize] is a
    [uint32_t]: that many bytes are reserved, the three parts are written
    into them, and the reserved bytes are returned.  When the sizes do not
    fit in 32 bits, more is written than was reserved and the assertion on
    the size fails: there is no encoding then. *)
Definition encode {T : Type} `{EqDecision T}
    (getSerializedRunValues : list T -> list Z) (dataType : Z)
    (values : list T) : option (list Z) :=
  let valueCount := wrap32 (Z.of_nat (length values)) in
  let (runLengths, runValues) := computeRuns values in
  let serializedRunLengths := encodeNested runLengths in
  let serializedRunValues := getSerializedRunValues runValues in
  let encodingSize :=
    wrap32 (kPrefixSize + 4 + Z.of_nat (length serializedRunLengths)
            + Z.of_nat (length serializedRunValues)) in
  let written :=
    serializePrefix EncodingType_RLE dataType valueCount
      ++ writeString serializedRunLengths
      ++ serializedRunValues in
  if Z.of_nat (length written) =? encodingSize
  then Some (take (Z.to_nat encodingSize) written)
  else None.

(** [RLEEncoding<bool>::getSerializedRunValues]: one byte holding
    [runValues[0]] (an empty vector would be indexed out of range; the byte
    is then taken as 0). *)
Definition getSerializedRunValues_bool (runValues : list bool) : list Z :=
  [if nth 0 runValues false then 1 else 0].

(** [getValuesStart()], as an offset into [data_]. *)
Definition getValuesStart (data : list Z) : option Z :=
  match read 4 data kPrefixSize with
  | Some (runsSize, _) => Some (kPrefixSize + 4 + runsSize)
  | None => None
  end.

(** The constructor of [RLEEncodingBase]: the run lengths are the nested
    encoding of [runs size] bytes found after the prefix and the 4-byte
    [runs size]. *)
Definition RLEEncodingBase_new (data : list Z) : Constructed (list Z) :=
  match read 4 data kPrefixSize with
  | None => Rejected ReadOutsideData
  | Some (runsSize, runsStart) =>
      match subspan data runsStart runsSize with
      | None => Rejected ReadOutsideData
      | Some runsBytes =>
          match decode runsBytes with
          | None => Rejected RunLengthsNotDecodable
          | Some runLengths => Built runLengths
          end
      end
  end.

(** The constructor of [RLEEncoding<bool>].  [pastEnd] is what the run-length
    reader finds after its last row.  [copiesRemaining_] starts at 0;
    [currentValue_] and [value_] start unset ([false] here) and [reset]
    assigns them.  The byte at [getValuesStart()] is read before the check;
    when it lies outside [data] it is taken as 0 and the check fails. *)
Definition RLEEncoding_bool_new (pastEnd : nat -> Z) (data : list Z)
  : Constructed (RLEEncodingBase bool BoolRunValues) :=
  match RLEEncodingBase_new data with
  | Rejected e => Rejected e
  | Built runLengths =>
      match getValuesStart data with
      | None => Rejected ReadOutsideData
      | Some valuesStart =>
          let initialValue :=
            negb (nth (Z.to_nat valuesStart) data 0 =? 0) in
          if valuesStart + 1 =? Z.of_nat (length data)
          then Built (reset
                 {| copiesRemaining_ := 0;
                    currentValue_ := false;
                    materializedRunLengths_ :=
                      {| encoding_ := runLengths;
                         pastEnd_ := pastEnd;
                         encodingPosition_ := 0 |};
                    derived :=
                      {| initialValue_ := initialValue; value_ := false |} |})
          else Rejected UnexpectedRunLengthEncodingEnd
      end
  end.

End Encode.

(** A nested codec to run the examples with: every [u32] as 4 bytes LE. *)
Definition fixed32_encode (values : list Z) : list Z :=
  flat_map (write_le 4) values.

Fixpoint fixed32_decode_aux (fuel : nat) (bytes : list Z) : option (list Z) :=
  match bytes with
  | [] => Some []
  | b0 :: b1 :: b2 :: b3 :: rest =>
      match fuel with
      | O => None
      | S fuel' =>
          match fixed32_decode_aux fuel' rest with
          | Some vs => Some (read_le [b0; b1; b2; b3] :: vs)
          | None => None
          end
      end
  | _ => None
  end.

Definition fixed32_decode (bytes : list Z) : option (list Z) :=
  fixed32_decode_aux (length bytes) bytes.

(** *** Properties of the run loops *)

(** Sum of a list of run lengths. *)
Definition total (runs : list Z) : Z := fold_right Z.add 0 runs.

(** The run lengths a reader has not handed out yet. *)
Definition unread {T : Type} (b : BufferedEncoding T) : list T :=
  skipn (encodingPosition_ b) (encoding_ b).

(** Every value a [u32] reader can hand out fits 32 bits. *)
Definition lengths_in_range (b : BufferedEncoding Z) : Prop :=
  Forall (in_range 32) (encoding_ b) /\ forall i, in_range 32 (pastEnd_ b i).

Section BaseFacts.
Context {V D : Type} `{RunValues V D}.

Definition wf (self : RLEEncodingBase V D) : Prop :=
  in_range 32 (copiesRemaining_ self)
  /\ lengths_in_range (materializedRunLengths_ self).

Lemma nextRun_copies (self : RLEEncodingBase V D) :
  copiesRemaining_ (nextRun self)
  = fst (buffered_nextValue (materializedRunLengths_ self)).
Proof. unfold nextRun. simpl. destruct (nextValue (derived self)). reflexivity. Qed.

Lemma nextRun_lengths (self : RLEEncodingBase V D) :
  materializedRunLengths_ (nextRun self)
  = snd (buffered_nextValue (materializedRunLengths_ self)).
Proof. unfold nextRun. simpl. destruct (nextValue (derived self)). reflexivity. Qed.

Lemma nextRun_setCopiesRemaining (self : RLEEncodingBase V D) (c : Z) :
  nextRun (setCopiesRemaining self c) = nextRun self.
Proof. reflexivity. Qed.

Lemma wf_nextRun_lengths (self : RLEEncodingBase V D) :
  lengths_in_range (materializedRunLengths_ self) -> wf (nextRun self).
Proof.
  intros [Henc Hpast]. unfold wf.
  rewrite nextRun_copies, nextRun_lengths. simpl. split.
  - destruct (nth_in_or_default (encodingPosition_ (materializedRunLengths_ self))
               (encoding_ (materializedRunLengths_ self))
               (pastEnd_ (materializedRunLengths_ self)
                  (encodingPosition_ (materializedRunLengths_ self)))) as [Hin|Heq].
    + rewrite Forall_forall in Henc. apply Henc. apply list_elem_of_In. exact Hin.
    + rewrite Heq. apply Hpast.
  - split; assumption.
Qed.

Lemma wf_nextRun (self : RLEEncodingBase V D) : wf self -> wf (nextRun self).
Proof. intros [_ Hl]. apply wf_nextRun_lengths. exact Hl. Qed.

Lemma wf_setCopiesRemaining (self : RLEEncodingBase V D) (c : Z) :
  wf self -> in_range 32 c -> wf (setCopiesRemaining self c).
Proof. intros [_ Hl] Hc. split; assumption. Qed.

Definition prepend (out : list V) (r : list V * RLEEncodingBase V D)
  : list V * RLEEncodingBase V D := (out ++ fst r, snd r).

Lemma materialize_loop_output (fuel : nat) :
  forall (rowsLeft : Z) (self : RLEEncodingBase V D) (out : list V),
    materialize_loop fuel rowsLeft self out
    = option_map (prepend out) (materialize_loop fuel rowsLeft self []).
Proof.
  induction fuel as [|fuel IH]; intros rowsLeft self out; simpl.
  - destruct (rowsLeft =? 0); simpl; [|reflexivity].
    unfold prepend; simpl. now rewrite app_nil_r.
  - destruct (rowsLeft =? 0); simpl.
    { unfold prepend; simpl. now rewrite app_nil_r. }
    destruct (rowsLeft <? copiesRemaining_ self); simpl.
    { reflexivity. }
    rewrite (IH _ _ (out ++ _)), (IH _ _ (repeat _ _)).
    destruct (materialize_loop fuel _ _ []) as [[o s]|]; simpl; [|reflexivity].
    unfold prepend; simpl. now rewrite app_assoc.
Qed.

Lemma skip_loop_materialize_loop (fuel : nat) :
  forall (rowsLeft : Z) (self : RLEEncodingBase V D) (out : list V),
    skip_loop fuel rowsLeft self
    = option_map snd (materialize_loop fuel rowsLeft self out).
Proof.
  induction fuel as [|fuel IH]; intros rowsLeft self out; simpl.
  - destruct (rowsLeft =? 0); reflexivity.
  - destruct (rowsLeft =? 0); [reflexivity|].
    destruct (rowsLeft <? copiesRemaining_ self); [reflexivity|].
    apply IH.
Qed.

Lemma materialize_loop_fuel_mono (fuel : nat) :
  forall (fuel' : nat) (rowsLeft : Z) (self : RLEEncodingBase V D)
         (out : list V) (r : list V * RLEEncodingBase V D),
    materialize_loop fuel rowsLeft self out = Some r ->
    (fuel <= fuel')%nat ->
    materialize_loop fuel' rowsLeft self out = Some r.
Proof.
  induction fuel as [|fuel IH]; intros fuel' rowsLeft self out r Hr Hle.
  - simpl in Hr. destruct fuel'; simpl; destruct (rowsLeft =? 0); congruence.
  - destruct fuel' as [|fuel']; [lia|]. simpl in *.
    destruct (rowsLeft =? 0); [exact Hr|].
    destruct (rowsLeft <? copiesRemaining_ self); [exact Hr|].
    apply IH; [exact Hr | lia].
Qed.

Lemma materialize_loop_zero (fuel : nat) (self : RLEEncodingBase V D) (out : list V) :
  materialize_loop fuel 0 self out = Some (out, self).
Proof. destruct fuel; reflexivity. Qed.

Lemma materialize_loop_S (fuel : nat) (rowsLeft : Z)
    (self : RLEEncodingBase V D) (out : list V) :
  materialize_loop (S fuel) rowsLeft self out
  = if rowsLeft =? 0 then Some (out, self)
    else if rowsLeft <? copiesRemaining_ self
    then Some (out ++ repeat (currentValue_ self) (Z.to_nat rowsLeft),
               setCopiesRemaining self
                 (wrap32 (copiesRemaining_ self - rowsLeft)))
    else materialize_loop fuel (wrap32 (rowsLeft - copiesRemaining_ self))
           (nextRun self)
           (out ++ repeat (currentValue_ self)
                     (Z.to_nat (copiesRemaining_ self))).
Proof. reflexivity. Qed.

Lemma materialize_loop_within (fuel : nat) (rowsLeft : Z)
    (self : RLEEncodingBase V D) :
  wf self -> 0 <= rowsLeft < copiesRemaining_ self ->
  materialize_loop (S fuel) rowsLeft self []
  = Some (repeat (currentValue_ self) (Z.to_nat rowsLeft),
          setCopiesRemaining self (copiesRemaining_ self - rowsLeft)).
Proof.
  intros [Hc _] Hr. unfold in_range in Hc. rewrite materialize_loop_S.
  destruct (Z.eqb_spec rowsLeft 0) as [H0|H0].
  - subst rowsLeft. simpl. rewrite Z.sub_0_r. destruct self; reflexivity.
  - destruct (Z.ltb_spec rowsLeft (copiesRemaining_ self)); [|lia].
    rewrite wrap32_small by (unfold in_range; lia). reflexivity.
Qed.

Lemma materialize_loop_beyond (fuel : nat) (rowsLeft : Z)
    (self : RLEEncodingBase V D) :
  wf self -> 0 < rowsLeft < 2 ^ 32 -> copiesRemaining_ self <= rowsLeft ->
  materialize_loop (S fuel) rowsLeft self []
  = option_map
      (prepend (repeat (currentValue_ self) (Z.to_nat (copiesRemaining_ self))))
      (materialize_loop fuel (rowsLeft - copiesRemaining_ self) (nextRun self) []).
Proof.
  intros [Hc _] Hr Hge. unfold in_range in Hc. rewrite materialize_loop_S.
  destruct (Z.eqb_spec rowsLeft 0) as [H0|H0]; [lia|].
  destruct (Z.ltb_spec rowsLeft (copiesRemaining_ self)); [lia|].
  rewrite wrap32_small by (unfold in_range; lia).
  rewrite materialize_loop_output. reflexivity.
Qed.

(** Materializing [a + b] rows is materializing [a] rows and then [b]. *)
Lemma materialize_loop_split (fuel : nat) :
  forall (a b : Z) (self : RLEEncodingBase V D) (o : list V)
         (self' : RLEEncodingBase V D),
    wf self -> 0 <= a -> 0 <= b -> a + b < 2 ^ 32 ->
    materialize_loop fuel (a + b) self [] = Some (o, self') ->
    exists o1 s1 o2,
      materialize_loop fuel a self [] = Some (o1, s1)
      /\ materialize_loop fuel b s1 [] = Some (o2, self')
      /\ o = o1 ++ o2
      /\ length o1 = Z.to_nat a.
Proof.
  induction fuel as [|fuel IH]; intros a b self o self' Hwf Ha Hb Hab Hm.
  - simpl in Hm. destruct (Z.eqb_spec (a + b) 0) as [H0|H0]; [|discriminate].
    assert (a = 0) by lia. assert (b = 0) by lia. subst a b.
    inversion Hm; subst. exists [], self', []. simpl. auto.
  - destruct (Z.eq_dec a 0) as [Ha0|Ha0].
    { subst a. exists [], self, o. rewrite materialize_loop_zero.
      rewrite Z.add_0_l in Hm. auto. }
    pose proof Hwf as [Hc Hl]. unfold in_range in Hc.
    destruct (Z_lt_le_dec (a + b) (copiesRemaining_ self)) as [Hlt|Hge].
    + (* both parts inside the current run *)
      rewrite materialize_loop_within in Hm by (auto; lia).
      inversion Hm; subst o self'; clear Hm.
      exists (repeat (currentValue_ self) (Z.to_nat a)),
             (setCopiesRemaining self (copiesRemaining_ self - a)),
             (repeat (currentValue_ self) (Z.to_nat b)).
      split; [apply materialize_loop_within; auto; lia|].
      split; [|split].
      * rewrite materialize_loop_within.
        -- simpl. do 3 f_equal. lia.
        -- apply wf_setCopiesRemaining; [exact Hwf | unfold in_range; lia].
        -- simpl. lia.
      * rewrite <- repeat_app. f_equal. lia.
      * apply repeat_length.
    + rewrite materialize_loop_beyond in Hm by (auto; lia).
      destruct (Z_lt_le_dec a (copiesRemaining_ self)) as [Hlt'|Hge'].
      * (* the first part ends inside the current run, the second leaves it *)
        exists (repeat (currentValue_ self) (Z.to_nat a)),
               (setCopiesRemaining self (copiesRemaining_ self - a)).
        destruct (materialize_loop fuel (a + b - copiesRemaining_ self)
                    (nextRun self) []) as [[o' s']|] eqn:Hrec; [|discriminate].
        unfold prepend in Hm; simpl in Hm. inversion Hm; subst o self'; clear Hm.
        exists (repeat (currentValue_ self)
                  (Z.to_nat (copiesRemaining_ self - a)) ++ o').
        split; [apply materialize_loop_within; auto; lia|].
        split; [|split].
        -- rewrite materialize_loop_beyond.
           ++ simpl. rewrite nextRun_setCopiesRemaining.
              replace (b - (copiesRemaining_ self - a))
                with (a + b - copiesRemaining_ self) by lia.
              rewrite Hrec. reflexivity.
           ++ apply wf_setCopiesRemaining; [exact Hwf | unfold in_range; lia].
           ++ lia.
           ++ simpl. lia.
        -- rewrite app_assoc, <- repeat_app. do 2 f_equal. lia.
        -- apply repeat_length.
      * (* the first part uses up the current run *)
        replace (a + b - copiesRemaining_ self)
          with ((a - copiesRemaining_ self) + b) in Hm by lia.
        destruct (materialize_loop fuel (a - copiesRemaining_ self + b) _ [])
          as [[o' s']|] eqn:Hrec; [|discriminate].
        unfold prepend in Hm; simpl in Hm. inversion Hm; subst o self'; clear Hm.
        apply IH in Hrec; [|apply wf_nextRun; exact Hwf|lia|lia|lia].
        destruct Hrec as (o1 & s1 & o2 & H1 & H2 & Ho & Hlen). subst o'.
        exists (repeat (currentValue_ self) (Z.to_nat (copiesRemaining_ self)) ++ o1), s1, o2.
        split; [|split; [|split]].
        -- rewrite materialize_loop_beyond by (auto; lia). rewrite H1. reflexivity.
        -- eapply materialize_loop_fuel_mono; [exact H2|lia].
        -- now rewrite app_assoc.
        -- rewrite length_app, repeat_length, Hlen. lia.
Qed.

Lemma unread_cons (b : BufferedEncoding Z) (x : Z) (rest : list Z) :
  unread b = x :: rest ->
  fst (buffered_nextValue b) = x /\ unread (snd (buffered_nextValue b)) = rest.
Proof.
  unfold unread, buffered_nextValue. simpl.
  generalize (pastEnd_ b (encodingPosition_ b)).
  generalize (encodingPosition_ b). generalize (encoding_ b).
  induction l as [|y l IH]; intros n d Hs.
  - destruct n; discriminate.
  - destruct n as [|n]; simpl in *.
    + inversion Hs; subst. auto.
    + apply IH. exact Hs.
Qed.

Lemma unread_nil (b : BufferedEncoding Z) :
  unread b = [] -> unread (snd (buffered_nextValue b)) = [].
Proof.
  unfold unread, buffered_nextValue. simpl.
  generalize (encodingPosition_ b). generalize (encoding_ b).
  induction l as [|y l IH]; intros n Hs.
  - reflexivity.
  - destruct n as [|n]; simpl in *; [discriminate|]. apply IH. exact Hs.
Qed.

(** With one unit of fuel per unread run, and one more, [materialize]
    returns as long as the rows asked for are there. *)
Lemma materialize_loop_returns (rest : list Z) :
  forall (rowsLeft : Z) (self : RLEEncodingBase V D),
    wf self ->
    unread (materializedRunLengths_ self) = rest ->
    0 <= rowsLeft <= copiesRemaining_ self + total rest ->
    rowsLeft < 2 ^ 32 ->
    exists o self',
      materialize_loop (S (length rest)) rowsLeft self [] = Some (o, self').
Proof.
  induction rest as [|x rest IH]; intros rowsLeft self Hwf Hun Hr Hlt;
    pose proof Hwf as [Hc _]; unfold in_range in Hc; cbn [length].
  - destruct (Z_lt_le_dec rowsLeft (copiesRemaining_ self)).
    { rewrite materialize_loop_within by (auto; lia). eauto. }
    destruct (Z.eq_dec rowsLeft 0) as [H0|H0].
    { subst. rewrite materialize_loop_zero. eauto. }
    rewrite materialize_loop_beyond by (auto; lia).
    simpl in Hr. replace (rowsLeft - copiesRemaining_ self) with 0 by lia.
    rewrite materialize_loop_zero. simpl. eauto.
  - destruct (Z_lt_le_dec rowsLeft (copiesRemaining_ self)).
    { rewrite materialize_loop_within by (auto; lia). eauto. }
    destruct (Z.eq_dec rowsLeft 0) as [H0|H0].
    { subst. rewrite materialize_loop_zero. eauto. }
    rewrite materialize_loop_beyond by (auto; lia).
    destruct (unread_cons _ _ _ Hun) as [Hx Hrest].
    destruct (IH (rowsLeft - copiesRemaining_ self) (nextRun self))
      as (o & s' & Ho).
    + apply wf_nextRun; exact Hwf.
    + rewrite nextRun_lengths. exact Hrest.
    + rewrite nextRun_copies, Hx. simpl in Hr. lia.
    + lia.
    + rewrite Ho. simpl. eauto.
Qed.

Lemma reset_state (self : RLEEncodingBase V D) :
  lengths_in_range (materializedRunLengths_ self) ->
  let runs := encoding_ (materializedRunLengths_ self) in
  wf (reset self)
  /\ unread (materializedRunLengths_ (reset self)) = tl runs
  /\ (runs <> [] -> copiesRemaining_ (reset self) = hd 0 runs).
Proof.
  intros Hl runs. unfold reset. split; [|split].
  - apply wf_nextRun_lengths. exact Hl.
  - rewrite nextRun_lengths. simpl. unfold unread. simpl.
    destruct (encoding_ (materializedRunLengths_ self)); reflexivity.
  - intros Hne. rewrite nextRun_copies. simpl. subst runs.
    destruct (encoding_ (materializedRunLengths_ self)); [contradiction|reflexivity].
Qed.

Lemma total_hd_tl (runs : list Z) : runs <> [] -> total runs = hd 0 runs + total (tl runs).
Proof. destruct runs; [contradiction|reflexivity]. Qed.

Lemma reset_materialize_returns (self : RLEEncodingBase V D) (rowCount : Z) (fuel : nat) :
  lengths_in_range (materializedRunLengths_ self) ->
  let runs := encoding_ (materializedRunLengths_ self) in
  total runs < 2 ^ 32 -> 0 <= rowCount <= total runs ->
  (length runs < fuel)%nat ->
  exists o self', materialize fuel rowCount (reset self) = Some (o, self').
Proof.
  intros Hl runs Htot Hr Hfuel.
  destruct (reset_state self Hl) as (Hwf & Hun & Hc). fold runs in Hun, Hc.
  destruct (materialize_loop_returns (tl runs) rowCount (reset self) Hwf Hun)
    as (o & s' & Ho).
  - destruct (decide (runs = [])) as [He|Hne].
    + rewrite He in *. simpl in *. destruct Hwf as [Hc' _]. unfold in_range in Hc'. lia.
    + rewrite (Hc Hne). rewrite (total_hd_tl runs Hne) in Hr. lia.
  - lia.
  - exists o, s'. unfold materialize.
    eapply materialize_loop_fuel_mono; [exact Ho|].
    destruct runs; simpl in *; lia.
Qed.

End BaseFacts.

(** C2. Take any run-length decoder: any run lengths (each a [u32], their
    sum [n] a [u32] row count) and any kind of run values.  For [a] and [b]
    with [a + b <= n], [skip(a)] followed by [materialize(b)], both from
    position 0, return, and the rows materialized are those that
    [materialize(a + b)] from position 0 gives after its first [a] rows;
    both ways leave the decoder in the same state. *)
Theorem skip_then_materialize :
  forall (V D : Type) (RV : RunValues V D) (self : RLEEncodingBase V D)
         (a b : Z) (fuel : nat),
    lengths_in_range (materializedRunLengths_ self) ->
    total (encoding_ (materializedRunLengths_ self)) < 2 ^ 32 ->
    0 <= a -> 0 <= b ->
    a + b <= total (encoding_ (materializedRunLengths_ self)) ->
    (length (encoding_ (materializedRunLengths_ self)) < fuel)%nat ->
    exists skipped out_b after_b out_ab after_ab,
      skip fuel a (reset self) = Some skipped
      /\ materialize fuel b skipped = Some (out_b, after_b)
      /\ materialize fuel (a + b) (reset self) = Some (out_ab, after_ab)
      /\ out_b = skipn (Z.to_nat a) out_ab
      /\ after_b = after_ab.
Proof.
  intros V D RV self a b fuel Hl Htot Ha Hb Hab Hfuel.
  destruct (reset_materialize_returns self (a + b) fuel Hl Htot) as (o & s' & Ho);
    [lia | exact Hfuel |].
  destruct (reset_state self Hl) as (Hwf & _ & _).
  unfold materialize in Ho.
  destruct (materialize_loop_split fuel a b (reset self) o s' Hwf Ha Hb)
    as (o1 & s1 & o2 & H1 & H2 & Ho12 & Hlen); [lia | exact Ho |].
  exists s1, o2, s', o, s'. unfold skip, materialize.
  rewrite (skip_loop_materialize_loop fuel a (reset self) []), H1, H2, Ho.
  repeat (split; [reflexivity|]). split; [|reflexivity].
  subst o. rewrite <- Hlen. symmetry. apply drop_app_length.
Qed.

Definition bool_runs_321 : RLEEncodingBase bool BoolRunValues :=
  {| copiesRemaining_ := 0;
     currentValue_ := false;
     materializedRunLengths_ :=
       {| encoding_ := [3; 2; 1]; pastEnd_ := fun _ => 0; encodingPosition_ := 0 |};
     derived := {| initialValue_ := true; value_ := false |} |}.

Lemma skip_then_materialize_witness :
  exists skipped out_b after_b out_ab after_ab,
    skip 4 4 (reset bool_runs_321) = Some skipped
    /\ materialize 4 2 skipped = Some (out_b, after_b)
    /\ materialize 4 (4 + 2) (reset bool_runs_321) = Some (out_ab, after_ab)
    /\ out_b = skipn (Z.to_nat 4) out_ab
    /\ after_b = after_ab.
Proof.
  apply (skip_then_materialize bool BoolRunValues bool_run_values bool_runs_321 4 2 4).
  - split; [repeat constructor; unfold in_range; simpl; lia
           | intros i; unfold in_range; simpl; lia].
  - reflexivity.
  - lia.
  - lia.
  - simpl. lia.
  - simpl. lia.
Defined.


(** *** The boolean case *)

(** What the boolean decoder is meant to produce: the runs, with the value
    flipped from one run to the next. *)
Fixpoint alternate (v : bool) (runs : list Z) : list bool :=
  match runs with
  | [] => []
  | r :: runs' => repeat v (Z.to_nat r) ++ alternate (negb v) runs'
  end.

Lemma nextRun_bool_value (self : RLEEncodingBase bool BoolRunValues) :
  currentValue_ (nextRun self) = value_ (derived self)
  /\ value_ (derived (nextRun self)) = negb (value_ (derived self))
  /\ initialValue_ (derived (nextRun self)) = initialValue_ (derived self).
Proof.
  unfold nextRun. simpl. rewrite Bool.negb_involutive. auto.
Qed.

Lemma total_nonneg (runs : list Z) :
  Forall (in_range 32) runs -> 0 <= total runs.
Proof.
  induction 1 as [|y l Hy _ IH]; simpl; [lia|]. unfold in_range in Hy. lia.
Qed.

Lemma alternate_zero (runs : list Z) :
  Forall (in_range 32) runs -> total runs = 0 ->
  forall v, alternate v runs = [].
Proof.
  induction 1 as [|y l Hy Hl IH]; intros Ht v; simpl in *; [reflexivity|].
  pose proof (total_nonneg l Hl). unfold in_range in Hy.
  assert (y = 0) by lia. subst y. simpl. apply IH. lia.
Qed.

Lemma unread_in_range (b : BufferedEncoding Z) :
  lengths_in_range b -> Forall (in_range 32) (unread b).
Proof. intros [Henc _]. unfold unread. apply Forall_drop. exact Henc. Qed.

Lemma materialize_loop_alternates (rest : list Z) :
  forall (self : RLEEncodingBase bool BoolRunValues) (rowCount : Z),
    wf self ->
    unread (materializedRunLengths_ self) = rest ->
    value_ (derived self) = negb (currentValue_ self) ->
    rowCount = copiesRemaining_ self + total rest ->
    rowCount < 2 ^ 32 ->
    exists self',
      materialize_loop (S (length rest)) rowCount self []
      = Some (repeat (currentValue_ self) (Z.to_nat (copiesRemaining_ self))
                ++ alternate (negb (currentValue_ self)) rest,
              self').
Proof.
  induction rest as [|x rest IH]; intros self rowCount Hwf Hun Hval Hrow Hlt;
    pose proof Hwf as [Hc Hl]; unfold in_range in Hc;
    pose proof (unread_in_range _ Hl) as Hall; rewrite Hun in Hall;
    pose proof (total_nonneg _ Hall) as Htot.
  - simpl in Hrow. rewrite Z.add_0_r in Hrow. subst rowCount.
    cbn [alternate length]. rewrite app_nil_r.
    destruct (Z.eq_dec (copiesRemaining_ self) 0) as [H0|H0].
    { rewrite H0. simpl. eauto. }
    rewrite materialize_loop_beyond by (auto; lia).
    rewrite Z.sub_diag, materialize_loop_zero. unfold prepend. simpl.
    rewrite app_nil_r. eauto.
  - destruct (Z.eq_dec rowCount 0) as [H0|H0].
    { rewrite H0, materialize_loop_zero.
      assert (Hc0 : copiesRemaining_ self = 0) by lia.
      rewrite Hc0, (alternate_zero (x :: rest) Hall) by lia. simpl. eauto. }
    rewrite materialize_loop_beyond by (auto; lia).
    destruct (unread_cons _ _ _ Hun) as [Hx Hrest].
    destruct (nextRun_bool_value self) as (Hcur & Hnext & _).
    destruct (IH (nextRun self) (rowCount - copiesRemaining_ self)) as (s' & Hs').
    + apply wf_nextRun; exact Hwf.
    + rewrite nextRun_lengths. exact Hrest.
    + rewrite Hcur, Hnext. reflexivity.
    + rewrite nextRun_copies, Hx. simpl in Hrow. lia.
    + lia.
    + rewrite nextRun_copies, Hx, Hcur, Hval in Hs'.
      cbn [length]. 
      rewrite (materialize_loop_fuel_mono _ (S (length rest)) _ _ _ _ Hs') by lia.
      unfold prepend. simpl. eauto.
Qed.

Lemma repeat_succ_Z (v : bool) (l : Z) :
  0 <= l -> repeat v (Z.to_nat (l + 1)) = v :: repeat v (Z.to_nat l).
Proof. intros Hl. rewrite Z2Nat.inj_add by lia. rewrite Nat.add_comm. reflexivity. Qed.

Lemma computeRuns_cons {T : Type} `{EqDecision T} (x : T) (rest : list T) :
  computeRuns (x :: rest)
  = match computeRuns rest with
    | (l :: runLengths, v :: runValues) =>
        if decide (x = v)
        then (l + 1 :: runLengths, v :: runValues)
        else (1 :: l :: runLengths, x :: v :: runValues)
    | _ => ([1], [x])
    end.
Proof. reflexivity. Qed.

(** The runs of a non-empty boolean sequence: as many lengths as values,
    every length positive, the first run value is the first value, and the
    lengths with alternating values spell the sequence. *)
Lemma computeRuns_bool (values : list bool) :
  values <> [] ->
  exists l ls v vs,
    computeRuns values = (l :: ls, v :: vs)
    /\ v = hd false values
    /\ Forall (fun r => 0 < r) (l :: ls)
    /\ total (l :: ls) = Z.of_nat (length values)
    /\ alternate v (l :: ls) = values.
Proof.
  induction values as [|x rest IH]; [contradiction|]. intros _.
  destruct rest as [|y rest'].
  - exists 1, [], x, []. simpl. repeat split; auto. repeat constructor.
  - destruct IH as (l & ls & v & vs & Hruns & Hv & Hpos & Htot & Halt);
      [discriminate|].
    rewrite computeRuns_cons, Hruns. cbn [hd] in Hv. subst v.
    inversion Hpos as [|? ? Hl Hls]; subst.
    destruct (decide (x = y)) as [Hxy|Hxy].
    + subst y. exists (l + 1), ls, x, vs. split; [reflexivity|].
      split; [reflexivity|]. split; [constructor; [lia|exact Hls]|].
      split.
      * cbn [total fold_right length] in *. lia.
      * cbn [alternate] in *. rewrite repeat_succ_Z by lia.
        simpl. f_equal. exact Halt.
    + exists 1, (l :: ls), x, (y :: vs). split; [reflexivity|].
      split; [reflexivity|]. split; [constructor; [lia|exact Hpos]|].
      split.
      * cbn [total fold_right length] in *. lia.
      * change (alternate x (1 :: l :: ls))
          with (repeat x (Z.to_nat 1) ++ alternate (negb x) (l :: ls)).
        replace (negb x) with y by (destruct x, y; simpl; congruence).
        rewrite Halt. reflexivity.
Qed.

Lemma positive_runs_in_range (runs : list Z) :
  Forall (fun r => 0 < r) runs -> total runs < 2 ^ 32 ->
  Forall (in_range 32) runs.
Proof.
  induction 1 as [|r l Hr Hl IH]; intros Ht; [constructor|].
  simpl in Ht.
  assert (0 <= total l).
  { clear - Hl. induction Hl; simpl; lia. }
  constructor; [unfold in_range; lia | apply IH; lia].
Qed.

(** The decoder the boolean constructor builds from the run lengths and the
    byte that follows them. *)
Definition bool_decoder (runLengths : list Z) (pastEnd : nat -> Z)
    (initialValue : bool) : RLEEncodingBase bool BoolRunValues :=
  reset
    {| copiesRemaining_ := 0;
       currentValue_ := false;
       materializedRunLengths_ :=
         {| encoding_ := runLengths; pastEnd_ := pastEnd; encodingPosition_ := 0 |};
       derived := {| initialValue_ := initialValue; value_ := false |} |}.

Lemma length_serializePrefix (e d n : Z) :
  Z.of_nat (length (serializePrefix e d n)) = kPrefixSize.
Proof. reflexivity. Qed.

(** What [encode] returns when the sizes fit in 32 bits, and that it
    returns nothing otherwise. *)
Lemma encode_layout {T : Type} `{EqDecision T}
    (encodeNested : list Z -> list Z) (EncodingType_RLE : Z)
    (getSerializedRunValues : list T -> list Z) (dataType : Z)
    (values : list T) :
  let size := kPrefixSize + 4
              + Z.of_nat (length (encodeNested (computeRuns values).1))
              + Z.of_nat (length (getSerializedRunValues (computeRuns values).2)) in
  encode encodeNested EncodingType_RLE getSerializedRunValues dataType values
  = if size <? 2 ^ 32
    then Some (serializePrefix EncodingType_RLE dataType
                 (wrap32 (Z.of_nat (length values)))
               ++ writeString (encodeNested (computeRuns values).1)
               ++ getSerializedRunValues (computeRuns values).2)
    else None.
Proof.
  unfold encode. destruct (computeRuns values) as [runLengths runValues].
  cbn [fst snd]. cbv zeta.
  set (written := serializePrefix _ _ _ ++ _).
  set (size := kPrefixSize + 4 + _ + _).
  assert (Hlen : Z.of_nat (length written) = size).
  { unfold written, size, writeString.
    rewrite !length_app, length_write_le.
    pose proof (length_serializePrefix EncodingType_RLE dataType
                  (wrap32 (Z.of_nat (length values)))).
    lia. }
  assert (Hsize : 0 <= size) by lia.
  destruct (Z.ltb_spec size (2 ^ 32)) as [Hlt|Hge].
  - rewrite (wrap32_small size) by (unfold in_range; lia).
    rewrite Hlen, Z.eqb_refl. f_equal.
    apply take_ge. lia.
  - destruct (Z.eqb_spec (Z.of_nat (length written)) (wrap32 size)) as [Heq|];
      [|reflexivity].
    exfalso. pose proof (Z.mod_pos_bound size (2 ^ 32) ltac:(lia)).
    unfold wrap32, wrap in Heq. lia.
Qed.

Lemma encode_bool_layout (encodeNested : list Z -> list Z)
    (EncodingType_RLE dataType : Z) (values : list bool) :
  kPrefixSize + 4 + Z.of_nat (length (encodeNested (computeRuns values).1)) + 1
    < 2 ^ 32 ->
  encode encodeNested EncodingType_RLE getSerializedRunValues_bool dataType values
  = Some (serializePrefix EncodingType_RLE dataType
            (wrap32 (Z.of_nat (length values)))
          ++ writeString (encodeNested (computeRuns values).1)
          ++ [if nth 0 (computeRuns values).2 false then 1 else 0]).
Proof.
  intros Hsize. rewrite encode_layout. cbv zeta.
  change (Z.of_nat (length (getSerializedRunValues_bool (computeRuns values).2)))
    with 1.
  destruct (Z.ltb_spec
              (kPrefixSize + 4
               + Z.of_nat (length (encodeNested (computeRuns values).1)) + 1)
              (2 ^ 32)); [reflexivity | lia].
Qed.

Lemma RLEEncoding_bool_new_payload (decode : list Z -> option (list Z))
    (pastEnd : nat -> Z) (prefix runsBytes : list Z) (runs : list Z) (b : bool) :
  Z.of_nat (length prefix) = kPrefixSize ->
  Z.of_nat (length runsBytes) < 2 ^ 32 ->
  decode runsBytes = Some runs ->
  RLEEncoding_bool_new decode pastEnd
    (prefix ++ writeString runsBytes ++ [if b then 1 else 0])
  = Built (bool_decoder runs pastEnd b).
Proof.
  intros Hp Hlen Hdec.
  assert (Hw : wrap32 (Z.of_nat (length runsBytes)) = Z.of_nat (length runsBytes)).
  { apply wrap32_small. unfold in_range. lia. }
  assert (Hread : read 4 (prefix ++ writeString runsBytes ++ [if b then 1 else 0])
                    kPrefixSize
                  = Some (Z.of_nat (length runsBytes), kPrefixSize + 4)).
  { unfold writeString. rewrite Hw, <- app_assoc, <- Hp.
    apply read_write_le. change (256 ^ Z.of_nat 4) with (2 ^ 32). lia. }
  unfold RLEEncoding_bool_new, RLEEncodingBase_new, getValuesStart.
  rewrite Hread.
  assert (Hsub : subspan (prefix ++ writeString runsBytes ++ [if b then 1 else 0])
                   (kPrefixSize + 4) (Z.of_nat (length runsBytes))
                 = Some runsBytes).
  { unfold writeString. rewrite <- app_assoc, app_assoc.
    replace (kPrefixSize + 4)
      with (Z.of_nat (length (prefix ++ write_le 4 (wrap32 (Z.of_nat (length runsBytes))))))
      by (rewrite length_app, length_write_le; lia).
    apply subspan_app. }
  rewrite Hsub, Hdec.
  assert (Hsize : Z.of_nat (length (prefix ++ writeString runsBytes ++ [if b then 1 else 0]))
                  = kPrefixSize + 4 + Z.of_nat (length runsBytes) + 1).
  { unfold writeString. rewrite !length_app, length_write_le. simpl. lia. }
  rewrite Hsize, Z.eqb_refl.
  replace (nth (Z.to_nat (kPrefixSize + 4 + Z.of_nat (length runsBytes)))
             (prefix ++ writeString runsBytes ++ [if b then 1 else 0]) 0)
    with (if b then 1 else 0).
  { unfold bool_decoder. destruct b; reflexivity. }
  rewrite app_assoc, app_nth2.
  - unfold writeString. rewrite !length_app, length_write_le.
    replace (Z.to_nat (kPrefixSize + 4 + Z.of_nat (length runsBytes))
             - (length prefix + (4 + length runsBytes)))%nat with 0%nat by lia.
    reflexivity.
  - unfold writeString. rewrite !length_app, length_write_le. lia.
Qed.

Lemma bool_decoder_alternates (runs : list Z) (pastEnd : nat -> Z)
    (initialValue : bool) (fuel : nat) :
  Forall (in_range 32) runs -> (forall i, in_range 32 (pastEnd i)) ->
  total runs < 2 ^ 32 -> (length runs < fuel)%nat ->
  exists self',
    materialize fuel (total runs) (bool_decoder runs pastEnd initialValue)
    = Some (alternate initialValue runs, self').
Proof.
  intros Hr Hp Htot Hfuel. unfold bool_decoder.
  set (self := {| copiesRemaining_ := 0; currentValue_ := false;
                  materializedRunLengths_ := _; derived := _ |}).
  assert (Hl : lengths_in_range (materializedRunLengths_ self)) by (split; assumption).
  destruct (@reset_state bool BoolRunValues _ self Hl) as (Hwf & Hun & Hc).
  change (encoding_ (materializedRunLengths_ self)) with runs in Hun, Hc.
  assert (Hcur : currentValue_ (reset self) = initialValue).
  { simpl. apply Bool.negb_involutive. }
  assert (Hval : value_ (derived (reset self)) = negb (currentValue_ (reset self))).
  { rewrite Hcur. reflexivity. }
  destruct runs as [|r runs'].
  - simpl. unfold materialize. rewrite materialize_loop_zero. eauto.
  - destruct (materialize_loop_alternates runs' (reset self) (total (r :: runs'))
                Hwf Hun Hval) as (s' & Hs').
    + rewrite Hc by discriminate. reflexivity.
    + exact Htot.
    + exists s'. unfold materialize.
      rewrite (materialize_loop_fuel_mono _ fuel _ _ _ _ Hs') by (simpl in Hfuel; lia).
      rewrite Hcur, Hc by discriminate. reflexivity.
Qed.

(** X4. Round trip of the boolean encoding: when the whole payload (the
    prefix, the 4-byte size of the run lengths, the encoded run lengths and
    the value byte) fits the 32-bit [encodingSize], [encode] returns it, the
    constructor accepts it, and materializing all rows gives the values
    back. *)
Theorem bool_rle_round_trip :
  forall (encodeNested : list Z -> list Z) (decode : list Z -> option (list Z))
         (EncodingType_RLE DataType_Bool : Z) (pastEnd : nat -> Z)
         (values : list bool) (fuel : nat),
    values <> [] ->
    Z.of_nat (length values) < 2 ^ 32 ->
    kPrefixSize + 4 + Z.of_nat (length (encodeNested (computeRuns values).1)) + 1
      < 2 ^ 32 ->
    decode (encodeNested (computeRuns values).1) = Some (computeRuns values).1 ->
    (forall i, in_range 32 (pastEnd i)) ->
    (length (computeRuns values).1 < fuel)%nat ->
    exists bytes self self',
      encode encodeNested EncodingType_RLE getSerializedRunValues_bool
        DataType_Bool values = Some bytes
      /\ RLEEncoding_bool_new decode pastEnd bytes = Built self
      /\ materialize fuel (Z.of_nat (length values)) self = Some (values, self').
Proof.
  intros encodeNested decode ty dt pastEnd values fuel Hne Hlen Hbytes Hdec Hp Hfuel.
  destruct (computeRuns_bool values Hne)
    as (l & ls & v & vs & Hruns & Hv & Hpos & Htot & Halt).
  rewrite (encode_bool_layout _ _ _ _ Hbytes).
  rewrite Hruns in *. cbn [fst snd nth] in *.
  eexists. exists (bool_decoder (l :: ls) pastEnd v).
  destruct (bool_decoder_alternates (l :: ls) pastEnd v fuel) as (s' & Hs').
  - apply positive_runs_in_range; [exact Hpos | lia].
  - exact Hp.
  - lia.
  - exact Hfuel.
  - exists s'. split; [reflexivity|]. split.
    + apply (RLEEncoding_bool_new_payload decode pastEnd _ _ (l :: ls) v);
        [apply length_serializePrefix | unfold kPrefixSize in Hbytes; lia | exact Hdec].
    + rewrite <- Htot, Hs', Halt. reflexivity.
Qed.

Lemma RLEEncoding_bool_new_built (decode : list Z -> option (list Z))
    (pastEnd : nat -> Z) (data : list Z)
    (self : RLEEncodingBase bool BoolRunValues) :
  RLEEncoding_bool_new decode pastEnd data = Built self ->
  self = bool_decoder (encoding_ (materializedRunLengths_ self)) pastEnd
           (initialValue_ (derived self))
  /\ pastEnd_ (materializedRunLengths_ self) = pastEnd.
Proof.
  unfold RLEEncoding_bool_new.
  destruct (RLEEncodingBase_new decode data) as [runs|e]; [|discriminate].
  destruct (getValuesStart data) as [valuesStart|]; [|discriminate].
  destruct (valuesStart + 1 =? Z.of_nat (length data)); [|discriminate].
  intros Hb. inversion Hb; subst self; clear Hb. split; reflexivity.
Qed.

(** What an accepted payload holds: run lengths that the nested codec reads,
    and the value byte as its last byte, from which the decoder starts. *)
Lemma RLEEncoding_bool_new_inv (decode : list Z -> option (list Z))
    (pastEnd : nat -> Z) (data : list Z)
    (self : RLEEncodingBase bool BoolRunValues) :
  RLEEncoding_bool_new decode pastEnd data = Built self ->
  exists runLengths valuesStart,
    RLEEncodingBase_new decode data = Built runLengths
    /\ getValuesStart data = Some valuesStart
    /\ valuesStart + 1 = Z.of_nat (length data)
    /\ self = bool_decoder runLengths pastEnd
               (negb (nth (Z.to_nat valuesStart) data 0 =? 0)).
Proof.
  unfold RLEEncoding_bool_new.
  destruct (RLEEncodingBase_new decode data) as [runs|e]; [|discriminate].
  destruct (getValuesStart data) as [valuesStart|]; [|discriminate].
  destruct (Z.eqb_spec (valuesStart + 1) (Z.of_nat (length data))) as [Heq|];
    [|discriminate].
  intros Hb. inversion Hb; subst self; clear Hb.
  exists runs, valuesStart. repeat split. exact Heq.
Qed.

(** The sequence of the round-trip scenario: T,T,T,F,F,T. *)
Definition scenario_values : list bool :=
  [true; true; true; false; false; true].

(** C1. For booleans the encoder writes, after the run lengths, a single
    byte holding the first value, whenever the payload fits the 32-bit
    [encodingSize]; and the decoder of any payload the constructor accepts
    starts from the value of the payload's last byte and flips the value
    from one run to the next.  For T,T,T,F,F,T the run lengths are 3,2,1 and
    the byte is T; the decoder built from the encoded bytes materializes the
    sequence again, and [skip(4)] followed by [materialize(2)] gives F,T.
    The nested codec of the run lengths is any one that reads back the run
    lengths 3,2,1 it wrote, in a payload that fits [encodingSize]. *)
Theorem bool_rle_first_value_then_alternation :
  forall (encodeNested : list Z -> list Z) (decode : list Z -> option (list Z))
         (EncodingType_RLE DataType_Bool : Z) (pastEnd : nat -> Z),
    decode (encodeNested [3; 2; 1]) = Some [3; 2; 1] ->
    kPrefixSize + 4 + Z.of_nat (length (encodeNested [3; 2; 1])) + 1 < 2 ^ 32 ->
    (forall values : list bool,
        values <> [] ->
        kPrefixSize + 4
          + Z.of_nat (length (encodeNested (computeRuns values).1)) + 1
          < 2 ^ 32 ->
        encode encodeNested EncodingType_RLE getSerializedRunValues_bool
          DataType_Bool values
        = Some (serializePrefix EncodingType_RLE DataType_Bool
                  (wrap32 (Z.of_nat (length values)))
                ++ writeString (encodeNested (computeRuns values).1)
                ++ [if hd false values then 1 else 0]))
    /\ (forall (data : list Z) (self : RLEEncodingBase bool BoolRunValues)
               (fuel : nat),
          RLEEncoding_bool_new decode pastEnd data = Built self ->
          exists (runLengths : list Z) (valuesStart : Z),
            RLEEncodingBase_new decode data = Built runLengths
            /\ getValuesStart data = Some valuesStart
            /\ valuesStart + 1 = Z.of_nat (length data)
            /\ encoding_ (materializedRunLengths_ self) = runLengths
            /\ initialValue_ (derived self)
               = negb (nth (Z.to_nat valuesStart) data 0 =? 0)
            /\ (lengths_in_range (materializedRunLengths_ self) ->
                total runLengths < 2 ^ 32 ->
                (length runLengths < fuel)%nat ->
                exists self',
                  materialize fuel (total runLengths) self
                  = Some (alternate
                            (negb (nth (Z.to_nat valuesStart) data 0 =? 0))
                            runLengths,
                          self')))
    /\ computeRuns scenario_values = ([3; 2; 1], [true; false; true])
    /\ exists (bytes : list Z) (self : RLEEncodingBase bool BoolRunValues),
         encode encodeNested EncodingType_RLE getSerializedRunValues_bool
           DataType_Bool scenario_values = Some bytes
         /\ bytes = serializePrefix EncodingType_RLE DataType_Bool 6
                    ++ writeString (encodeNested [3; 2; 1]) ++ [1]
         /\ RLEEncoding_bool_new decode pastEnd bytes = Built self
         /\ (exists self', materialize 4 6 self = Some (scenario_values, self'))
         /\ (exists skipped self',
               skip 4 4 self = Some skipped
               /\ materialize 4 2 skipped = Some ([false; true], self')).
Proof.
  intros encodeNested decode ty dt pastEnd Hdec Hlen.
  split; [|split; [|split]].
  - intros values Hne Hsize. rewrite (encode_bool_layout _ _ _ _ Hsize).
    destruct (computeRuns_bool values Hne) as (l & ls & v & vs & Hruns & Hv & _).
    rewrite Hruns. simpl. rewrite Hv. reflexivity.
  - intros data self fuel Hb.
    destruct (RLEEncoding_bool_new_inv _ _ _ _ Hb)
      as (runLengths & valuesStart & Hbase & Hstart & Hend & ->).
    exists runLengths, valuesStart.
    split; [exact Hbase|]. split; [exact Hstart|]. split; [exact Hend|].
    split; [reflexivity|]. split; [reflexivity|].
    intros [Henc Hpast] Htot Hfuel.
    apply bool_decoder_alternates; assumption.
  - reflexivity.
  - eexists. exists (bool_decoder [3; 2; 1] pastEnd true).
    split; [apply (encode_bool_layout encodeNested ty dt scenario_values Hlen)|].
    split; [reflexivity|]. split; [|split].
    + apply (RLEEncoding_bool_new_payload decode pastEnd _ _ [3; 2; 1] true);
        [apply length_serializePrefix | | exact Hdec].
      change (Z.of_nat (length (encodeNested [3; 2; 1])) < 2 ^ 32).
      unfold kPrefixSize in Hlen. lia.
    + eexists. reflexivity.
    + eexists _, _. split; reflexivity.
Qed.

Lemma bool_rle_first_value_then_alternation_witness :
  (fixed32_decode (fixed32_encode [3; 2; 1]) = Some [3; 2; 1]
   /\ kPrefixSize + 4 + Z.of_nat (length (fixed32_encode [3; 2; 1])) + 1 < 2 ^ 32)
  /\ computeRuns scenario_values = ([3; 2; 1], [true; false; true])
  /\ exists (bytes : list Z) (self : RLEEncodingBase bool BoolRunValues),
       encode fixed32_encode 1 getSerializedRunValues_bool 11 scenario_values
       = Some bytes
       /\ bytes = serializePrefix 1 11 6
                  ++ writeString (fixed32_encode [3; 2; 1]) ++ [1]
       /\ RLEEncoding_bool_new fixed32_decode (fun _ => 0) bytes = Built self
       /\ (exists self', materialize 4 6 self = Some (scenario_values, self'))
       /\ (exists skipped self',
             skip 4 4 self = Some skipped
             /\ materialize 4 2 skipped = Some ([false; true], self')).
Proof.
  split; [split; reflexivity|].
  apply (bool_rle_first_value_then_alternation
           fixed32_encode fixed32_decode 1 11 (fun _ => 0)); reflexivity.
Defined.

(** C10. The boolean constructor rejects every payload in which the byte
    after the run-lengths section is not the last one: no decoder is built,
    so nothing can be skipped or materialized.  When the run lengths
    themselves are readable, the failure is that of the end check. *)
Theorem bool_rle_rejects_misplaced_end :
  forall (decode : list Z -> option (list Z)) (pastEnd : nat -> Z)
         (data : list Z),
    getValuesStart data <> Some (Z.of_nat (length data) - 1) ->
    (exists e, RLEEncoding_bool_new decode pastEnd data = Rejected e)
    /\ (forall runLengths,
          RLEEncodingBase_new decode data = Built runLengths ->
          RLEEncoding_bool_new decode pastEnd data
          = Rejected UnexpectedRunLengthEncodingEnd).
Proof.
  intros decode pastEnd data Hend.
  assert (Hcases :
    (exists e, RLEEncodingBase_new decode data = Rejected e)
    \/ (exists runs valuesStart,
          RLEEncodingBase_new decode data = Built runs
          /\ getValuesStart data = Some valuesStart)).
  { unfold RLEEncodingBase_new, getValuesStart.
    destruct (read 4 data kPrefixSize) as [[runsSize runsStart]|]; [|eauto].
    destruct (subspan data runsStart runsSize); [|eauto].
    destruct (decode l); eauto. }
  unfold RLEEncoding_bool_new.
  destruct Hcases as [[e He]|(runs & valuesStart & Hb & Hv)].
  - rewrite He. split; [eauto|]. intros ? ?; discriminate.
  - rewrite Hb, Hv.
    destruct (Z.eqb_spec (valuesStart + 1) (Z.of_nat (length data))) as [Heq|Hneq].
    + exfalso. apply Hend. rewrite Hv. f_equal. lia.
    + split; [eauto | reflexivity].
Qed.

(** The scenario's payload followed by one more byte. *)
Definition scenario_with_trailing_byte : list Z :=
  default [] (encode fixed32_encode 1 getSerializedRunValues_bool 11
                scenario_values) ++ [0].

Lemma bool_rle_rejects_misplaced_end_witness :
  getValuesStart scenario_with_trailing_byte
    <> Some (Z.of_nat (length scenario_with_trailing_byte) - 1)
  /\ RLEEncoding_bool_new fixed32_decode (fun _ => 0) scenario_with_trailing_byte
     = Rejected UnexpectedRunLengthEncodingEnd.
Proof.
  assert (H : getValuesStart scenario_with_trailing_byte
              <> Some (Z.of_nat (length scenario_with_trailing_byte) - 1)).
  { vm_compute. discriminate. }
  split; [exact H|].
  apply (proj2 (bool_rle_rejects_misplaced_end fixed32_decode (fun _ => 0)
                  scenario_with_trailing_byte H) [3; 2; 1]).
  reflexivity.
Defined.


(** *** Row counts, rewinding and composition of the run loops *)

Section LoopFacts.
Context {V D : Type} `{RunValues V D}.

(** [materialize] writes as many values as it was asked for, and leaves a
    decoder whose counters are in range. *)
Lemma materialize_loop_length (fuel : nat) :
  forall (rowsLeft : Z) (self : RLEEncodingBase V D) (out o : list V)
         (self' : RLEEncodingBase V D),
    wf self -> 0 <= rowsLeft < 2 ^ 32 ->
    materialize_loop fuel rowsLeft self out = Some (o, self') ->
    length o = (length out + Z.to_nat rowsLeft)%nat /\ wf self'.
Proof.
  induction fuel as [|fuel IH]; intros rowsLeft self out o self' Hwf Hr Hm.
  - simpl in Hm. destruct (Z.eqb_spec rowsLeft 0) as [H0|H0]; [|discriminate].
    inversion Hm; subst. split; [simpl; lia | exact Hwf].
  - rewrite materialize_loop_S in Hm.
    destruct (Z.eqb_spec rowsLeft 0) as [H0|H0].
    { inversion Hm; subst. split; [simpl; lia | exact Hwf]. }
    pose proof Hwf as [Hc _]. unfold in_range in Hc.
    destruct (Z.ltb_spec rowsLeft (copiesRemaining_ self)) as [Hlt|Hge].
    + inversion Hm; subst o self'. split.
      * rewrite length_app, repeat_length. reflexivity.
      * apply wf_setCopiesRemaining; [exact Hwf|].
        apply wrap_in_range. lia.
    + rewrite wrap32_small in Hm by (unfold in_range; lia).
      apply IH in Hm; [|apply wf_nextRun; exact Hwf|lia].
      destruct Hm as [Hlen Hwf']. split; [|exact Hwf'].
      rewrite Hlen, length_app, repeat_length. lia.
Qed.

(** A deriving class rewinds when [resetValues] undoes [nextValue]. *)
Definition rewinds : Prop :=
  forall d : D, resetValues (nextValue d).2 = resetValues d.

Lemma nextRun_ext (a b : RLEEncodingBase V D) :
  materializedRunLengths_ a = materializedRunLengths_ b ->
  derived a = derived b ->
  nextRun a = nextRun b.
Proof. intros Hl Hd. unfold nextRun. now rewrite Hl, Hd. Qed.

Lemma reset_ext (a b : RLEEncodingBase V D) :
  buffered_reset (materializedRunLengths_ a)
  = buffered_reset (materializedRunLengths_ b) ->
  resetValues (derived a) = resetValues (derived b) ->
  reset a = reset b.
Proof. intros Hl Hd. unfold reset. apply nextRun_ext; simpl; assumption. Qed.

Lemma reset_nextRun (self : RLEEncodingBase V D) :
  rewinds -> reset (nextRun self) = reset self.
Proof.
  intros Hlaw. apply reset_ext.
  - rewrite nextRun_lengths. reflexivity.
  - unfold nextRun. destruct (buffered_nextValue (materializedRunLengths_ self)).
    specialize (Hlaw (derived self)).
    destruct (nextValue (derived self)) as [v d]. exact Hlaw.
Qed.

Lemma materialize_loop_reset (fuel : nat) :
  rewinds ->
  forall (rowsLeft : Z) (self : RLEEncodingBase V D) (out o : list V)
         (self' : RLEEncodingBase V D),
    materialize_loop fuel rowsLeft self out = Some (o, self') ->
    reset self' = reset self.
Proof.
  intros Hlaw.
  induction fuel as [|fuel IH]; intros rowsLeft self out o self' Hm.
  - simpl in Hm. destruct (rowsLeft =? 0); [|discriminate].
    now inversion Hm.
  - rewrite materialize_loop_S in Hm.
    destruct (rowsLeft =? 0); [now inversion Hm|].
    destruct (rowsLeft <? copiesRemaining_ self).
    + inversion Hm; subst. apply reset_ext; reflexivity.
    + apply IH in Hm. rewrite Hm. apply reset_nextRun. exact Hlaw.
Qed.

End LoopFacts.

Lemma scalar_run_values_rewinds (T : Type) :
  @rewinds T (ScalarRunValues T) (scalar_run_values T).
Proof. intros [b]. reflexivity. Qed.

Lemma bool_run_values_rewinds : @rewinds bool BoolRunValues bool_run_values.
Proof. intros [i v]. reflexivity. Qed.

(** X5. From any state with counters in range, [materialize(rowCount)] that
    returns has written exactly [rowCount] values; and it does return when the
    current run and the runs not yet read hold that many rows. *)
Theorem materialize_fills_row_count :
  forall (V D : Type) (RV : RunValues V D) (self : RLEEncodingBase V D)
         (rowCount : Z) (fuel : nat),
    wf self -> 0 <= rowCount < 2 ^ 32 ->
    (forall o self',
        materialize fuel rowCount self = Some (o, self') ->
        Z.of_nat (length o) = rowCount /\ wf self')
    /\ (rowCount <= copiesRemaining_ self
                    + total (unread (materializedRunLengths_ self)) ->
        (length (unread (materializedRunLengths_ self)) < fuel)%nat ->
        exists o self', materialize fuel rowCount self = Some (o, self')).
Proof.
  intros V D RV self rowCount fuel Hwf Hr. split.
  - intros o self' Hm. unfold materialize in Hm.
    apply materialize_loop_length in Hm; [|exact Hwf|exact Hr].
    destruct Hm as [Hlen Hwf']. split; [|exact Hwf'].
    rewrite Hlen. simpl. lia.
  - intros Hrows Hfuel.
    destruct (materialize_loop_returns
                (unread (materializedRunLengths_ self)) rowCount self Hwf eq_refl)
      as (o & s' & Ho); [lia|lia|].
    exists o, s'. unfold materialize.
    eapply materialize_loop_fuel_mono; [exact Ho | lia].
Qed.

Lemma materialize_fills_row_count_witness :
  exists o self',
    materialize 4 5 (reset bool_runs_321) = Some (o, self')
    /\ Z.of_nat (length o) = 5.
Proof.
  assert (Hwf : wf (reset bool_runs_321)).
  { split; [unfold in_range; simpl; lia|].
    split; [repeat constructor; unfold in_range; simpl; lia
           | intros i; unfold in_range; simpl; lia]. }
  destruct (materialize_fills_row_count bool BoolRunValues bool_run_values
              (reset bool_runs_321) 5 4 Hwf ltac:(lia)) as [Hlen Hret].
  destruct Hret as (o & self' & Ho); [simpl; lia | simpl; lia |].
  exists o, self'. split; [exact Ho|]. exact (proj1 (Hlen o self' Ho)).
Defined.

(** X6. Whatever was skipped or materialized before, [reset] puts the decoder
    back where [reset] puts the decoder it started from: at row 0. This holds
    for every deriving class whose [resetValues] undoes [nextValue], as those
    of the numeric and of the boolean decoder do. *)
Theorem reset_rewinds :
  forall (V D : Type) (RV : RunValues V D) (self : RLEEncodingBase V D)
         (rowCount : Z) (fuel : nat),
    rewinds ->
    (forall o self',
        materialize fuel rowCount self = Some (o, self') ->
        reset self' = reset self)
    /\ (forall self',
          skip fuel rowCount self = Some self' -> reset self' = reset self).
Proof.
  intros V D RV self rowCount fuel Hlaw. split.
  - intros o self' Hm. exact (materialize_loop_reset fuel Hlaw _ _ _ _ _ Hm).
  - intros self' Hs. unfold skip in Hs.
    rewrite (skip_loop_materialize_loop fuel rowCount self []) in Hs.
    destruct (materialize_loop fuel rowCount self []) as [[o s]|] eqn:Hm;
      [|discriminate].
    inversion Hs; subst s.
    exact (materialize_loop_reset fuel Hlaw _ _ _ _ _ Hm).
Qed.

Lemma reset_rewinds_witness :
  exists skipped,
    skip 4 4 (reset bool_runs_321) = Some skipped
    /\ skipped <> reset bool_runs_321
    /\ reset skipped = reset (reset bool_runs_321).
Proof.
  assert (Hs : skip 4 4 (reset bool_runs_321)
               = Some {| copiesRemaining_ := 1;
                         currentValue_ := false;
                         materializedRunLengths_ :=
                           {| encoding_ := [3; 2; 1];
                              pastEnd_ := fun _ => 0;
                              encodingPosition_ := 2 |};
                         derived := {| initialValue_ := true; value_ := true |} |})
    by reflexivity.
  eexists. split; [exact Hs|]. split; [discriminate|].
  exact (proj2 (reset_rewinds bool BoolRunValues bool_run_values
                  (reset bool_runs_321) 4 4 bool_run_values_rewinds) _ Hs).
Defined.

(** X7. Skipping [a] rows and then [b] rows is skipping [a + b] rows, from any
    state with counters in range that has that many rows left. *)
Theorem skip_skip :
  forall (V D : Type) (RV : RunValues V D) (self : RLEEncodingBase V D)
         (a b : Z) (fuel : nat),
    wf self -> 0 <= a -> 0 <= b -> a + b < 2 ^ 32 ->
    a + b <= copiesRemaining_ self
             + total (unread (materializedRunLengths_ self)) ->
    (length (unread (materializedRunLengths_ self)) < fuel)%nat ->
    exists s1 s2,
      skip fuel a self = Some s1
      /\ skip fuel b s1 = Some s2
      /\ skip fuel (a + b) self = Some s2.
Proof.
  intros V D RV self a b fuel Hwf Ha Hb Hab Hrows Hfuel.
  destruct (materialize_loop_returns
              (unread (materializedRunLengths_ self)) (a + b) self Hwf eq_refl)
    as (o & s' & Ho); [lia|lia|].
  apply (materialize_loop_fuel_mono _ fuel) in Ho; [|lia].
  destruct (materialize_loop_split fuel a b self o s' Hwf Ha Hb Hab Ho)
    as (o1 & s1 & o2 & H1 & H2 & _ & _).
  exists s1, s'. unfold skip.
  rewrite (skip_loop_materialize_loop fuel a self []), H1.
  rewrite (skip_loop_materialize_loop fuel b s1 []), H2.
  rewrite (skip_loop_materialize_loop fuel (a + b) self []), Ho.
  auto.
Qed.

Lemma skip_skip_witness :
  exists s1 s2,
    skip 4 2 (reset bool_runs_321) = Some s1
    /\ skip 4 3 s1 = Some s2
    /\ skip 4 (2 + 3) (reset bool_runs_321) = Some s2.
Proof.
  apply (skip_skip bool BoolRunValues bool_run_values (reset bool_runs_321) 2 3 4).
  - split; [unfold in_range; simpl; lia|].
    split; [repeat constructor; unfold in_range; simpl; lia
           | intros i; unfold in_range; simpl; lia].
  - lia.
  - lia.
  - lia.
  - simpl. lia.
  - simpl. lia.
Defined.

Lemma bool_rle_round_trip_witness :
  exists bytes self self',
    encode fixed32_encode 1 getSerializedRunValues_bool 11 scenario_values
    = Some bytes
    /\ RLEEncoding_bool_new fixed32_decode (fun _ => 0) bytes = Built self
    /\ materialize 4 (Z.of_nat (length scenario_values)) self
       = Some (scenario_values, self').
Proof.
  apply (bool_rle_round_trip fixed32_encode fixed32_decode 1 11 (fun _ => 0)
           scenario_values 4).
  - discriminate.
  - simpl. lia.
  - vm_compute. reflexivity.
  - reflexivity.
  - intros i. unfold in_range. lia.
  - simpl. lia.
Defined.

(** *** The numeric case *)

(** How the numeric constructor ends: as the base constructor does, or with
    a nested decoder of the run values that throws. *)
Inductive NumericConstructed (A : Type) : Type :=
| NumericBuilt (a : A)
| NumericRejected (e : ConstructionError)
| RunValuesNotDecodable.
Arguments NumericBuilt {A} a.
Arguments NumericRejected {A} e.
Arguments RunValuesNotDecodable {A}.

Section Numeric.
Context {T : Type} `{EqDecision T}.
(** The nested codecs of the run lengths (as in the boolean case) and of
    the run values, both chosen outside the sources. *)
Variable decode : list Z -> option (list Z).
Variable encodeNestedValues : list T -> list Z.
Variable decodeValues : list Z -> option (list T).

(** [RLEEncoding<T>::getSerializedRunValues]: the nested encoding of the
    run values. *)
Definition getSerializedRunValues (runValues : list T) : list Z :=
  encodeNestedValues runValues.

(** The constructor of [RLEEncoding<T>]: [values_] is the nested encoding
    found from [getValuesStart()] to the end of the payload.  [pastEnd] and
    [pastEndValues] are what the two readers find after their last row, and
    [unset] is the content of [currentValue_] before [reset] assigns it. *)
Definition RLEEncoding_new (pastEnd : nat -> Z) (pastEndValues : nat -> T)
    (unset : T) (data : list Z)
  : NumericConstructed (RLEEncodingBase T (ScalarRunValues T)) :=
  match RLEEncodingBase_new decode data with
  | Rejected e => NumericRejected e
  | Built runLengths =>
      match getValuesStart data with
      | None => NumericRejected ReadOutsideData
      | Some valuesStart =>
          match subspan data valuesStart
                  (Z.of_nat (length data) - valuesStart) with
          | None => NumericRejected ReadOutsideData
          | Some valuesBytes =>
              match decodeValues valuesBytes with
              | None => RunValuesNotDecodable
              | Some runValues =>
                  NumericBuilt (reset
                    {| copiesRemaining_ := 0;
                       currentValue_ := unset;
                       materializedRunLengths_ :=
                         {| encoding_ := runLengths;
                            pastEnd_ := pastEnd;
                            encodingPosition_ := 0 |};
                       derived :=
                         {| values_ :=
                              {| encoding_ := runValues;
                                 pastEnd_ := pastEndValues;
                                 encodingPosition_ := 0 |} |} |})
              end
          end
      end
  end.

End Numeric.

(** The runs spelled out: every run value repeated over its run length. *)
Fixpoint expand {T : Type} (runLengths : list Z) (runValues : list T) : list T :=
  match runLengths, runValues with
  | l :: ls, v :: vs => repeat v (Z.to_nat l) ++ expand ls vs
  | _, _ => []
  end.

(** The decoder the numeric constructor builds from the run lengths and the
    run values. *)
Definition numeric_decoder {T : Type} (runLengths : list Z) (pastEnd : nat -> Z)
    (runValues : list T) (pastEndValues : nat -> T) (unset : T)
  : RLEEncodingBase T (ScalarRunValues T) :=
  reset
    {| copiesRemaining_ := 0;
       currentValue_ := unset;
       materializedRunLengths_ :=
         {| encoding_ := runLengths; pastEnd_ := pastEnd; encodingPosition_ := 0 |};
       derived :=
         {| values_ :=
              {| encoding_ := runValues;
                 pastEnd_ := pastEndValues;
                 encodingPosition_ := 0 |} |} |}.

Lemma unread_next {T : Type} (b : BufferedEncoding T) (x : T) (rest : list T) :
  unread b = x :: rest ->
  (buffered_nextValue b).1 = x /\ unread (buffered_nextValue b).2 = rest.
Proof.
  unfold unread, buffered_nextValue. simpl.
  generalize (pastEnd_ b (encodingPosition_ b)).
  generalize (encodingPosition_ b). generalize (encoding_ b).
  induction l as [|y l IH]; intros n d Hs.
  - destruct n; discriminate.
  - destruct n as [|n]; simpl in *.
    + inversion Hs; subst. auto.
    + apply IH. exact Hs.
Qed.

Lemma nextRun_scalar_value {T : Type}
    (self : RLEEncodingBase T (ScalarRunValues T)) :
  currentValue_ (nextRun self) = (buffered_nextValue (values_ (derived self))).1
  /\ values_ (derived (nextRun self))
     = (buffered_nextValue (values_ (derived self))).2.
Proof. unfold nextRun. simpl. auto. Qed.

Lemma expand_zero {T : Type} (runs : list Z) :
  Forall (in_range 32) runs -> total runs = 0 ->
  forall vs : list T, expand runs vs = [].
Proof.
  induction 1 as [|y l Hy Hl IH]; intros Ht vs; simpl in *; [reflexivity|].
  pose proof (total_nonneg l Hl). unfold in_range in Hy.
  assert (y = 0) by lia. subst y. destruct vs as [|v vs]; [reflexivity|].
  simpl. apply IH. lia.
Qed.

Lemma materialize_loop_expands {T : Type} (rest : list Z) :
  forall (vrest : list T) (self : RLEEncodingBase T (ScalarRunValues T))
         (rowCount : Z),
    wf self ->
    unread (materializedRunLengths_ self) = rest ->
    unread (values_ (derived self)) = vrest ->
    length rest = length vrest ->
    rowCount = copiesRemaining_ self + total rest ->
    rowCount < 2 ^ 32 ->
    exists self',
      materialize_loop (S (length rest)) rowCount self []
      = Some (repeat (currentValue_ self) (Z.to_nat (copiesRemaining_ self))
                ++ expand rest vrest,
              self').
Proof.
  induction rest as [|x rest IH]; intros vrest self rowCount Hwf Hun Hvun Hlen Hrow Hlt;
    pose proof Hwf as [Hc Hl]; unfold in_range in Hc;
    pose proof (unread_in_range _ Hl) as Hall; rewrite Hun in Hall;
    pose proof (total_nonneg _ Hall) as Htot.
  - simpl in Hrow. rewrite Z.add_0_r in Hrow. subst rowCount.
    cbn [expand length]. rewrite app_nil_r.
    destruct (Z.eq_dec (copiesRemaining_ self) 0) as [H0|H0].
    { rewrite H0. simpl. eauto. }
    rewrite materialize_loop_beyond by (auto; lia).
    rewrite Z.sub_diag, materialize_loop_zero. unfold prepend. simpl.
    rewrite app_nil_r. eauto.
  - destruct vrest as [|v vrest]; [discriminate|].
    destruct (Z.eq_dec rowCount 0) as [H0|H0].
    { rewrite H0, materialize_loop_zero.
      assert (Hc0 : copiesRemaining_ self = 0) by lia.
      rewrite Hc0, (expand_zero (x :: rest) Hall) by lia. simpl. eauto. }
    rewrite materialize_loop_beyond by (auto; lia).
    destruct (unread_cons _ _ _ Hun) as [Hx Hrest].
    destruct (unread_next _ _ _ Hvun) as [Hv Hvrest].
    destruct (nextRun_scalar_value self) as (Hcur & Hnext).
    destruct (IH vrest (nextRun self) (rowCount - copiesRemaining_ self))
      as (s' & Hs').
    + apply wf_nextRun; exact Hwf.
    + rewrite nextRun_lengths. exact Hrest.
    + rewrite Hnext. exact Hvrest.
    + simpl in Hlen. lia.
    + rewrite nextRun_copies, Hx. simpl in Hrow. lia.
    + lia.
    + rewrite nextRun_copies, Hx, Hcur, Hv in Hs'.
      cbn [length].
      rewrite (materialize_loop_fuel_mono _ (S (length rest)) _ _ _ _ Hs') by lia.
      unfold prepend. simpl. eauto.
Qed.

Lemma numeric_decoder_expands {T : Type} (runs : list Z) (pastEnd : nat -> Z)
    (vals : list T) (pastEndValues : nat -> T) (unset : T) (fuel : nat) :
  Forall (in_range 32) runs -> (forall i, in_range 32 (pastEnd i)) ->
  length runs = length vals ->
  total runs < 2 ^ 32 -> (length runs < fuel)%nat ->
  exists self',
    materialize fuel (total runs)
      (numeric_decoder runs pastEnd vals pastEndValues unset)
    = Some (expand runs vals, self').
Proof.
  intros Hr Hp Hlen Htot Hfuel. unfold numeric_decoder.
  set (self := {| copiesRemaining_ := 0; currentValue_ := unset;
                  materializedRunLengths_ := _; derived := _ |}).
  assert (Hl : lengths_in_range (materializedRunLengths_ self)) by (split; assumption).
  destruct (@reset_state T (ScalarRunValues T) _ self Hl) as (Hwf & Hun & Hc).
  change (encoding_ (materializedRunLengths_ self)) with runs in Hun, Hc.
  destruct runs as [|r runs'].
  - simpl. unfold materialize. rewrite materialize_loop_zero.
    destruct vals; [|discriminate]. simpl. eauto.
  - destruct vals as [|v vals']; [discriminate|].
    assert (Hcur : currentValue_ (reset self) = v) by reflexivity.
    assert (Hvun : unread (values_ (derived (reset self))) = vals') by reflexivity.
    destruct (materialize_loop_expands runs' vals' (reset self) (total (r :: runs'))
                Hwf Hun Hvun) as (s' & Hs').
    + simpl in Hlen. lia.
    + rewrite Hc by discriminate. reflexivity.
    + exact Htot.
    + exists s'. unfold materialize.
      rewrite (materialize_loop_fuel_mono _ fuel _ _ _ _ Hs') by (simpl in Hfuel; lia).
      rewrite Hcur, Hc by discriminate. reflexivity.
Qed.

Lemma RLEEncoding_new_payload {T : Type} (decode : list Z -> option (list Z))
    (decodeValues : list Z -> option (list T))
    (pastEnd : nat -> Z) (pastEndValues : nat -> T) (unset : T)
    (prefix runsBytes valuesBytes : list Z) (runs : list Z) (vals : list T) :
  Z.of_nat (length prefix) = kPrefixSize ->
  Z.of_nat (length runsBytes) < 2 ^ 32 ->
  decode runsBytes = Some runs ->
  decodeValues valuesBytes = Some vals ->
  RLEEncoding_new decode decodeValues pastEnd pastEndValues unset
    (prefix ++ writeString runsBytes ++ valuesBytes)
  = NumericBuilt (numeric_decoder runs pastEnd vals pastEndValues unset).
Proof.
  intros Hp Hlen Hdec Hvals.
  assert (Hw : wrap32 (Z.of_nat (length runsBytes)) = Z.of_nat (length runsBytes)).
  { apply wrap32_small. unfold in_range. lia. }
  assert (Hread : read 4 (prefix ++ writeString runsBytes ++ valuesBytes)
                    kPrefixSize
                  = Some (Z.of_nat (length runsBytes), kPrefixSize + 4)).
  { unfold writeString. rewrite Hw, <- app_assoc, <- Hp.
    apply read_write_le. change (256 ^ Z.of_nat 4) with (2 ^ 32). lia. }
  unfold RLEEncoding_new, RLEEncodingBase_new, getValuesStart.
  rewrite Hread.
  assert (Hsub : subspan (prefix ++ writeString runsBytes ++ valuesBytes)
                   (kPrefixSize + 4) (Z.of_nat (length runsBytes))
                 = Some runsBytes).
  { unfold writeString. rewrite <- app_assoc, app_assoc.
    replace (kPrefixSize + 4)
      with (Z.of_nat (length (prefix ++ write_le 4 (wrap32 (Z.of_nat (length runsBytes))))))
      by (rewrite length_app, length_write_le; lia).
    apply subspan_app. }
  rewrite Hsub, Hdec.
  assert (Hvsub : subspan (prefix ++ writeString runsBytes ++ valuesBytes)
                    (kPrefixSize + 4 + Z.of_nat (length runsBytes))
                    (Z.of_nat (length (prefix ++ writeString runsBytes ++ valuesBytes))
                     - (kPrefixSize + 4 + Z.of_nat (length runsBytes)))
                  = Some valuesBytes).
  { rewrite app_assoc.
    pose proof (subspan_app (prefix ++ writeString runsBytes) valuesBytes []) as Hs.
    rewrite app_nil_r in Hs. rewrite <- Hs. f_equal.
    - unfold writeString. rewrite !length_app, length_write_le. lia.
    - unfold writeString. rewrite !length_app, length_write_le. lia. }
  rewrite Hvsub, Hvals. reflexivity.
Qed.

(** The runs of any sequence: as many lengths as values, every length
    positive, the lengths add up to the number of values, and the runs
    spelled out are the sequence. *)
Lemma computeRuns_expand {T : Type} `{EqDecision T} (values : list T) :
  length (computeRuns values).1 = length (computeRuns values).2
  /\ Forall (fun r => 0 < r) (computeRuns values).1
  /\ total (computeRuns values).1 = Z.of_nat (length values)
  /\ expand (computeRuns values).1 (computeRuns values).2 = values.
Proof.
  induction values as [|x rest IH].
  - simpl. split; [reflexivity|]. split; [constructor|]. split; reflexivity.
  - rewrite computeRuns_cons.
    destruct (computeRuns rest) as [[|l ls] [|v vs]];
      cbn [fst snd] in IH; destruct IH as (Hlen & Hpos & Htot & Hexp).
    + destruct rest; [|simpl in Htot; lia].
      cbn [fst snd]. split; [reflexivity|].
      split; [constructor; [lia|constructor]|]. split; reflexivity.
    + discriminate.
    + discriminate.
    + pose proof (proj1 (Forall_cons _ _ _) Hpos) as [Hl Hls].
      destruct (decide (x = v)) as [Hxv|Hxv]; cbn [fst snd].
      * subst v. split; [simpl in *; lia|].
        split; [constructor; [lia|exact Hls]|].
        split; [cbn [total fold_right length] in *; lia|].
        cbn [expand] in *. rewrite Z2Nat.inj_add by lia.
        rewrite Nat.add_comm. simpl. f_equal. exact Hexp.
      * split; [simpl in *; lia|].
        split; [constructor; [lia|exact Hpos]|].
        split; [cbn [total fold_right length] in *; lia|].
        change (expand (1 :: l :: ls) (x :: v :: vs))
          with (repeat x (Z.to_nat 1) ++ expand (l :: ls) (v :: vs)).
        rewrite Hexp. reflexivity.
Qed.

Lemma encode_numeric_layout {T : Type} `{EqDecision T}
    (encodeNested : list Z -> list Z) (encodeNestedValues : list T -> list Z)
    (EncodingType_RLE dataType : Z) (values : list T) :
  kPrefixSize + 4 + Z.of_nat (length (encodeNested (computeRuns values).1))
    + Z.of_nat (length (encodeNestedValues (computeRuns values).2)) < 2 ^ 32 ->
  encode encodeNested EncodingType_RLE
    (getSerializedRunValues encodeNestedValues) dataType values
  = Some (serializePrefix EncodingType_RLE dataType
            (wrap32 (Z.of_nat (length values)))
          ++ writeString (encodeNested (computeRuns values).1)
          ++ encodeNestedValues (computeRuns values).2).
Proof.
  intros Hsize. rewrite encode_layout. cbv zeta.
  unfold getSerializedRunValues.
  destruct (Z.ltb_spec
              (kPrefixSize + 4
               + Z.of_nat (length (encodeNested (computeRuns values).1))
               + Z.of_nat (length (encodeNestedValues (computeRuns values).2)))
              (2 ^ 32)); [reflexivity | lia].
Qed.

(** A numeric payload to run the examples with: the prefix, then the run
    lengths 3, 2, 1 and the run values 7, 9, 7, each as 4 bytes LE. *)
Definition numeric_payload : list Z :=
  serializePrefix 1 4 6 ++ writeString (fixed32_encode [3; 2; 1])
    ++ fixed32_encode [7; 9; 7].

(** X8. The numeric decoder reads the run values from the bytes that follow
    the run lengths up to the end of the payload, and materializes every run
    value over its run length: with as many run values as run lengths (each a
    [u32], their sum a [u32] row count), materializing all rows gives the runs
    spelled out. *)
Theorem numeric_rle_expands_runs :
  forall (T : Type) (decode : list Z -> option (list Z))
         (decodeValues : list Z -> option (list T))
         (pastEnd : nat -> Z) (pastEndValues : nat -> T) (unset : T)
         (prefix runsBytes valuesBytes : list Z)
         (runs : list Z) (vals : list T) (fuel : nat),
    Z.of_nat (length prefix) = kPrefixSize ->
    Z.of_nat (length runsBytes) < 2 ^ 32 ->
    decode runsBytes = Some runs ->
    decodeValues valuesBytes = Some vals ->
    Forall (in_range 32) runs -> (forall i, in_range 32 (pastEnd i)) ->
    length runs = length vals ->
    total runs < 2 ^ 32 -> (length runs < fuel)%nat ->
    exists self self',
      RLEEncoding_new decode decodeValues pastEnd pastEndValues unset
        (prefix ++ writeString runsBytes ++ valuesBytes) = NumericBuilt self
      /\ materialize fuel (total runs) self = Some (expand runs vals, self').
Proof.
  intros T decode decodeValues pastEnd pastEndValues unset prefix runsBytes
    valuesBytes runs vals fuel Hp Hlen Hdec Hvals Hr Hpe Hrv Htot Hfuel.
  destruct (numeric_decoder_expands runs pastEnd vals pastEndValues unset fuel
              Hr Hpe Hrv Htot Hfuel) as (s' & Hs').
  exists (numeric_decoder runs pastEnd vals pastEndValues unset), s'.
  split; [|exact Hs'].
  apply RLEEncoding_new_payload; assumption.
Qed.

Lemma numeric_rle_expands_runs_witness :
  exists self self',
    RLEEncoding_new fixed32_decode fixed32_decode (fun _ => 0) (fun _ => 0) 0
      numeric_payload = NumericBuilt self
    /\ materialize 4 6 self = Some ([7; 7; 7; 9; 9; 7], self').
Proof.
  apply (numeric_rle_expands_runs Z fixed32_decode fixed32_decode
           (fun _ => 0) (fun _ => 0) 0
           (serializePrefix 1 4 6) (fixed32_encode [3; 2; 1])
           (fixed32_encode [7; 9; 7]) [3; 2; 1] [7; 9; 7] 4).
  - reflexivity.
  - simpl. lia.
  - reflexivity.
  - reflexivity.
  - repeat constructor; unfold in_range; simpl; lia.
  - intros i. unfold in_range. lia.
  - reflexivity.
  - simpl. lia.
  - simpl. lia.
Defined.

(** X9. Round trip of the numeric encoding: when the whole payload (the
    prefix, the 4-byte size of the run lengths, the encoded run lengths and
    the encoded run values) fits the 32-bit [encodingSize], and the two
    nested codecs read back the run lengths and the run values they wrote,
    [encode] returns the payload, the constructor accepts it, and
    materializing all rows gives the values back. *)
Theorem numeric_rle_round_trip :
  forall (T : Type) (EqT : EqDecision T)
         (encodeNested : list Z -> list Z) (decode : list Z -> option (list Z))
         (encodeNestedValues : list T -> list Z)
         (decodeValues : list Z -> option (list T))
         (EncodingType_RLE dataType : Z)
         (pastEnd : nat -> Z) (pastEndValues : nat -> T) (unset : T)
         (values : list T) (fuel : nat),
    Z.of_nat (length values) < 2 ^ 32 ->
    kPrefixSize + 4 + Z.of_nat (length (encodeNested (computeRuns values).1))
      + Z.of_nat (length (encodeNestedValues (computeRuns values).2))
      < 2 ^ 32 ->
    decode (encodeNested (computeRuns values).1) = Some (computeRuns values).1 ->
    decodeValues (encodeNestedValues (computeRuns values).2)
      = Some (computeRuns values).2 ->
    (forall i, in_range 32 (pastEnd i)) ->
    (length (computeRuns values).1 < fuel)%nat ->
    exists bytes self self',
      encode encodeNested EncodingType_RLE
        (getSerializedRunValues encodeNestedValues) dataType values
      = Some bytes
      /\ RLEEncoding_new decode decodeValues pastEnd pastEndValues unset bytes
         = NumericBuilt self
      /\ materialize fuel (Z.of_nat (length values)) self = Some (values, self').
Proof.
  intros T EqT encodeNested decode encodeNestedValues decodeValues ty dt
    pastEnd pastEndValues unset values fuel Hlen Hbytes Hdec Hvals Hp Hfuel.
  destruct (computeRuns_expand values) as (Hrv & Hpos & Htot & Hexp).
  rewrite (encode_numeric_layout _ _ _ _ _ Hbytes).
  destruct (numeric_decoder_expands (computeRuns values).1 pastEnd
              (computeRuns values).2 pastEndValues unset fuel) as (s' & Hs').
  - apply positive_runs_in_range; [exact Hpos | lia].
  - exact Hp.
  - exact Hrv.
  - lia.
  - exact Hfuel.
  - eexists. exists (numeric_decoder (computeRuns values).1 pastEnd
              (computeRuns values).2 pastEndValues unset), s'.
    split; [reflexivity|]. split.
    + apply (RLEEncoding_new_payload decode decodeValues pastEnd pastEndValues
               unset _ _ _ (computeRuns values).1 (computeRuns values).2);
        [apply length_serializePrefix | | exact Hdec | exact Hvals].
      unfold kPrefixSize in Hbytes. lia.
    + rewrite <- Htot, Hs', Hexp. reflexivity.
Qed.

Lemma numeric_rle_round_trip_witness :
  exists bytes self self',
    encode fixed32_encode 1 (getSerializedRunValues fixed32_encode) 4
      [7; 7; 7; 9; 9; 7]
    = Some bytes
    /\ RLEEncoding_new fixed32_decode fixed32_decode (fun _ => 0) (fun _ => 0) 0
         bytes
       = NumericBuilt self
    /\ materialize 4 (Z.of_nat (length [7; 7; 7; 9; 9; 7])) self
       = Some ([7; 7; 7; 9; 9; 7], self').
Proof.
  apply (numeric_rle_round_trip Z _ fixed32_encode fixed32_decode
           fixed32_encode fixed32_decode 1 4 (fun _ => 0) (fun _ => 0) 0
           [7; 7; 7; 9; 9; 7] 4).
  - simpl. lia.
  - vm_compute. reflexivity.
  - reflexivity.
  - reflexivity.
  - intros i. unfold in_range. lia.
  - simpl. lia.
Defined.

(** X10. [skip] is [materialize] without the output: from any state and for
    any row count, [skip(rowCount)] ends exactly when [materialize(rowCount)]
    does, and leaves the decoder in the same state. *)
Theorem skip_is_materialize_without_output :
  forall (V D : Type) (RV : RunValues V D) (self : RLEEncodingBase V D)
         (rowCount : Z) (fuel : nat),
    skip fuel rowCount self = snd <$> materialize fuel rowCount self.
Proof.
  intros V D RV self rowCount fuel. unfold skip, materialize.
  apply skip_loop_materialize_loop.
Qed.
End Rle.

(** ** Encoding layout tree ([EncodingLayoutTree.cpp]) *)

Module EncodingLayoutTree.
Import Common.

Definition kMinBufferSize : Z := 8.

(** A [std::string] as the bytes it holds. *)
Definition bytes_of_string (s : string) : list Z :=
  map (fun a => Z.of_N (N_of_ascii a)) (list_ascii_of_string s).

Definition string_of_bytes (bs : list Z) : string :=
  string_of_list_ascii (map (fun b => ascii_of_N (Z.to_N b)) bs).

(** [tree.substr(offset)]; it throws when [offset] is past the end. *)
Definition substr (tree : list Z) (offset : Z) : option (list Z) :=
  if (0 <=? offset) && (offset <=? Z.of_nat (length tree))
  then Some (skipn (Z.to_nat offset) tree)
  else None.

(** Reading at the end of a known prefix of the buffer. *)
Lemma subspan_at (buf pre bs post : list Z) (pos len : Z) :
  buf = pre ++ bs ++ post ->
  pos = Z.of_nat (length pre) ->
  len = Z.of_nat (length bs) ->
  subspan buf pos len = Some bs.
Proof. intros -> -> ->. apply subspan_app. Qed.

Lemma read_at (buf pre post : list Z) (n : nat) (x pos : Z) :
  buf = pre ++ write_le n x ++ post ->
  pos = Z.of_nat (length pre) ->
  0 <= x < 256 ^ Z.of_nat n ->
  read n buf pos = Some (x, pos + Z.of_nat n).
Proof. intros -> -> Hx. apply read_write_le. exact Hx. Qed.

Lemma substr_at (buf pre post : list Z) (offset : Z) :
  buf = pre ++ post ->
  offset = Z.of_nat (length pre) ->
  substr buf offset = Some post.
Proof.
  intros -> ->. unfold substr. rewrite length_app.
  destruct (Z.leb_spec 0 (Z.of_nat (length pre))); [|lia].
  destruct (Z.leb_spec (Z.of_nat (length pre))
              (Z.of_nat (length pre + length post))); [|lia].
  simpl. rewrite Nat2Z.id. now rewrite drop_app_length.
Qed.

Lemma wrap64_small (x : Z) : 0 <= x < 2 ^ 64 -> wrap64 x = x.
Proof. intros Hx. apply wrap_small. exact Hx. Qed.

Section Tree.
(** [EncodingLayout] and its [serialize] and [create] live in
    EncodingLayout.cpp, which is not among the sources.
    [EncodingLayout_serialize l] is the bytes [l.serialize] writes (it
    returns their number); [EncodingLayout_create] reads a layout from the
    bytes it is given and returns it with the number of bytes it used. *)
Variable EncodingLayout : Type.
Variable EncodingLayout_serialize : EncodingLayout -> list Z.
Variable EncodingLayout_create : list Z -> option (EncodingLayout * Z).

(** The order in which a [std::unordered_map] is iterated is its own
    business: any enumeration of the entries. *)
Variable iteration_order : gmap Z EncodingLayout -> list (Z * EncodingLayout).

#[local] Set Warnings "-register-all".

(** The tree: [schemaKind_] (a one-byte [Kind]), [encodingLayouts_] keyed
    by the one-byte [StreamIdentifier], [name_] and [children_]. *)
Inductive EncodingLayoutTree : Type :=
| Node (schemaKind_ : Z) (encodingLayouts_ : gmap Z EncodingLayout)
       (name_ : string) (children_ : list EncodingLayoutTree).

Definition schemaKind (t : EncodingLayoutTree) : Z :=
  match t with Node k _ _ _ => k end.
Definition encodingLayouts (t : EncodingLayoutTree) : gmap Z EncodingLayout :=
  match t with Node _ m _ _ => m end.
Definition name (t : EncodingLayoutTree) : string :=
  match t with Node _ _ n _ => n end.
Definition children (t : EncodingLayoutTree) : list EncodingLayoutTree :=
  match t with Node _ _ _ cs => cs end.

(** The constructor: [ALPHA_CHECK(encodingLayouts_.size() < 255)]. *)
Definition EncodingLayoutTree_new (schemaKind : Z)
    (encodingLayouts : gmap Z EncodingLayout) (name : string)
    (children : list EncodingLayoutTree) : option EncodingLayoutTree :=
  if Z.of_nat (size encodingLayouts) <? 255
  then Some (Node schemaKind encodingLayouts name children)
  else None.

(** One pass of the loop over [encodingLayouts_] in [serialize]: the
    identifier, the 2-byte size, and the layout's own bytes; [pos] moves by
    1, by 2 and by the size. *)
Definition serializeLayout (acc : list Z * Z) (pair : Z * EncodingLayout)
  : list Z * Z :=
  let '(output, pos) := acc in
  let layoutBytes := EncodingLayout_serialize pair.2 in
  let encodingSize := wrap32 (Z.of_nat (length layoutBytes)) in
  (output ++ write_le 1 pair.1 ++ write_le 2 (wrap16 encodingSize) ++ layoutBytes,
   pos + 1 + 2 + encodingSize).

(** What [serialize] writes before the children, and where [pos] stands
    then. *)
Definition serializeNode (schemaKind : Z) (layouts : gmap Z EncodingLayout)
    (name : string) (childrenCount : nat) : list Z * Z :=
  let nameSize := Z.of_nat (String.length name) in
  let '(output, pos) :=
    fold_left serializeLayout (iteration_order layouts)
      (write_le 1 schemaKind
         ++ write_le 2 (wrap16 nameSize)
         ++ bytes_of_string name
         ++ write_le 1 (wrap8 (Z.of_nat (size layouts))),
       1 + 2 + nameSize + 1) in
  (output ++ write_le 4 (wrap32 (Z.of_nat childrenCount)), pos + 4).

(** [EncodingLayoutTree::serialize(output)]: [outputSize] is
    [output.size()].  The result is the bytes written, in the order of
    writing, and the returned [uint32_t]; nothing when the check on the
    buffer size fails. *)
Fixpoint serialize (self : EncodingLayoutTree) (outputSize : Z)
  : option (list Z * Z) :=
  match self with
  | Node schemaKind layouts name children =>
      if outputSize <? kMinBufferSize + Z.of_nat (String.length name)
      then None
      else
        let '(output, pos) :=
          serializeNode schemaKind layouts name (length children) in
        match
          (fix serializeChildren (cs : list EncodingLayoutTree)
               (output : list Z) (pos : Z) : option (list Z * Z) :=
             match cs with
             | [] => Some (output, pos)
             | c :: cs' =>
                 match serialize c (outputSize - pos) with
                 | Some (childBytes, size) =>
                     serializeChildren cs' (output ++ childBytes) (pos + size)
                 | None => None
                 end
             end) children output pos
        with
        | Some (output, pos) => Some (output, wrap32 pos)
        | None => None
        end
  end.

(** [encodingLayouts.insert({streamIdentifier, layout})]: an identifier
    already present keeps its layout. *)
Definition insert_new (k : Z) (v : EncodingLayout) (m : gmap Z EncodingLayout)
  : gmap Z EncodingLayout :=
  match m !! k with
  | Some _ => m
  | None => <[k := v]> m
  end.

(** The loop over the stream layouts in [createInternal]. *)
Fixpoint readLayouts (count : nat) (tree : list Z) (pos : Z)
    (encodingLayouts : gmap Z EncodingLayout)
  : option (gmap Z EncodingLayout * Z) :=
  match count with
  | O => Some (encodingLayouts, pos)
  | S count' =>
      if wrap64 (Z.of_nat (length tree) - pos) <? 3 then None
      else
        '(streamIdentifier, pos) ← read 1 tree pos;
        '(encodingLength, pos) ← read 2 tree pos;
        if wrap64 (Z.of_nat (length tree) - pos) <? encodingLength then None
        else
          layoutBytes ← subspan tree pos encodingLength;
          '(layout, used) ← EncodingLayout_create layoutBytes;
          if used =? encodingLength
          then readLayouts count' tree (pos + used)
                 (insert_new streamIdentifier layout encodingLayouts)
          else None
  end.

(** The loop over the children in [createInternal]; [create] is the
    recursive call. *)
Fixpoint readChildren (create : list Z -> option (EncodingLayoutTree * Z))
    (count : nat) (tree : list Z) (offset : Z)
    (children : list EncodingLayoutTree)
  : option (list EncodingLayoutTree * Z) :=
  match count with
  | O => Some (children, offset)
  | S count' =>
      rest ← substr tree offset;
      '(child, size) ← create rest;
      readChildren create count' tree (wrap32 (offset + size))
        (children ++ [child])
  end.

(** [createInternal(tree)]: the tree and the number of bytes it took.  One
    unit of fuel per level of nesting.  Nothing when a check fails, when
    [EncodingLayout::create] does, or when the source would read outside
    [tree]. *)
Fixpoint createInternal (fuel : nat) (tree : list Z)
  : option (EncodingLayoutTree * Z) :=
  match fuel with
  | O => None
  | S fuel' =>
      if Z.of_nat (length tree) <? kMinBufferSize then None
      else
        '(schemaKind, pos) ← read 1 tree 0;
        '(nameLength, pos) ← read 2 tree pos;
        if Z.of_nat (length tree) <? nameLength + kMinBufferSize then None
        else
          nameBytes ← subspan tree pos nameLength;
          let pos := pos + nameLength in
          '(encodingLayoutCount, pos) ← read 1 tree pos;
          '(encodingLayouts, pos) ←
             readLayouts (Z.to_nat encodingLayoutCount) tree pos ∅;
          '(childrenCount, pos) ← read 4 tree pos;
          '(children, offset) ←
             readChildren (createInternal fuel') (Z.to_nat childrenCount)
               tree (wrap32 pos) [];
          node ← EncodingLayoutTree_new schemaKind encodingLayouts
                    (string_of_bytes nameBytes) children;
          Some (node, offset)
  end.

(** [EncodingLayoutTree::create(tree)].  A tree of nesting depth [d] takes
    at least [8 * d] bytes, so the number of bytes is fuel enough. *)
Definition create (tree : list Z) : option EncodingLayoutTree :=
  fst <$> createInternal (S (length tree)) tree.

(** *** Properties *)

(** The bytes [serialize] writes for a tree, as one list. *)
Fixpoint written (t : EncodingLayoutTree) : list Z :=
  match t with
  | Node schemaKind layouts name children =>
      (serializeNode schemaKind layouts name (length children)).1
        ++ flat_map written children
  end.

(** A layout the tree format can carry: it takes fewer than 65536 bytes and
    [EncodingLayout::create] reads it back from exactly its bytes. *)
Definition layout_ok (l : EncodingLayout) : Prop :=
  Z.of_nat (length (EncodingLayout_serialize l)) < 2 ^ 16
  /\ EncodingLayout_create (EncodingLayout_serialize l)
     = Some (l, Z.of_nat (length (EncodingLayout_serialize l))).

(** A node the tree format can carry: a one-byte kind, fewer than 255
    stream layouts (the constructor's check) under one-byte identifiers, and
    a name shorter than 65536 bytes. *)
Definition node_ok (schemaKind : Z) (layouts : gmap Z EncodingLayout)
    (name : string) : Prop :=
  in_range 8 schemaKind
  /\ Z.of_nat (size layouts) < 255
  /\ Z.of_nat (String.length name) < 2 ^ 16
  /\ map_Forall (fun id l => in_range 8 id /\ layout_ok l) layouts.

Fixpoint wf (t : EncodingLayoutTree) : Prop :=
  match t with
  | Node schemaKind layouts name children =>
      node_ok schemaKind layouts name
      /\ (fix all (cs : list EncodingLayoutTree) : Prop :=
            match cs with
            | [] => True
            | c :: cs' => wf c /\ all cs'
            end) children
  end.

Lemma wf_Node k m n cs :
  wf (Node k m n cs) <-> node_ok k m n /\ Forall wf cs.
Proof.
  simpl. split; intros [Hn Hcs]; (split; [exact Hn|]).
  - induction cs as [|c cs IH]; [constructor|].
    destruct Hcs as [Hc Hcs]. constructor; auto.
  - induction Hcs as [|c cs Hc _ IH]; [exact I|]. split; assumption.
Qed.

Lemma EncodingLayoutTree_induction (P : EncodingLayoutTree -> Prop) :
  (forall k m n cs, Forall P cs -> P (Node k m n cs)) ->
  forall t, P t.
Proof.
  intros Hnode. fix IH 1. intros [k m n cs]. apply Hnode.
  induction cs as [|c cs IHcs]; constructor; [apply IH | exact IHcs].
Qed.

Lemma length_bytes_of_string (s : string) :
  length (bytes_of_string s) = String.length s.
Proof.
  unfold bytes_of_string. rewrite length_map.
  induction s as [|a s IH]; simpl; [reflexivity | now rewrite IH].
Qed.

Lemma string_of_bytes_of_string (s : string) :
  string_of_bytes (bytes_of_string s) = s.
Proof.
  unfold string_of_bytes, bytes_of_string.
  rewrite map_map.
  rewrite (map_ext _ (fun a => a)).
  - rewrite map_id. apply string_of_list_ascii_of_string.
  - intros a. rewrite N2Z.id. apply ascii_N_embedding.
Qed.

(** The bytes of one stream layout entry. *)
Definition layoutEntry (pair : Z * EncodingLayout) : list Z :=
  write_le 1 pair.1
    ++ write_le 2 (Z.of_nat (length (EncodingLayout_serialize pair.2)))
    ++ EncodingLayout_serialize pair.2.

Definition entry_ok (pair : Z * EncodingLayout) : Prop :=
  in_range 8 pair.1 /\ layout_ok pair.2.

Lemma wrap16_wrap32_small (x : Z) : 0 <= x < 2 ^ 16 -> wrap16 (wrap32 x) = x.
Proof.
  intros Hx. unfold wrap16, wrap32, wrap.
  rewrite (Z.mod_small x (2 ^ 32)) by lia. apply Z.mod_small. lia.
Qed.

Lemma serializeLayout_entry (output : list Z) (pos : Z)
    (e : Z * EncodingLayout) :
  entry_ok e ->
  serializeLayout (output, pos) e
  = (output ++ layoutEntry e, pos + Z.of_nat (length (layoutEntry e))).
Proof.
  intros [_ [Hlen _]]. unfold serializeLayout, layoutEntry.
  rewrite wrap16_wrap32_small by lia.
  rewrite (wrap32_small (Z.of_nat _)) by (unfold in_range; lia).
  f_equal. rewrite !length_app, !length_write_le. lia.
Qed.

Lemma fold_serializeLayout (entries : list (Z * EncodingLayout)) :
  Forall entry_ok entries ->
  forall (output : list Z) (pos : Z),
    fold_left serializeLayout entries (output, pos)
    = (output ++ flat_map layoutEntry entries,
       pos + Z.of_nat (length (flat_map layoutEntry entries))).
Proof.
  induction 1 as [|e entries He _ IH]; intros output pos;
    cbn [fold_left flat_map].
  - now rewrite app_nil_r, Z.add_0_r.
  - rewrite serializeLayout_entry by exact He.
    rewrite IH. f_equal.
    + now rewrite <- app_assoc.
    + rewrite length_app. lia.
Qed.

Lemma iteration_order_ok (m : gmap Z EncodingLayout) :
  iteration_order m ≡ₚ map_to_list m ->
  map_Forall (fun id l => in_range 8 id /\ layout_ok l) m ->
  Forall entry_ok (iteration_order m).
Proof.
  intros Hperm Hm. rewrite Hperm. apply Forall_forall. intros [id l] Hin.
  apply elem_of_map_to_list in Hin. exact (Hm id l Hin).
Qed.

(** The bytes of a node before its children. *)
Definition nodeBytes (k : Z) (m : gmap Z EncodingLayout) (n : string)
    (childrenCount : nat) : list Z :=
  write_le 1 k
    ++ write_le 2 (Z.of_nat (String.length n))
    ++ bytes_of_string n
    ++ write_le 1 (Z.of_nat (size m))
    ++ flat_map layoutEntry (iteration_order m)
    ++ write_le 4 (Z.of_nat childrenCount).

Lemma serializeNode_bytes k m n (childrenCount : nat) :
  iteration_order m ≡ₚ map_to_list m ->
  node_ok k m n ->
  Z.of_nat childrenCount < 2 ^ 32 ->
  serializeNode k m n childrenCount
  = (nodeBytes k m n childrenCount,
     Z.of_nat (length (nodeBytes k m n childrenCount))).
Proof.
  intros Hperm (Hk & Hsize & Hname & Hm) Hcount. unfold serializeNode.
  rewrite fold_serializeLayout by (apply iteration_order_ok; assumption).
  unfold wrap16, wrap8, wrap32.
  rewrite !wrap_small by (unfold in_range; lia).
  unfold nodeBytes. f_equal.
  - now rewrite <- !app_assoc.
  - rewrite !length_app, !length_write_le, length_bytes_of_string. lia.
Qed.

Lemma length_nodeBytes_ge k m n c :
  (8 + String.length n <= length (nodeBytes k m n c))%nat.
Proof.
  unfold nodeBytes.
  rewrite !length_app, !length_write_le, length_bytes_of_string. lia.
Qed.

Lemma fold_serializeLayout_grows (entries : list (Z * EncodingLayout)) :
  forall (output : list Z) (pos : Z),
    (length output <= length (fold_left serializeLayout entries (output, pos)).1)%nat.
Proof.
  induction entries as [|e entries IH]; intros output pos; cbn [fold_left].
  - simpl. lia.
  - unfold serializeLayout at 2. etransitivity; [|apply IH].
    rewrite length_app. lia.
Qed.

Lemma length_serializeNode_ge k m n (c : nat) :
  (8 + String.length n <= length (serializeNode k m n c).1)%nat.
Proof.
  unfold serializeNode.
  match goal with
  | |- context [fold_left serializeLayout ?l (?o, ?p)] =>
      pose proof (fold_serializeLayout_grows l o p) as Hg;
      destruct (fold_left serializeLayout l (o, p)) as [output pos]
  end.
  cbn [fst] in *.
  rewrite !length_app, !length_write_le, length_bytes_of_string in Hg.
  rewrite length_app, length_write_le. lia.
Qed.

Lemma written_Node k m n cs :
  written (Node k m n cs)
  = (serializeNode k m n (length cs)).1 ++ flat_map written cs.
Proof. reflexivity. Qed.

Lemma length_written_ge (t : EncodingLayoutTree) : (8 <= length (written t))%nat.
Proof.
  destruct t as [k m n cs]. rewrite written_Node, length_app.
  pose proof (length_serializeNode_ge k m n (length cs)). lia.
Qed.

Lemma length_flat_map_written_ge (cs : list EncodingLayoutTree) :
  (8 * length cs <= length (flat_map written cs))%nat.
Proof.
  induction cs as [|c cs IH]; simpl; [lia|].
  rewrite length_app. pose proof (length_written_ge c). lia.
Qed.

Lemma insert_new_union (entries : list (Z * EncodingLayout)) :
  forall acc : gmap Z EncodingLayout,
    fold_left (fun a e => insert_new e.1 e.2 a) entries acc
    = acc ∪ list_to_map entries.
Proof.
  induction entries as [|[id l] entries IH]; intros acc; cbn [fold_left].
  - simpl. now rewrite (right_id_L ∅ (∪)).
  - rewrite IH. cbn [list_to_map foldr fst snd]. unfold insert_new. simpl.
    destruct (acc !! id) as [v|] eqn:Hacc.
    + apply map_eq. intros i. rewrite !lookup_union.
      destruct (decide (i = id)) as [->|Hne].
      * rewrite Hacc. simpl.
        destruct (list_to_map entries !! id), (<[id:=l]> (list_to_map entries) !! id);
          reflexivity.
      * now rewrite lookup_insert_ne by congruence.
    + rewrite <- insert_union_l. now rewrite insert_union_r by exact Hacc.
Qed.

Lemma iteration_order_list_to_map (m : gmap Z EncodingLayout) :
  iteration_order m ≡ₚ map_to_list m ->
  fold_left (fun a e => insert_new e.1 e.2 a) (iteration_order m) ∅ = m.
Proof.
  intros Hperm. rewrite insert_new_union, (left_id_L ∅ (∪)).
  rewrite <- (list_to_map_to_list m) at 2.
  apply list_to_map_proper; [|exact Hperm].
  rewrite Hperm. apply NoDup_fst_map_to_list.
Qed.

Lemma length_iteration_order (m : gmap Z EncodingLayout) :
  iteration_order m ≡ₚ map_to_list m ->
  length (iteration_order m) = size m.
Proof. intros ->. apply length_map_to_list. Qed.

Lemma bind_Some {A B : Type} (x : A) (f : A -> option B) : Some x ≫= f = f x.
Proof. reflexivity. Qed.

Lemma readLayouts_entries (entries : list (Z * EncodingLayout)) :
  Forall entry_ok entries ->
  forall (buf pre post : list Z) (pos : Z) (acc : gmap Z EncodingLayout),
    buf = pre ++ flat_map layoutEntry entries ++ post ->
    pos = Z.of_nat (length pre) ->
    Z.of_nat (length buf) < 2 ^ 64 ->
    readLayouts (length entries) buf pos acc
    = Some (fold_left (fun a e => insert_new e.1 e.2 a) entries acc,
            pos + Z.of_nat (length (flat_map layoutEntry entries))).
Proof.
  induction 1 as [|[id l] entries [Hid [Hlen Hcreate]] _ IH];
    intros buf pre post pos acc Hbuf Hpos Hsize.
  - simpl. now rewrite Z.add_0_r.
  - cbn [length readLayouts flat_map fold_left fst snd].
    cbn [fst snd] in Hid, Hlen, Hcreate. unfold in_range in Hid.
    set (bytes := EncodingLayout_serialize l) in *.
    assert (Hb : buf = pre ++ write_le 1 id
                   ++ write_le 2 (Z.of_nat (length bytes))
                   ++ bytes ++ flat_map layoutEntry entries ++ post).
    { rewrite Hbuf. unfold layoutEntry. cbn [fst snd flat_map]. fold bytes.
      now repeat rewrite <- app_assoc. }
    assert (Hl : Z.of_nat (length buf)
                 = pos + 1 + 2 + Z.of_nat (length bytes)
                   + Z.of_nat (length (flat_map layoutEntry entries ++ post))).
    { rewrite Hb, Hpos. rewrite !length_app, !length_write_le. lia. }
    rewrite wrap64_small by lia.
    destruct (Z.ltb_spec (Z.of_nat (length buf) - pos) 3); [lia|].
    erewrite (read_at buf pre _ 1 id pos); [|exact Hb|exact Hpos|simpl; lia].
    rewrite bind_Some. cbn beta iota.
    erewrite (read_at buf (pre ++ write_le 1 id) _ 2 (Z.of_nat (length bytes))
               (pos + Z.of_nat 1));
      [|rewrite Hb; now repeat rewrite <- app_assoc
       |rewrite length_app, length_write_le; lia
       |change (256 ^ Z.of_nat 2) with (2 ^ 16); lia].
    rewrite bind_Some. cbn beta iota.
    rewrite wrap64_small by lia.
    destruct (Z.ltb_spec (Z.of_nat (length buf) - (pos + Z.of_nat 1 + Z.of_nat 2))
                (Z.of_nat (length bytes))); [lia|].
    rewrite (subspan_at buf
               (pre ++ write_le 1 id ++ write_le 2 (Z.of_nat (length bytes)))
               bytes (flat_map layoutEntry entries ++ post));
      [|rewrite Hb; now repeat rewrite <- app_assoc
       |rewrite !length_app, !length_write_le; lia
       |reflexivity].
    rewrite bind_Some. fold bytes. rewrite Hcreate, bind_Some. cbn beta iota.
    rewrite Z.eqb_refl.
    rewrite (IH buf (pre ++ layoutEntry (id, l)) post);
      [|rewrite Hbuf; cbn [flat_map]; now repeat rewrite <- app_assoc
       |unfold layoutEntry; cbn [fst snd]; fold bytes;
        rewrite !length_app, !length_write_le; lia
       |exact Hsize].
    f_equal. f_equal.
    rewrite length_app. unfold layoutEntry at 2. cbn [fst snd]. fold bytes.
    rewrite !length_app, !length_write_le. lia.
Qed.

(** What reading back a tree means, with anything after its bytes. *)
Definition reads_back (t : EncodingLayoutTree) : Prop :=
  forall (rest : list Z) (fuel : nat),
    Z.of_nat (length (written t)) < 2 ^ 32 ->
    Z.of_nat (length (written t ++ rest)) < 2 ^ 64 ->
    (length (written t) < fuel)%nat ->
    createInternal fuel (written t ++ rest)
    = Some (t, Z.of_nat (length (written t))).

Lemma readChildren_written (cs : list EncodingLayoutTree) :
  Forall reads_back cs ->
  forall (buf pre post : list Z) (offset : Z) (fuel : nat)
         (acc : list EncodingLayoutTree),
    buf = pre ++ flat_map written cs ++ post ->
    offset = Z.of_nat (length pre) ->
    Z.of_nat (length (pre ++ flat_map written cs)) < 2 ^ 32 ->
    Z.of_nat (length buf) < 2 ^ 64 ->
    (length (flat_map written cs) < fuel)%nat ->
    readChildren (createInternal fuel) (length cs) buf offset acc
    = Some (acc ++ cs, offset + Z.of_nat (length (flat_map written cs))).
Proof.
  induction 1 as [|c cs Hc _ IH];
    intros buf pre post offset fuel acc Hbuf Hoff H32 H64 Hfuel.
  - simpl. now rewrite app_nil_r, Z.add_0_r.
  - cbn [length readChildren flat_map] in *.
    rewrite !length_app in H32. rewrite !length_app in Hfuel.
    erewrite (substr_at buf pre (written c ++ flat_map written cs ++ post));
      [|rewrite Hbuf; now repeat rewrite <- app_assoc|exact Hoff].
    rewrite bind_Some.
    rewrite (Hc (flat_map written cs ++ post) fuel);
      [|lia
       |rewrite Hbuf, !length_app in H64; rewrite !length_app; lia
       |lia].
    rewrite bind_Some. cbn beta iota.
    rewrite wrap32_small by (unfold in_range; lia).
    rewrite (IH buf (pre ++ written c) post);
      [|rewrite Hbuf; now repeat rewrite <- app_assoc
       |rewrite length_app; lia
       |rewrite !length_app; lia
       |exact H64
       |lia].
    f_equal. f_equal; [now rewrite <- app_assoc | rewrite length_app; lia].
Qed.

Section RoundTrip.
Hypothesis iteration_order_enumerates :
  forall m : gmap Z EncodingLayout, iteration_order m ≡ₚ map_to_list m.

Lemma written_nodeBytes k m n cs :
  node_ok k m n ->
  Z.of_nat (length (written (Node k m n cs))) < 2 ^ 32 ->
  written (Node k m n cs) = nodeBytes k m n (length cs) ++ flat_map written cs
  /\ serializeNode k m n (length cs)
     = (nodeBytes k m n (length cs),
        Z.of_nat (length (nodeBytes k m n (length cs)))).
Proof.
  intros Hok Hlen. rewrite written_Node in *.
  assert (Hcount : Z.of_nat (length cs) < 2 ^ 32).
  { rewrite length_app in Hlen.
    pose proof (length_flat_map_written_ge cs). lia. }
  rewrite (serializeNode_bytes k m n (length cs)
             (iteration_order_enumerates m) Hok Hcount).
  split; reflexivity.
Qed.

Lemma createInternal_written (t : EncodingLayoutTree) : wf t -> reads_back t.
Proof.
  induction t as [k m n cs IH] using EncodingLayoutTree_induction.
  intros Hwf rest fuel H32 H64 Hfuel.
  apply wf_Node in Hwf. destruct Hwf as [Hok Hcs].
  destruct (written_nodeBytes k m n cs Hok H32) as [Hw _].
  pose proof Hok as (Hk & Hsize & Hname & Hm). unfold in_range in Hk.
  assert (Hcount : Z.of_nat (length cs) < 2 ^ 32).
  { rewrite written_Node, length_app in H32.
    pose proof (length_flat_map_written_ge cs). lia. }
  assert (Hback : Forall reads_back cs).
  { clear - IH Hcs. induction Hcs as [|c cs Hc _ IHcs]; [constructor|].
    inversion IH; subst. constructor; auto. }
  pose proof (iteration_order_ok m (iteration_order_enumerates m) Hm) as Hentries.
  rewrite Hw in *. clear Hw.
  set (L := flat_map layoutEntry (iteration_order m)) in *.
  set (W := flat_map written cs) in *.
  set (N := bytes_of_string n) in *.
  remember (nodeBytes k m n (length cs) ++ W ++ rest) as buf eqn:Hbuf.
  assert (Hb : buf = write_le 1 k ++ write_le 2 (Z.of_nat (String.length n))
                 ++ N ++ write_le 1 (Z.of_nat (size m)) ++ L
                 ++ write_le 4 (Z.of_nat (length cs)) ++ W ++ rest).
  { rewrite Hbuf. unfold nodeBytes. fold L N. now repeat rewrite <- app_assoc. }
  assert (HN : length N = String.length n) by apply length_bytes_of_string.
  assert (Hl : Z.of_nat (length buf)
               = 8 + Z.of_nat (String.length n) + Z.of_nat (length L)
                 + Z.of_nat (length W) + Z.of_nat (length rest)).
  { rewrite Hb. rewrite !length_app, !length_write_le, HN. lia. }
  assert (Hnb : Z.of_nat (length (nodeBytes k m n (length cs)))
                = 8 + Z.of_nat (String.length n) + Z.of_nat (length L)).
  { unfold nodeBytes. fold L N. rewrite !length_app, !length_write_le, HN. lia. }
  rewrite <- app_assoc, <- Hbuf in H64.
  rewrite length_app in H32. rewrite length_app in Hfuel.
  destruct fuel as [|fuel]; [lia|].
  rewrite <- app_assoc, <- Hbuf.
  cbn [createInternal]. unfold kMinBufferSize.
  destruct (Z.ltb_spec (Z.of_nat (length buf)) 8); [lia|].
  erewrite (read_at buf [] _ 1 k 0); [|exact Hb|reflexivity|simpl; lia].
  rewrite bind_Some. cbn beta iota.
  erewrite (read_at buf (write_le 1 k) _ 2 (Z.of_nat (String.length n)));
    [|rewrite Hb; reflexivity
     |rewrite length_write_le; reflexivity
     |change (256 ^ Z.of_nat 2) with (2 ^ 16); lia].
  rewrite bind_Some. cbn beta iota.
  destruct (Z.ltb_spec (Z.of_nat (length buf)) (Z.of_nat (String.length n) + 8));
    [lia|].
  erewrite (subspan_at buf
              (write_le 1 k ++ write_le 2 (Z.of_nat (String.length n))) N);
    [|rewrite Hb; now repeat rewrite <- app_assoc
     |rewrite !length_app, !length_write_le; lia
     |lia].
  rewrite bind_Some.
  erewrite (read_at buf
              (write_le 1 k ++ write_le 2 (Z.of_nat (String.length n)) ++ N)
              _ 1 (Z.of_nat (size m)));
    [|rewrite Hb; now repeat rewrite <- app_assoc
     |rewrite !length_app, !length_write_le, HN; lia
     |simpl; lia].
  rewrite bind_Some. cbn beta iota.
  rewrite Nat2Z.id, <- (length_iteration_order m (iteration_order_enumerates m)).
  erewrite (readLayouts_entries (iteration_order m) Hentries buf
              (write_le 1 k ++ write_le 2 (Z.of_nat (String.length n)) ++ N
                 ++ write_le 1 (Z.of_nat (size m))));
    [|rewrite Hb; fold L; now repeat rewrite <- app_assoc
     |rewrite !length_app, !length_write_le, HN; lia
     |exact H64].
  rewrite bind_Some. cbn beta iota. fold L.
  rewrite (iteration_order_list_to_map m (iteration_order_enumerates m)).
  erewrite (read_at buf
              (write_le 1 k ++ write_le 2 (Z.of_nat (String.length n)) ++ N
                 ++ write_le 1 (Z.of_nat (size m)) ++ L)
              _ 4 (Z.of_nat (length cs)));
    [|rewrite Hb; now repeat rewrite <- app_assoc
     |rewrite !length_app, !length_write_le, HN; lia
     |change (256 ^ Z.of_nat 4) with (2 ^ 32); lia].
  rewrite bind_Some. cbn beta iota.
  rewrite Nat2Z.id.
  rewrite wrap32_small by (unfold in_range; lia).
  erewrite (readChildren_written cs Hback buf
              (nodeBytes k m n (length cs)) rest);
    [|rewrite Hbuf; reflexivity
     |rewrite Hnb; lia
     |rewrite length_app; fold W; lia
     |exact H64
     |fold W; lia].
  rewrite bind_Some. cbn beta iota. subst N.
  rewrite string_of_bytes_of_string. cbn [app].
  unfold EncodingLayoutTree_new.
  destruct (Z.ltb_spec (Z.of_nat (size m)) 255); [|lia].
  rewrite bind_Some.
  f_equal. f_equal. rewrite length_app. fold W. lia.
Qed.

Lemma serialize_written (t : EncodingLayoutTree) :
  wf t ->
  forall outputSize : Z,
    Z.of_nat (length (written t)) <= outputSize ->
    Z.of_nat (length (written t)) < 2 ^ 32 ->
    serialize t outputSize = Some (written t, Z.of_nat (length (written t))).
Proof.
  induction t as [k m n cs IH] using EncodingLayoutTree_induction.
  intros Hwf outputSize Hcap H32.
  apply wf_Node in Hwf. destruct Hwf as [Hok Hcs].
  destruct (written_nodeBytes k m n cs Hok H32) as [Hw Hnode].
  rewrite Hw in *. cbn [serialize]. rewrite Hnode.
  pose proof (length_nodeBytes_ge k m n (length cs)) as Hge.
  rewrite length_app in Hcap. rewrite length_app in H32.
  unfold kMinBufferSize.
  destruct (Z.ltb_spec outputSize (8 + Z.of_nat (String.length n))); [lia|].
  generalize dependent (nodeBytes k m n (length cs)). intros output Hcap H32 Hge.
  assert (Hloop : forall (cs' : list EncodingLayoutTree) (out : list Z),
    Forall wf cs' ->
    Forall (fun c => wf c -> forall outputSize : Z,
              Z.of_nat (length (written c)) <= outputSize ->
              Z.of_nat (length (written c)) < 2 ^ 32 ->
              serialize c outputSize
              = Some (written c, Z.of_nat (length (written c)))) cs' ->
    Z.of_nat (length out + length (flat_map written cs')) <= outputSize ->
    Z.of_nat (length out + length (flat_map written cs')) < 2 ^ 32 ->
    (fix serializeChildren (cs : list EncodingLayoutTree)
         (output : list Z) (pos : Z) : option (list Z * Z) :=
       match cs with
       | [] => Some (output, pos)
       | c :: cs' =>
           match serialize c (outputSize - pos) with
           | Some (childBytes, size) =>
               serializeChildren cs' (output ++ childBytes) (pos + size)
           | None => None
           end
       end) cs' out (Z.of_nat (length out))
    = Some (out ++ flat_map written cs',
            Z.of_nat (length (out ++ flat_map written cs')))).
  { clear. induction cs' as [|c cs' IHcs]; intros out Hwf Hser Hcap H32.
    - simpl. now rewrite app_nil_r.
    - inversion Hwf as [|? ? Hc Hcs']; subst.
      inversion Hser as [|? ? Hsc Hscs']; subst.
      cbn [flat_map] in *. rewrite !length_app in Hcap. rewrite !length_app in H32.
      rewrite (Hsc Hc) by lia.
      rewrite <- Nat2Z.inj_add, <- length_app.
      rewrite IHcs; [|assumption|assumption
                     |rewrite length_app; lia|rewrite length_app; lia].
      now rewrite <- app_assoc. }
  rewrite (Hloop cs output Hcs IH) by lia.
  rewrite wrap32_small; [reflexivity|].
  unfold in_range. rewrite length_app. lia.
Qed.

End RoundTrip.

(** The name of a tree that [createInternal] returns is read from the bytes
    that follow the 2-byte name length, and has that length. *)
Lemma createInternal_name (fuel : nat) (tree : list Z)
    (t : EncodingLayoutTree) (used : Z) :
  createInternal fuel tree = Some (t, used) ->
  exists k p1 len p2 nameBytes,
    read 1 tree 0 = Some (k, p1)
    /\ read 2 tree p1 = Some (len, p2)
    /\ subspan tree p2 len = Some nameBytes
    /\ name t = string_of_bytes nameBytes.
Proof.
  destruct fuel as [|fuel]; [discriminate|]. cbn [createInternal].
  destruct (Z.of_nat (length tree) <? kMinBufferSize); [discriminate|].
  destruct (read 1 tree 0) as [[k p1]|] eqn:H1; [|discriminate].
  rewrite bind_Some. cbn beta iota.
  destruct (read 2 tree p1) as [[len p2]|] eqn:H2; [|discriminate].
  rewrite bind_Some. cbn beta iota.
  destruct (Z.of_nat (length tree) <? len + kMinBufferSize); [discriminate|].
  destruct (subspan tree p2 len) as [nameBytes|] eqn:H3; [|discriminate].
  rewrite bind_Some.
  destruct (read 1 tree (p2 + len)) as [[count p3]|]; [|discriminate].
  rewrite bind_Some. cbn beta iota.
  destruct (readLayouts (Z.to_nat count) tree p3 ∅) as [[layouts p4]|];
    [|discriminate].
  rewrite bind_Some. cbn beta iota.
  destruct (read 4 tree p4) as [[childrenCount p5]|]; [|discriminate].
  rewrite bind_Some. cbn beta iota.
  destruct (readChildren (createInternal fuel) (Z.to_nat childrenCount) tree
              (wrap32 p5) []) as [[cs offset]|]; [|discriminate].
  rewrite bind_Some. cbn beta iota.
  unfold EncodingLayoutTree_new.
  destruct (Z.of_nat (size layouts) <? 255); [|discriminate].
  rewrite bind_Some.
  intros Ht. inversion Ht; subst. exists k, p1, len, p2, nameBytes.
  repeat (split; [first [reflexivity | assumption]|]). reflexivity.
Qed.

(** A name of exactly 65536 bytes is written with the 2-byte length 0 and
    is not read back. *)
Lemma name_of_65536_bytes (n : string) (outputSize : Z) :
  Z.of_nat (String.length n) = 65536 ->
  iteration_order ∅ = [] ->
  65544 <= outputSize ->
  serialize (Node 0 ∅ n []) outputSize
  = Some ([0; 0; 0] ++ bytes_of_string n ++ [0; 0; 0; 0; 0], 65544)
  /\ create ([0; 0; 0] ++ bytes_of_string n ++ [0; 0; 0; 0; 0])
     <> Some (Node 0 ∅ n []).
Proof.
  intros Hlen Horder Hcap. split.
  - cbn [serialize]. rewrite Hlen.
    destruct (Z.ltb_spec outputSize (kMinBufferSize + 65536));
      [unfold kMinBufferSize in *; lia|].
    unfold serializeNode. rewrite Horder, Hlen. cbn [fold_left length].
    rewrite map_size_empty.
    change (wrap16 65536) with 0.
    change (wrap8 (Z.of_nat 0)) with 0. change (wrap32 (Z.of_nat 0)) with 0.
    change (write_le 1 0) with [0]. change (write_le 2 0) with [0; 0].
    change (write_le 4 0) with [0; 0; 0; 0].
    f_equal. f_equal. now repeat rewrite <- app_assoc.
  - unfold create.
    set (buf := [0; 0; 0] ++ bytes_of_string n ++ [0; 0; 0; 0; 0]).
    destruct (createInternal (S (length buf)) buf) as [[t used]|] eqn:Hc;
      [|discriminate].
    cbn [fmap option_fmap option_map fst]. intros Ht. inversion Ht; subst t.
    destruct (createInternal_name _ _ _ _ Hc)
      as (k & p1 & len & p2 & nameBytes & H1 & H2 & H3 & Hname).
    erewrite (read_at buf [] _ 1 0 0) in H1;
      [|reflexivity|reflexivity|simpl; lia].
    inversion H1; subst k p1.
    erewrite (read_at buf [0] _ 2 0) in H2;
      [|reflexivity|reflexivity|simpl; lia].
    inversion H2; subst len p2.
    erewrite (subspan_at buf [0; 0; 0] [] _) in H3;
      [|reflexivity|reflexivity|reflexivity].
    inversion H3; subst nameBytes.
    cbn [name] in Hname. rewrite Hname in Hlen. discriminate Hlen.
Qed.
End Tree.

Arguments Node {EncodingLayout} _ _ _ _.

(** A stand-in layout codec to run the examples with: a layout is the pair
    of its encoding kind and compression kind, written as two bytes. *)
Definition pair_layout_serialize (l : Z * Z) : list Z := [l.1; l.2].
Definition pair_layout_create (bytes : list Z) : option ((Z * Z) * Z) :=
  match bytes with
  | [e; c] => Some ((e, c), 2)
  | _ => None
  end.

Definition example_tree : EncodingLayoutTree (Z * Z) :=
  Node 1 {[ 0 := (4, 0) ]} "root"
    [ Node 0 {[ 0 := (1, 1); 2 := (0, 0) ]} "a" [];
      Node 5 ∅ "" [ Node 0 ∅ "b" [] ] ].


Definition long_name : string := string_of_list_ascii (repeat "a"%char (Z.to_nat 65536)).

(** A node with no stream layout, no child and a name of 65536 bytes. *)
Definition long_name_tree : EncodingLayoutTree (Z * Z) :=
  Node 0 ∅ long_name [].

(** C3, as stated, fails: the constructor accepts a node whose name takes
    65536 bytes, [serialize] writes it with the 2-byte name length 0, and
    [create] does not read the tree back from those bytes. *)
Lemma create_serialize_long_name :
  EncodingLayoutTree_new (Z * Z) 0 ∅ long_name [] = Some long_name_tree
  /\ snd <$> serialize (Z * Z) pair_layout_serialize map_to_list
               long_name_tree 70000 = Some 65544
  /\ (serialize (Z * Z) pair_layout_serialize map_to_list long_name_tree 70000
        ≫= fun written => create (Z * Z) pair_layout_create written.1)
     <> Some long_name_tree.
Proof.
  assert (Hlen : Z.of_nat (String.length long_name) = 65536).
  { transitivity (Z.of_nat (Z.to_nat 65536)); [|apply Z2Nat.id; lia].
    apply f_equal. unfold long_name. generalize (Z.to_nat 65536). intros k.
    induction k as [|k IH]; simpl; [reflexivity | now rewrite IH]. }
  destruct (name_of_65536_bytes (Z * Z) pair_layout_serialize pair_layout_create
              map_to_list long_name 70000 Hlen (map_to_list_empty (M:=gmap Z)))
    as [Hser Hcreate]; [lia|].
  unfold long_name_tree. rewrite Hser. split; [|split].
  - unfold EncodingLayoutTree_new.
    change (Z.of_nat (size (∅ : gmap Z (Z * Z))) <? 255) with true.
    cbv iota. reflexivity.
  - reflexivity.
  - exact Hcreate.
Qed.

(** C3, amended. Take a tree in which every node has a one-byte kind, fewer
    than 255 stream layouts under one-byte identifiers, a name shorter than
    65536 bytes, and layouts that each take fewer than 65536 bytes and are
    read back by [EncodingLayout::create].  If the bytes of the tree number
    fewer than 2^32 and fit the output buffer, then [serialize] returns the
    number of bytes it wrote, and [create] applied to these bytes gives the
    tree back.  The stream layouts may be iterated in any order. *)
Theorem create_serialize_round_trip :
  forall (EncodingLayout : Type)
         (EncodingLayout_serialize : EncodingLayout -> list Z)
         (EncodingLayout_create : list Z -> option (EncodingLayout * Z))
         (iteration_order : gmap Z EncodingLayout -> list (Z * EncodingLayout))
         (t : EncodingLayoutTree EncodingLayout) (outputSize : Z),
    (forall m, iteration_order m ≡ₚ map_to_list m) ->
    wf EncodingLayout EncodingLayout_serialize EncodingLayout_create t ->
    Z.of_nat (length (written EncodingLayout EncodingLayout_serialize
                        iteration_order t)) < 2 ^ 32 ->
    Z.of_nat (length (written EncodingLayout EncodingLayout_serialize
                        iteration_order t)) <= outputSize ->
    exists bytes : list Z,
      serialize EncodingLayout EncodingLayout_serialize iteration_order
        t outputSize = Some (bytes, Z.of_nat (length bytes))
      /\ create EncodingLayout EncodingLayout_create bytes = Some t.
Proof.
  intros EL ser cre order t outputSize Horder Hwf H32 Hcap.
  exists (written EL ser order t). split.
  - apply (serialize_written EL ser cre order Horder); assumption.
  - unfold create.
    pose proof (createInternal_written EL ser cre order Horder t Hwf [] 
                  (S (length (written EL ser order t)))) as Hback.
    rewrite app_nil_r in Hback. rewrite Hback; [reflexivity|lia|lia|lia].
Qed.

Lemma example_tree_wf : wf (Z * Z) pair_layout_serialize pair_layout_create example_tree.
Proof.
  assert (Hok : forall l : Z * Z,
             layout_ok (Z * Z) pair_layout_serialize pair_layout_create l).
  { intros [e c]. split; [simpl; lia | reflexivity]. }
  assert (Hnode : forall k (m : gmap Z (Z * Z)) n,
             in_range 8 k -> Z.of_nat (size m) < 255 ->
             Z.of_nat (String.length n) < 2 ^ 16 ->
             Forall (fun e => in_range 8 e.1) (map_to_list m) ->
             node_ok (Z * Z) pair_layout_serialize pair_layout_create k m n).
  { intros k m n Hk Hs Hn Hm. split; [exact Hk|]. split; [exact Hs|].
    split; [exact Hn|]. apply map_Forall_to_list, Forall_forall.
    intros [id l] Hl. split; [|apply Hok].
    rewrite Forall_forall in Hm. exact (Hm (id, l) Hl). }
  assert (Hleaf : forall k (m : gmap Z (Z * Z)) n cs,
             node_ok (Z * Z) pair_layout_serialize pair_layout_create k m n ->
             Forall (wf (Z * Z) pair_layout_serialize pair_layout_create) cs ->
             wf (Z * Z) pair_layout_serialize pair_layout_create (Node k m n cs)).
  { intros k m n cs Hn Hcs. apply wf_Node. split; assumption. }
  assert (Hids : forall m : gmap Z (Z * Z),
             (forall id l, m !! id = Some l -> id = 0 \/ id = 2) ->
             Forall (fun e : Z * (Z * Z) => in_range 8 e.1) (map_to_list m)).
  { intros m Hm. apply Forall_forall. intros [id l] Hin.
    apply elem_of_map_to_list in Hin. unfold in_range. simpl.
    destruct (Hm id l Hin); lia. }
  unfold example_tree.
  match goal with |- wf _ _ _ (Node ?k ?m ?n ?cs) => apply (Hleaf k m n cs) end; [apply Hnode | constructor; [|constructor; [|constructor]]].
  - unfold in_range; lia.
  - vm_compute; reflexivity.
  - vm_compute; reflexivity.
  - apply Hids. intros id l Hl.
    destruct (decide (id = 0)); [now left|]. now rewrite lookup_singleton_ne in Hl.
  - match goal with |- wf _ _ _ (Node ?k ?m ?n ?cs) => apply (Hleaf k m n cs) end; [apply Hnode | constructor].
    + unfold in_range; lia.
    + vm_compute; reflexivity.
    + vm_compute; reflexivity.
    + apply Hids. intros id l Hl.
      destruct (decide (id = 0)); [now left|].
      destruct (decide (id = 2)); [now right|].
      rewrite lookup_insert_ne, lookup_singleton_ne in Hl by congruence.
      discriminate.
  - match goal with |- wf _ _ _ (Node ?k ?m ?n ?cs) => apply (Hleaf k m n cs) end; [apply Hnode | constructor; [|constructor]].
    + unfold in_range; lia.
    + vm_compute; reflexivity.
    + vm_compute; reflexivity.
    + apply Hids. intros id l Hl. now rewrite lookup_empty in Hl.
    + match goal with |- wf _ _ _ (Node ?k ?m ?n ?cs) => apply (Hleaf k m n cs) end; [apply Hnode | constructor].
      * unfold in_range; lia.
      * vm_compute; reflexivity.
      * vm_compute; reflexivity.
      * apply Hids. intros id l Hl. now rewrite lookup_empty in Hl.
Qed.

Lemma create_serialize_round_trip_witness :
  exists bytes : list Z,
    serialize (Z * Z) pair_layout_serialize map_to_list example_tree 64
    = Some (bytes, Z.of_nat (length bytes))
    /\ create (Z * Z) pair_layout_create bytes = Some example_tree.
Proof.
  apply (create_serialize_round_trip (Z * Z) pair_layout_serialize
           pair_layout_create map_to_list example_tree 64).
  - intros m. reflexivity.
  - exact example_tree_wf.
  - vm_compute. reflexivity.
  - vm_compute. discriminate.
Defined.


(** *** Trailing bytes, unambiguous bytes, and the accessors *)

Section Accessors.
Context {EncodingLayout : Type}.
Variable iteration_order : gmap Z EncodingLayout -> list (Z * EncodingLayout).

(** [encodingLayout(identifier)]: the layout of the stream, [None] standing
    for [nullptr]. *)
Definition encodingLayout (self : EncodingLayoutTree EncodingLayout)
    (identifier : Z) : option EncodingLayout :=
  encodingLayouts EncodingLayout self !! identifier.

(** [childrenCount()], a [uint32_t]. *)
Definition childrenCount (self : EncodingLayoutTree EncodingLayout) : Z :=
  wrap32 (Z.of_nat (length (children EncodingLayout self))).

(** [child(index)] for a [uint32_t] index; nothing when
    [index < childrenCount()] fails, where the source fails a debug check
    and otherwise reads outside the vector. *)
Definition child (self : EncodingLayoutTree EncodingLayout) (index : Z)
  : option (EncodingLayoutTree EncodingLayout) :=
  if (0 <=? index) && (index <? childrenCount self)
  then children EncodingLayout self !! Z.to_nat index
  else None.

(** [encodingLayoutIdentifiers()]: the keys of [encodingLayouts_] in the
    order the map is iterated. *)
Definition encodingLayoutIdentifiers (self : EncodingLayoutTree EncodingLayout)
  : list Z :=
  (iteration_order (encodingLayouts EncodingLayout self)).*1.

End Accessors.

(** X11. [create] reads a tree from the front of the buffer and does not look
    at what follows: the bytes of a well-formed tree followed by any bytes are
    read back as that tree. *)
Theorem create_ignores_trailing_bytes :
  forall (EncodingLayout : Type)
         (EncodingLayout_serialize : EncodingLayout -> list Z)
         (EncodingLayout_create : list Z -> option (EncodingLayout * Z))
         (iteration_order : gmap Z EncodingLayout -> list (Z * EncodingLayout))
         (t : EncodingLayoutTree EncodingLayout) (outputSize : Z)
         (bytes trailing : list Z) (size : Z),
    (forall m, iteration_order m ≡ₚ map_to_list m) ->
    wf EncodingLayout EncodingLayout_serialize EncodingLayout_create t ->
    serialize EncodingLayout EncodingLayout_serialize iteration_order
      t outputSize = Some (bytes, size) ->
    Z.of_nat (length (written EncodingLayout EncodingLayout_serialize
                        iteration_order t)) <= outputSize ->
    Z.of_nat (length (written EncodingLayout EncodingLayout_serialize
                        iteration_order t)) < 2 ^ 32 ->
    Z.of_nat (length (bytes ++ trailing)) < 2 ^ 64 ->
    create EncodingLayout EncodingLayout_create (bytes ++ trailing) = Some t.
Proof.
  intros EL ser cre order t outputSize bytes trailing size Horder Hwf Hser
    Hcap H32 H64.
  rewrite (serialize_written EL ser cre order Horder t Hwf outputSize Hcap H32)
    in Hser.
  inversion Hser; subst bytes size; clear Hser.
  unfold create.
  rewrite (createInternal_written EL ser cre order Horder t Hwf trailing
             (S (length (written EL ser order t ++ trailing))));
    [reflexivity | exact H32 | exact H64 | rewrite length_app; lia].
Qed.

Lemma create_ignores_trailing_bytes_witness :
  exists bytes size,
    serialize (Z * Z) pair_layout_serialize map_to_list example_tree 64
    = Some (bytes, size)
    /\ create (Z * Z) pair_layout_create (bytes ++ [1; 2; 3])
       = Some example_tree.
Proof.
  assert (Hser : serialize (Z * Z) pair_layout_serialize map_to_list
                   example_tree 64
                 = Some (written (Z * Z) pair_layout_serialize map_to_list
                           example_tree,
                         Z.of_nat (length (written (Z * Z) pair_layout_serialize
                                             map_to_list example_tree)))).
  { apply (serialize_written (Z * Z) pair_layout_serialize pair_layout_create
             map_to_list (fun m => reflexivity _) example_tree example_tree_wf).
    - vm_compute. discriminate.
    - vm_compute. reflexivity. }
  eexists _, _. split; [exact Hser|].
  apply (create_ignores_trailing_bytes (Z * Z) pair_layout_serialize
           pair_layout_create map_to_list example_tree 64 _ [1; 2; 3] _
           (fun m => reflexivity _) example_tree_wf Hser).
  - vm_compute. discriminate.
  - vm_compute. reflexivity.
  - vm_compute. reflexivity.
Defined.

(** A tree with a single node, to compare with [example_tree]. *)
Definition example_leaf : EncodingLayoutTree (Z * Z) := Node 0 ∅ "b" [].

Lemma example_leaf_wf :
  wf (Z * Z) pair_layout_serialize pair_layout_create example_leaf.
Proof.
  apply wf_Node. split; [|constructor].
  split; [unfold in_range; lia|]. split; [vm_compute; reflexivity|].
  split; [vm_compute; reflexivity|]. apply map_Forall_empty.
Qed.

(** X12. The bytes of a tree tell the tree: the bytes [serialize] writes for
    two different well-formed trees differ, and neither is the beginning of
    the other, whatever follows them. So children can be written one after the
    other with nothing in between. *)
Theorem serialize_unambiguous :
  forall (EncodingLayout : Type)
         (EncodingLayout_serialize : EncodingLayout -> list Z)
         (EncodingLayout_create : list Z -> option (EncodingLayout * Z))
         (iteration_order : gmap Z EncodingLayout -> list (Z * EncodingLayout))
         (t1 t2 : EncodingLayoutTree EncodingLayout)
         (outputSize1 outputSize2 : Z)
         (bytes1 bytes2 rest1 rest2 : list Z) (size1 size2 : Z),
    (forall m, iteration_order m ≡ₚ map_to_list m) ->
    wf EncodingLayout EncodingLayout_serialize EncodingLayout_create t1 ->
    wf EncodingLayout EncodingLayout_serialize EncodingLayout_create t2 ->
    serialize EncodingLayout EncodingLayout_serialize iteration_order
      t1 outputSize1 = Some (bytes1, size1) ->
    serialize EncodingLayout EncodingLayout_serialize iteration_order
      t2 outputSize2 = Some (bytes2, size2) ->
    Z.of_nat (length (written EncodingLayout EncodingLayout_serialize
                        iteration_order t1)) <= outputSize1 ->
    Z.of_nat (length (written EncodingLayout EncodingLayout_serialize
                        iteration_order t2)) <= outputSize2 ->
    Z.of_nat (length (written EncodingLayout EncodingLayout_serialize
                        iteration_order t1)) < 2 ^ 32 ->
    Z.of_nat (length (written EncodingLayout EncodingLayout_serialize
                        iteration_order t2)) < 2 ^ 32 ->
    Z.of_nat (length (bytes1 ++ rest1)) < 2 ^ 64 ->
    t1 <> t2 ->
    bytes1 ++ rest1 <> bytes2 ++ rest2.
Proof.
  intros EL ser cre order t1 t2 out1 out2 bytes1 bytes2 rest1 rest2 size1 size2
    Horder Hwf1 Hwf2 Hser1 Hser2 Hcap1 Hcap2 Hlt1 Hlt2 H64 Hne Heq.
  rewrite (serialize_written EL ser cre order Horder t1 Hwf1 out1 Hcap1 Hlt1)
    in Hser1.
  rewrite (serialize_written EL ser cre order Horder t2 Hwf2 out2 Hcap2 Hlt2)
    in Hser2.
  inversion Hser1; subst bytes1 size1; clear Hser1.
  inversion Hser2; subst bytes2 size2; clear Hser2.
  assert (H1 : createInternal EL cre
                 (S (length (written EL ser order t1 ++ rest1)))
                 (written EL ser order t1 ++ rest1)
               = Some (t1, Z.of_nat (length (written EL ser order t1)))).
  { apply (createInternal_written EL ser cre order Horder t1 Hwf1 rest1).
    - exact Hlt1.
    - exact H64.
    - rewrite length_app. lia. }
  assert (H2 : createInternal EL cre
                 (S (length (written EL ser order t1 ++ rest1)))
                 (written EL ser order t1 ++ rest1)
               = Some (t2, Z.of_nat (length (written EL ser order t2)))).
  { rewrite Heq.
    apply (createInternal_written EL ser cre order Horder t2 Hwf2 rest2).
    - exact Hlt2.
    - rewrite <- Heq. exact H64.
    - rewrite length_app. lia. }
  rewrite H1 in H2. inversion H2 as [[Ht Hlen]]. exact (Hne Ht).
Qed.

Lemma serialize_unambiguous_witness :
  exists bytes1 size1 bytes2 size2,
    serialize (Z * Z) pair_layout_serialize map_to_list example_tree 64
    = Some (bytes1, size1)
    /\ serialize (Z * Z) pair_layout_serialize map_to_list example_leaf 64
       = Some (bytes2, size2)
    /\ bytes1 ++ [] <> bytes2 ++ [1; 2; 3].
Proof.
  assert (Hser : forall t,
             wf (Z * Z) pair_layout_serialize pair_layout_create t ->
             Z.of_nat (length (written (Z * Z) pair_layout_serialize
                                 map_to_list t)) <= 64 ->
             serialize (Z * Z) pair_layout_serialize map_to_list t 64
             = Some (written (Z * Z) pair_layout_serialize map_to_list t,
                     Z.of_nat (length (written (Z * Z) pair_layout_serialize
                                         map_to_list t)))).
  { intros t Hwf Hlen.
    apply (serialize_written (Z * Z) pair_layout_serialize pair_layout_create
             map_to_list (fun m => reflexivity _) t Hwf); lia. }
  assert (H1 := Hser example_tree example_tree_wf
                  ltac:(vm_compute; discriminate)).
  assert (H2 := Hser example_leaf example_leaf_wf
                  ltac:(vm_compute; discriminate)).
  eexists _, _, _, _. split; [exact H1|]. split; [exact H2|].
  apply (serialize_unambiguous (Z * Z) pair_layout_serialize
           pair_layout_create map_to_list example_tree example_leaf 64 64
           _ _ [] [1; 2; 3] _ _
           (fun m => reflexivity _) example_tree_wf example_leaf_wf H1 H2).
  - vm_compute. discriminate.
  - vm_compute. discriminate.
  - vm_compute. reflexivity.
  - vm_compute. reflexivity.
  - vm_compute. reflexivity.
  - discriminate.
Defined.

(** X13. The identifiers [encodingLayoutIdentifiers] returns are those, each
    once, for which [encodingLayout] returns a layout rather than [nullptr];
    and [child] returns the children in order for the indices below
    [childrenCount]. *)
Theorem encodingLayoutIdentifiers_found :
  forall (EncodingLayout : Type)
         (iteration_order : gmap Z EncodingLayout -> list (Z * EncodingLayout))
         (t : EncodingLayoutTree EncodingLayout),
    (forall m, iteration_order m ≡ₚ map_to_list m) ->
    NoDup (encodingLayoutIdentifiers iteration_order t)
    /\ length (encodingLayoutIdentifiers iteration_order t)
       = size (encodingLayouts EncodingLayout t)
    /\ (forall id,
          id ∈ encodingLayoutIdentifiers iteration_order t
          <-> is_Some (encodingLayout t id))
    /\ (Z.of_nat (length (children EncodingLayout t)) < 2 ^ 32 ->
        forall (i : nat) c,
          children EncodingLayout t !! i = Some c
          <-> Z.of_nat i < childrenCount t /\ child t (Z.of_nat i) = Some c).
Proof.
  intros EL order t Horder. unfold encodingLayoutIdentifiers, encodingLayout.
  split; [|split; [|split]].
  - rewrite Horder. apply NoDup_fst_map_to_list.
  - rewrite length_fmap, Horder. apply length_map_to_list.
  - intros id. rewrite Horder. split.
    + intros Hin. apply list_elem_of_fmap in Hin.
      destruct Hin as ([id' l] & -> & Hin).
      apply elem_of_map_to_list in Hin. simpl. eauto.
    + intros [l Hl]. apply list_elem_of_fmap. exists (id, l).
      split; [reflexivity|]. apply elem_of_map_to_list. exact Hl.
  - intros Hlen i c. unfold child, childrenCount.
    rewrite wrap32_small by (unfold in_range; lia). rewrite Nat2Z.id. split.
    + intros Hc. pose proof (lookup_lt_Some _ _ _ Hc) as Hi.
      split; [lia|].
      destruct (Z.leb_spec 0 (Z.of_nat i)); [|lia].
      destruct (Z.ltb_spec (Z.of_nat i)
                  (Z.of_nat (length (children EL t)))); [|lia].
      exact Hc.
    + intros [Hi Hc].
      destruct (Z.leb_spec 0 (Z.of_nat i)); [|lia].
      destruct (Z.ltb_spec (Z.of_nat i)
                  (Z.of_nat (length (children EL t)))); [|lia].
      exact Hc.
Qed.

Lemma encodingLayoutIdentifiers_found_witness :
  NoDup (encodingLayoutIdentifiers map_to_list example_tree)
  /\ (0 ∈ encodingLayoutIdentifiers map_to_list example_tree
      <-> is_Some (encodingLayout example_tree 0)).
Proof.
  destruct (encodingLayoutIdentifiers_found (Z * Z) map_to_list example_tree
              (fun m => reflexivity _)) as (Hnd & _ & Hin & _).
  split; [exact Hnd | exact (Hin 0)].
Defined.
End EncodingLayoutTree.

(** ** Flat-map layout planner ([FlatMapLayoutPlanner.cpp]) *)

Module FlatMapLayoutPlanner.

#[local] Set Warnings "-register-all".

(** Modelled from the spec: [TypeBuilder] and its accessors are declared in
    SchemaBuilder.h, which is not among the sources.  A node of the schema
    owns stream descriptors, each with an [offset] (a [uint32_t]): a scalar
    its values; an array its lengths; an array with offsets its offsets and
    lengths; a map its lengths; a row its nulls; a flat map its nulls and,
    per key, the in-map descriptor.  Rows and flat maps name their
    children. *)
Inductive TypeBuilder : Type :=
| Scalar (scalarDescriptor : Z)
| Row (nullsDescriptor : Z) (children : list (string * TypeBuilder))
| Array (lengthsDescriptor : Z) (elements : TypeBuilder)
| ArrayWithOffsets (offsetsDescriptor lengthsDescriptor : Z)
    (elements : TypeBuilder)
| Map (lengthsDescriptor : Z) (keys values : TypeBuilder)
| FlatMap (nullsDescriptor : Z)
    (children : list (string * Z * TypeBuilder)).

(** [struct Stream]: the offset of its descriptor and its content. *)
Record Stream : Type := {
  offset : Z;
  content : list Z
}.

#[export] Instance Stream_eq_dec : EqDecision Stream.
Proof. solve_decision. Defined.

(** [appendAllNestedStreams(type, childrenOffsets)]: the vector after the
    calls to [push_back]. *)
Fixpoint appendAllNestedStreams (type : TypeBuilder) (childrenOffsets : list Z)
  : list Z :=
  match type with
  | Scalar scalarDescriptor => childrenOffsets ++ [scalarDescriptor]
  | Row nullsDescriptor children =>
      (fix eachChild (cs : list (string * TypeBuilder)) (acc : list Z) :=
         match cs with
         | [] => acc
         | (_, child) :: cs' => eachChild cs' (appendAllNestedStreams child acc)
         end) children (childrenOffsets ++ [nullsDescriptor])
  | Array lengthsDescriptor elements =>
      appendAllNestedStreams elements (childrenOffsets ++ [lengthsDescriptor])
  | ArrayWithOffsets offsetsDescriptor lengthsDescriptor elements =>
      appendAllNestedStreams elements
        ((childrenOffsets ++ [offsetsDescriptor]) ++ [lengthsDescriptor])
  | Map lengthsDescriptor keys values =>
      appendAllNestedStreams values
        (appendAllNestedStreams keys (childrenOffsets ++ [lengthsDescriptor]))
  | FlatMap nullsDescriptor children =>
      (fix eachChild (cs : list (string * Z * TypeBuilder)) (acc : list Z) :=
         match cs with
         | [] => acc
         | (_, inMapDescriptor, child) :: cs' =>
             eachChild cs' (appendAllNestedStreams child (acc ++ [inMapDescriptor]))
         end) children (childrenOffsets ++ [nullsDescriptor])
  end.

(** [folly::to<std::string>(feature)] for an [int64_t]: decimal digits, with
    a minus sign for a negative number. *)
Definition to_string (feature : Z) : string :=
  NilZero.string_of_int (Z.to_int feature).

(** How a call ends: with its result, or with the exception of a failed
    [ALPHA_CHECK] (an invalid layout request) or [ALPHA_ASSERT]. *)
Inductive Error : Type := InvalidLayoutRequest | AssertionFailure.

Inductive Outcome (A : Type) : Type :=
| Returned (a : A)
| Raised (e : Error).
Arguments Returned {A} a.
Arguments Raised {A} e.

(** [flatMapNamedOrdinals]: from a feature name to its ordinal; [insert]
    keeps the first ordinal of a name. *)
Fixpoint namedOrdinals (children : list (string * Z * TypeBuilder)) (i : nat)
    (flatMapNamedOrdinals : gmap string nat) : gmap string nat :=
  match children with
  | [] => flatMapNamedOrdinals
  | (name, _, _) :: children' =>
      namedOrdinals children' (S i)
        (match flatMapNamedOrdinals !! name with
         | Some _ => flatMapNamedOrdinals
         | None => <[name := i]> flatMapNamedOrdinals
         end)
  end.

(** The body of the loop over the features of one flat map. *)
Definition appendFeature (children : list (string * Z * TypeBuilder))
    (flatMapNamedOrdinals : gmap string nat)
    (orderedFlatMapOffsets : list Z) (feature : Z) : list Z :=
  match flatMapNamedOrdinals !! to_string feature with
  | None => orderedFlatMapOffsets
  | Some ordinal =>
      match children !! ordinal with
      | Some (_, inMapDescriptor, child) =>
          appendAllNestedStreams child
            (orderedFlatMapOffsets ++ [inMapDescriptor])
      | None => orderedFlatMapOffsets
      end
  end.

(** The body of the loop over [flatMapFeatureOrder_]; the column ordinal is
    a [size_t]. *)
Definition appendFlatMap (rootChildren : list (string * TypeBuilder))
    (orderedFlatMapOffsets : list Z) (flatMapFeatures : nat * list Z)
  : Outcome (list Z) :=
  let '(ordinal, features) := flatMapFeatures in
  if negb (ordinal <? length rootChildren)%nat then Raised InvalidLayoutRequest
  else
    match rootChildren !! ordinal with
    | Some (_, FlatMap nullsDescriptor children) =>
        Returned
          (fold_left (appendFeature children (namedOrdinals children 0 ∅))
             features (orderedFlatMapOffsets ++ [nullsDescriptor]))
    | _ => Raised InvalidLayoutRequest
    end.

Fixpoint appendFlatMaps (rootChildren : list (string * TypeBuilder))
    (flatMapFeatureOrder : list (nat * list Z))
    (orderedFlatMapOffsets : list Z) : Outcome (list Z) :=
  match flatMapFeatureOrder with
  | [] => Returned orderedFlatMapOffsets
  | flatMapFeatures :: rest =>
      match appendFlatMap rootChildren orderedFlatMapOffsets flatMapFeatures with
      | Returned offsets => appendFlatMaps rootChildren rest offsets
      | Raised e => Raised e
      end
  end.

(** [offsetsToStreams]: from an offset to the stream that has it; of two
    streams with one offset the first is kept. *)
Definition offsetsToStreams (streams : list Stream) : gmap Z Stream :=
  fold_left
    (fun m stream =>
       match m !! offset stream with
       | Some _ => m
       | None => <[offset stream := stream]> m
       end) streams ∅.

(** [tryAppendStream(offset)] acting on [offsetsToStreams] and [layout]. *)
Definition tryAppendStream (state : gmap Z Stream * list Stream) (offset : Z)
  : gmap Z Stream * list Stream :=
  let '(offsetsToStreams, layout) := state in
  match offsetsToStreams !! offset with
  | Some stream => (delete offset offsetsToStreams, layout ++ [stream])
  | None => (offsetsToStreams, layout)
  end.

(** [FlatMapLayoutPlanner::getLayout(streams)]; [type] is what
    [typeResolver_()] returns. *)
Definition getLayout (type : TypeBuilder)
    (flatMapFeatureOrder : list (nat * list Z)) (streams : list Stream)
  : Outcome (list Stream) :=
  match type with
  | Row nullsDescriptor children =>
      match appendFlatMaps children flatMapFeatureOrder [] with
      | Raised e => Raised e
      | Returned orderedFlatMapOffsets =>
          let orderedAllOffsets := appendAllNestedStreams type [] in
          let state := (offsetsToStreams streams, []) in
          let state := tryAppendStream state nullsDescriptor in
          let state := fold_left tryAppendStream orderedFlatMapOffsets state in
          let state := fold_left tryAppendStream orderedAllOffsets state in
          if (length streams =? length state.2)%nat
          then Returned state.2
          else Raised AssertionFailure
      end
  | _ => Raised AssertionFailure
  end.

(** A schema to run the examples with: a row with an integer column, a flat
    map with the features "1", "2" and "3" (the last with an array value)
    and a map column. *)
Definition example_schema : TypeBuilder :=
  Row 0
    [ ("id", Scalar 1);
      ("features",
        FlatMap 2 [ ("1", 3, Scalar 4); ("2", 5, Scalar 6);
                    ("3", 7, Array 8 (Scalar 9)) ]);
      ("tags", Map 10 (Scalar 11) (Scalar 12)) ]%string.

Definition stream_at (o : Z) : Stream := {| offset := o; content := [o] |}.

Definition example_streams : list Stream :=
  map stream_at [0; 1; 2; 3; 4; 5; 6; 7; 8; 9; 10; 11; 12].

(** *** The streams are kept *)

#[local] Set Warnings "-clear-no-such-hyp".

(** The streams held by [offsetsToStreams]. *)
Definition held (m : gmap Z Stream) : list Stream := (map_to_list m).*2.

Definition keepFirst (m : gmap Z Stream) (stream : Stream) : gmap Z Stream :=
  match m !! offset stream with
  | Some _ => m
  | None => <[offset stream := stream]> m
  end.

Lemma offsetsToStreams_fold (streams : list Stream) :
  offsetsToStreams streams = fold_left keepFirst streams ∅.
Proof. reflexivity. Qed.

Lemma held_insert (m : gmap Z Stream) (o : Z) (s : Stream) :
  m !! o = None -> held (<[o := s]> m) ≡ₚ s :: held m.
Proof. intros H. unfold held. now rewrite map_to_list_insert. Qed.

Lemma held_delete (m : gmap Z Stream) (o : Z) (s : Stream) :
  m !! o = Some s -> s :: held (delete o m) ≡ₚ held m.
Proof.
  intros H. unfold held. rewrite <- (map_to_list_delete m o s H). reflexivity.
Qed.

Lemma held_keepFirst (streams : list Stream) :
  forall m : gmap Z Stream,
    held (fold_left keepFirst streams m) ⊆+ held m ++ streams.
Proof.
  induction streams as [|s streams IH]; intros m; cbn [fold_left].
  - now rewrite app_nil_r.
  - etransitivity; [apply IH|]. unfold keepFirst.
    destruct (m !! offset s) eqn:Hm.
    + apply submseteq_skips_l. now constructor.
    + rewrite (held_insert m _ s Hm).
      apply Permutation_submseteq. simpl. apply Permutation_middle.
Qed.

(** With pairwise different offsets no stream is left out of the table. *)
Lemma held_keepFirst_NoDup (streams : list Stream) :
  forall m : gmap Z Stream,
    NoDup (offset <$> streams) ->
    (forall s, s ∈ streams -> m !! offset s = None) ->
    held (fold_left keepFirst streams m) ≡ₚ held m ++ streams
    /\ (forall o, is_Some (fold_left keepFirst streams m !! o)
                  <-> is_Some (m !! o) \/ o ∈ offset <$> streams).
Proof.
  induction streams as [|s streams IH]; intros m Hnd Hfresh; cbn [fold_left].
  - split; [now rewrite app_nil_r|]. intros o. rewrite fmap_nil. set_solver.
  - rewrite fmap_cons in Hnd. apply NoDup_cons in Hnd. destruct Hnd as [Hs Hnd].
    unfold keepFirst at 2 4. rewrite (Hfresh s) by set_solver.
    destruct (IH (<[offset s := s]> m) Hnd) as [Hperm Hdom].
    { intros s' Hs'. rewrite lookup_insert_ne; [apply Hfresh; set_solver|].
      intros Heq. apply Hs. rewrite Heq. apply list_elem_of_fmap. eauto. }
    split.
    + rewrite Hperm, held_insert by (apply Hfresh; set_solver).
      simpl. apply Permutation_middle.
    + intros o. rewrite Hdom, fmap_cons, elem_of_cons.
      destruct (decide (o = offset s)) as [->|Hne].
      * rewrite lookup_insert_eq. split; [intros _|eauto]. right; now left.
      * rewrite lookup_insert_ne by congruence. tauto.
Qed.

Lemma tryAppendStream_keeps (state : gmap Z Stream * list Stream) (o : Z) :
  (tryAppendStream state o).2 ++ held (tryAppendStream state o).1
  ≡ₚ state.2 ++ held state.1.
Proof.
  destruct state as [m layout]. unfold tryAppendStream.
  destruct (m !! o) as [s|] eqn:Hm; simpl; [|reflexivity].
  rewrite <- (held_delete m o s Hm), <- app_assoc. reflexivity.
Qed.

Lemma fold_tryAppendStream_keeps (offsets : list Z) :
  forall state : gmap Z Stream * list Stream,
    (fold_left tryAppendStream offsets state).2
      ++ held (fold_left tryAppendStream offsets state).1
    ≡ₚ state.2 ++ held state.1.
Proof.
  induction offsets as [|o offsets IH]; intros state; cbn [fold_left].
  - reflexivity.
  - rewrite IH. apply tryAppendStream_keeps.
Qed.

(** What is left in the table after a pass over [offsets]. *)
Lemma fold_tryAppendStream_left (offsets : list Z) :
  forall (state : gmap Z Stream * list Stream) (o : Z),
    (fold_left tryAppendStream offsets state).1 !! o
    = if decide (o ∈ offsets) then None else state.1 !! o.
Proof.
  induction offsets as [|x offsets IH]; intros [m layout] o; cbn [fold_left].
  - rewrite decide_False by set_solver. reflexivity.
  - rewrite IH. unfold tryAppendStream.
    destruct (decide (o ∈ offsets)) as [Hin|Hnin].
    + rewrite decide_True by set_solver. reflexivity.
    + destruct (decide (o = x)) as [->|Hne].
      * rewrite decide_True by set_solver.
        destruct (m !! x) eqn:Hm; simpl; [apply lookup_delete_eq | exact Hm].
      * rewrite decide_False by set_solver.
        destruct (m !! x); simpl; [now rewrite lookup_delete_ne|reflexivity].
Qed.

(** The state of [getLayout] before its final assertion. *)
Definition finalState (nullsDescriptor : Z)
    (orderedFlatMapOffsets orderedAllOffsets : list Z) (streams : list Stream)
  : gmap Z Stream * list Stream :=
  fold_left tryAppendStream orderedAllOffsets
    (fold_left tryAppendStream orderedFlatMapOffsets
       (tryAppendStream (offsetsToStreams streams, []) nullsDescriptor)).

Lemma finalState_submseteq nulls ordered all streams :
  (finalState nulls ordered all streams).2 ⊆+ streams.
Proof.
  assert (H : (finalState nulls ordered all streams).2
                ++ held (finalState nulls ordered all streams).1
              ≡ₚ held (offsetsToStreams streams)).
  { unfold finalState.
    rewrite !fold_tryAppendStream_keeps, tryAppendStream_keeps. reflexivity. }
  transitivity ((finalState nulls ordered all streams).2
                  ++ held (finalState nulls ordered all streams).1).
  { apply submseteq_inserts_r. reflexivity. }
  rewrite H, offsetsToStreams_fold.
  etransitivity; [apply held_keepFirst|]. unfold held at 1.
  rewrite map_to_list_empty. reflexivity.
Qed.

Lemma getLayout_Row_unfold nulls children order streams :
  getLayout (Row nulls children) order streams
  = match appendFlatMaps children order [] with
    | Raised e => Raised e
    | Returned ordered =>
        let state :=
          finalState nulls ordered
            (appendAllNestedStreams (Row nulls children) []) streams in
        if (length streams =? length state.2)%nat
        then Returned state.2 else Raised AssertionFailure
    end.
Proof. reflexivity. Qed.

Lemma getLayout_Permutation type order streams layout :
  getLayout type order streams = Returned layout -> layout ≡ₚ streams.
Proof.
  destruct type as [| nulls children | | | |]; try discriminate.
  rewrite getLayout_Row_unfold.
  destruct (appendFlatMaps children order []) as [ordered|e]; [|discriminate].
  cbv zeta.
  destruct (Nat.eqb_spec (length streams)
              (length (finalState nulls ordered
                         (appendAllNestedStreams (Row nulls children) [])
                         streams).2)) as [Hlen|Hlen]; [|discriminate].
  intros Hl. inversion Hl; subst layout; clear Hl.
  apply submseteq_length_Permutation; [apply finalState_submseteq|].
  apply Nat.eq_le_incl. exact Hlen.
Qed.

(** *** The order of the layout *)

(** Following the description: the streams of a subtree in schema preorder,
    a node's own descriptors first. *)
Fixpoint schema_preorder (t : TypeBuilder) : list Z :=
  match t with
  | Scalar values => [values]
  | Row nulls children =>
      nulls :: flat_map (fun c => schema_preorder c.2) children
  | Array lengths elements => lengths :: schema_preorder elements
  | ArrayWithOffsets offsets lengths elements =>
      offsets :: lengths :: schema_preorder elements
  | Map lengths keys values =>
      lengths :: schema_preorder keys ++ schema_preorder values
  | FlatMap nulls features =>
      nulls :: flat_map (fun f => f.1.2 :: schema_preorder f.2) features
  end.

(** Following the description: the feature of a flat map that has a given
    name, if the schema has one. *)
Definition feature_named (features : list (string * Z * TypeBuilder))
    (key : string) : option (string * Z * TypeBuilder) :=
  snd <$> list_find (fun f => f.1.1 = key) features.

(** Following the description: what one configured column asks for: the
    flat map's nulls stream, then for each requested key present in the
    schema the in-map stream and the streams of the value subtree. *)
Definition requested_streams (children : list (string * TypeBuilder))
    (entry : nat * list Z) : list Z :=
  match children !! entry.1 with
  | Some (_, FlatMap nulls features) =>
      nulls :: flat_map
                 (fun key =>
                    match feature_named features (to_string key) with
                    | Some (_, inMap, value) => inMap :: schema_preorder value
                    | None => []
                    end) entry.2
  | _ => []
  end.

(** Following the description: root nulls, the configured columns in
    configuration order, then every stream in schema preorder. *)
Definition planned_offsets (nulls : Z) (children : list (string * TypeBuilder))
    (order : list (nat * list Z)) : list Z :=
  nulls :: flat_map (requested_streams children) order
    ++ schema_preorder (Row nulls children).

(** Each offset once, at its first place. *)
Fixpoint first_occurrences (offsets : list Z) : list Z :=
  match offsets with
  | [] => []
  | o :: offsets' => o :: filter (fun o' => o' <> o) (first_occurrences offsets')
  end.

(** The stream of the input that has a given offset. *)
Definition stream_with_offset (streams : list Stream) (o : Z) : option Stream :=
  snd <$> list_find (fun s => offset s = o) streams.

Lemma TypeBuilder_induction (P : TypeBuilder -> Prop) :
  (forall d, P (Scalar d)) ->
  (forall n cs, Forall (fun c => P c.2) cs -> P (Row n cs)) ->
  (forall l e, P e -> P (Array l e)) ->
  (forall o l e, P e -> P (ArrayWithOffsets o l e)) ->
  (forall l k v, P k -> P v -> P (Map l k v)) ->
  (forall n cs, Forall (fun c => P c.2) cs -> P (FlatMap n cs)) ->
  forall t, P t.
Proof.
  intros Hs Hr Ha Hw Hm Hf. fix IH 1. intros [d|n cs|l e|o l e|l k v|n cs].
  - apply Hs.
  - apply Hr. induction cs as [|[name c] cs IHcs]; constructor;
      [apply IH | exact IHcs].
  - apply Ha, IH.
  - apply Hw, IH.
  - apply Hm; apply IH.
  - apply Hf. induction cs as [|[[name inMap] c] cs IHcs]; constructor;
      [apply IH | exact IHcs].
Qed.

Lemma appendAllNestedStreams_preorder (t : TypeBuilder) :
  forall acc, appendAllNestedStreams t acc = acc ++ schema_preorder t.
Proof.
  induction t as [d|n cs IH|l e IH|o l e IH|l k v IHk IHv|n cs IH]
    using TypeBuilder_induction; intros acc; cbn [appendAllNestedStreams schema_preorder].
  - reflexivity.
  - change (acc ++ n :: flat_map (fun c => schema_preorder c.2) cs)
      with (acc ++ [n] ++ flat_map (fun c => schema_preorder c.2) cs).
    rewrite app_assoc. generalize (acc ++ [n]). clear acc.
    induction IH as [|[name c] cs Hc _ IHcs]; intros acc; cbn [flat_map].
    + now rewrite app_nil_r.
    + rewrite IHcs. cbn [snd] in *. rewrite Hc. now rewrite <- app_assoc.
  - rewrite IH. now rewrite <- app_assoc.
  - rewrite IH. now rewrite <- !app_assoc.
  - rewrite IHv, IHk. now rewrite <- !app_assoc.
  - change (acc ++ n :: flat_map (fun f => f.1.2 :: schema_preorder f.2) cs)
      with (acc ++ [n] ++ flat_map (fun f => f.1.2 :: schema_preorder f.2) cs).
    rewrite app_assoc. generalize (acc ++ [n]). clear acc.
    induction IH as [|[[name inMap] c] cs Hc _ IHcs]; intros acc; cbn [flat_map].
    + now rewrite app_nil_r.
    + rewrite IHcs. cbn [fst snd] in *. rewrite Hc. now rewrite <- !app_assoc.
Qed.

Lemma namedOrdinals_lookup (features : list (string * Z * TypeBuilder)) :
  forall (i : nat) (m : gmap string nat) (key : string),
    namedOrdinals features i m !! key
    = match m !! key with
      | Some j => Some j
      | None =>
          (fun p => (i + p.1)%nat) <$> list_find (fun f => f.1.1 = key) features
      end.
Proof.
  induction features as [|[[name inMap] c] features IH]; intros i m key;
    cbn [namedOrdinals].
  - destruct (m !! key); reflexivity.
  - rewrite IH. cbn [list_find fst].
    destruct (decide (name = key)) as [->|Hne].
    + destruct (m !! key) as [j|] eqn:Hm.
      * now rewrite Hm.
      * rewrite lookup_insert_eq. simpl. f_equal. lia.
    + assert (Hm : (match m !! name with
                    | Some _ => m
                    | None => <[name:=i]> m
                    end) !! key = m !! key).
      { destruct (m !! name); [reflexivity|]. now rewrite lookup_insert_ne. }
      rewrite Hm. destruct (m !! key); [reflexivity|].
      destruct (list_find (fun f => f.1.1 = key) features) as [[k f]|]; simpl;
        [f_equal; lia | reflexivity].
Qed.

Lemma appendFeature_requested (features : list (string * Z * TypeBuilder))
    (acc : list Z) (feature : Z) :
  appendFeature features (namedOrdinals features 0 ∅) acc feature
  = acc ++ match feature_named features (to_string feature) with
           | Some (_, inMap, value) => inMap :: schema_preorder value
           | None => []
           end.
Proof.
  unfold appendFeature, feature_named.
  rewrite namedOrdinals_lookup, lookup_empty.
  destruct (list_find (fun f => f.1.1 = to_string feature) features)
    as [[k [[name inMap] c]]|] eqn:Hfind; simpl.
  - apply list_find_Some in Hfind. destruct Hfind as (Hk & _ & _).
    rewrite Hk. rewrite appendAllNestedStreams_preorder.
    now rewrite <- app_assoc.
  - now rewrite app_nil_r.
Qed.

Lemma fold_appendFeature_requested (features : list (string * Z * TypeBuilder))
    (keys : list Z) :
  forall acc,
    fold_left (appendFeature features (namedOrdinals features 0 ∅)) keys acc
    = acc ++ flat_map
               (fun key =>
                  match feature_named features (to_string key) with
                  | Some (_, inMap, value) => inMap :: schema_preorder value
                  | None => []
                  end) keys.
Proof.
  induction keys as [|key keys IH]; intros acc; cbn [fold_left flat_map].
  - now rewrite app_nil_r.
  - rewrite IH, appendFeature_requested. now rewrite <- app_assoc.
Qed.

Lemma appendFlatMap_requested children acc entry offsets :
  appendFlatMap children acc entry = Returned offsets ->
  offsets = acc ++ requested_streams children entry.
Proof.
  destruct entry as [ordinal keys]. unfold appendFlatMap, requested_streams.
  destruct (negb (ordinal <? length children)%nat); [discriminate|].
  cbn [fst snd].
  destruct (children !! ordinal) as [[name [| | | | |nulls features]]|];
    try discriminate.
  intros Hr. inversion Hr; subst offsets.
  rewrite fold_appendFeature_requested. now rewrite <- app_assoc.
Qed.

Lemma appendFlatMaps_requested children order :
  forall acc offsets,
    appendFlatMaps children order acc = Returned offsets ->
    offsets = acc ++ flat_map (requested_streams children) order.
Proof.
  induction order as [|entry order IH]; intros acc offsets;
    cbn [appendFlatMaps flat_map].
  - intros Hr. inversion Hr. now rewrite app_nil_r.
  - destruct (appendFlatMap children acc entry) as [offsets'|e] eqn:He;
      [|discriminate].
    intros Hr. apply IH in Hr. apply appendFlatMap_requested in He.
    subst. now rewrite <- app_assoc.
Qed.

Lemma omap_lookup_delete (m : gmap Z Stream) (x : Z) (l : list Z) :
  omap (fun o => delete x m !! o) l
  = omap (fun o => m !! o) (filter (fun o' => o' <> x) l).
Proof.
  induction l as [|o l IH]; [reflexivity|].
  rewrite filter_cons. destruct (decide (o <> x)) as [Hne|Heq].
  - cbn [omap list_omap]. rewrite lookup_delete_ne by congruence.
    destruct (m !! o); now rewrite IH.
  - assert (o = x) by (destruct (decide (o = x)); tauto). subst o.
    cbn [omap list_omap]. rewrite lookup_delete_eq. exact IH.
Qed.

Lemma omap_lookup_absent (m : gmap Z Stream) (x : Z) (l : list Z) :
  m !! x = None ->
  omap (fun o => m !! o) (filter (fun o' => o' <> x) l)
  = omap (fun o => m !! o) l.
Proof.
  intros Hx. induction l as [|o l IH]; [reflexivity|].
  rewrite filter_cons. destruct (decide (o <> x)) as [Hne|Heq].
  - cbn [omap list_omap]. now rewrite IH.
  - assert (o = x) by (destruct (decide (o = x)); tauto). subst o.
    cbn [omap list_omap]. rewrite Hx. exact IH.
Qed.

Lemma fold_tryAppendStream_layout (offsets : list Z) :
  forall (m : gmap Z Stream) (layout : list Stream),
    (fold_left tryAppendStream offsets (m, layout)).2
    = layout ++ omap (fun o => m !! o) (first_occurrences offsets).
Proof.
  induction offsets as [|x offsets IH]; intros m layout;
    cbn [fold_left first_occurrences].
  - simpl. now rewrite app_nil_r.
  - unfold tryAppendStream at 2. cbn [omap list_omap].
    destruct (m !! x) as [s|] eqn:Hx.
    + rewrite IH, omap_lookup_delete. now rewrite <- app_assoc.
    + rewrite IH. now rewrite omap_lookup_absent.
Qed.

Lemma keepFirst_lookup (streams : list Stream) :
  forall (m : gmap Z Stream) (o : Z),
    fold_left keepFirst streams m !! o
    = match m !! o with
      | Some s => Some s
      | None => stream_with_offset streams o
      end.
Proof.
  unfold stream_with_offset.
  induction streams as [|s streams IH]; intros m o; cbn [fold_left].
  - destruct (m !! o); reflexivity.
  - rewrite IH. unfold keepFirst. cbn [list_find].
    destruct (decide (offset s = o)) as [<-|Hne].
    + destruct (m !! offset s) as [s'|] eqn:Hm.
      * now rewrite Hm.
      * now rewrite lookup_insert_eq.
    + assert (Hm : (match m !! offset s with
                    | Some _ => m
                    | None => <[offset s:=s]> m
                    end) !! o = m !! o).
      { destruct (m !! offset s); [reflexivity|]. now rewrite lookup_insert_ne. }
      rewrite Hm. destruct (m !! o); [reflexivity|].
      destruct (list_find (fun s0 => offset s0 = o) streams) as [[k s']|];
        reflexivity.
Qed.

Lemma omap_pointwise {A B : Type} (f g : A -> option B) (l : list A) :
  (forall x, f x = g x) -> omap f l = omap g l.
Proof.
  intros Hfg. induction l as [|x l IH]; [reflexivity|].
  cbn [omap list_omap]. now rewrite Hfg, IH.
Qed.

Lemma finalState_layout nulls ordered all streams :
  (finalState nulls ordered all streams).2
  = omap (stream_with_offset streams)
      (first_occurrences (nulls :: ordered ++ all)).
Proof.
  unfold finalState.
  change (tryAppendStream (offsetsToStreams streams, []) nulls)
    with (fold_left tryAppendStream [nulls] (offsetsToStreams streams, [])).
  rewrite <- !fold_left_app.
  rewrite fold_tryAppendStream_layout. cbn [app].
  apply omap_pointwise. intros o.
  rewrite offsetsToStreams_fold, keepFirst_lookup, lookup_empty. reflexivity.
Qed.

(** When the call returns, its result is the planned order, each offset at
    its first place, with the input stream of that offset put for it. *)
Lemma getLayout_planned nulls children order streams layout :
  getLayout (Row nulls children) order streams = Returned layout ->
  layout = omap (stream_with_offset streams)
             (first_occurrences (planned_offsets nulls children order)).
Proof.
  rewrite getLayout_Row_unfold, appendAllNestedStreams_preorder.
  destruct (appendFlatMaps children order []) as [ordered|e] eqn:Hord;
    [|discriminate].
  cbv zeta. rewrite finalState_layout.
  destruct (length streams =? length _)%nat; [|discriminate].
  intros Hl. inversion Hl; subst layout; clear Hl.
  apply appendFlatMaps_requested in Hord. rewrite Hord. reflexivity.
Qed.

(** *** Requests that are refused and features that are skipped *)

(** The column of this ordinal exists and is a flat map. *)
Definition flat_map_column (children : list (string * TypeBuilder))
    (ordinal : nat) : Prop :=
  exists name nulls features,
    children !! ordinal = Some (name, FlatMap nulls features).

Lemma appendFlatMap_cases children acc (entry : nat * list Z) :
  (flat_map_column children entry.1
   /\ exists offsets, appendFlatMap children acc entry = Returned offsets)
  \/ (~ flat_map_column children entry.1
      /\ appendFlatMap children acc entry = Raised InvalidLayoutRequest).
Proof.
  destruct entry as [ordinal keys]. unfold appendFlatMap, flat_map_column.
  cbn [fst].
  destruct (Nat.ltb_spec ordinal (length children)) as [Hlt|Hge]; cbn [negb].
  - destruct (children !! ordinal) as [[name t]|] eqn:Hc.
    + destruct t; try (right; split; [intros (? & ? & ? & [=]) | reflexivity]).
      left. split; eauto.
    + right. split; [intros (? & ? & ? & [=]) | reflexivity].
  - right. split; [|reflexivity]. intros (name & nulls & features & Hc).
    apply lookup_lt_Some in Hc. lia.
Qed.

Lemma appendFlatMaps_valid children order :
  Forall (fun entry => flat_map_column children entry.1) order ->
  forall acc, exists offsets,
    appendFlatMaps children order acc = Returned offsets.
Proof.
  induction 1 as [|entry order Hentry _ IH]; intros acc; cbn [appendFlatMaps].
  - eauto.
  - destruct (appendFlatMap_cases children acc entry)
      as [[_ [offsets ->]]|[Hno _]]; [apply IH | contradiction].
Qed.

Lemma appendFlatMaps_invalid children order :
  Exists (fun entry => ~ flat_map_column children entry.1) order ->
  forall acc, appendFlatMaps children order acc = Raised InvalidLayoutRequest.
Proof.
  induction 1 as [entry order Hentry|entry order _ IH]; intros acc;
    cbn [appendFlatMaps];
    destruct (appendFlatMap_cases children acc entry)
      as [[Hyes [offsets ->]]|[_ ->]]; try reflexivity.
  - contradiction.
  - apply IH.
Qed.

Lemma appendFlatMaps_app children order1 order2 :
  forall acc,
    appendFlatMaps children (order1 ++ order2) acc
    = match appendFlatMaps children order1 acc with
      | Returned offsets => appendFlatMaps children order2 offsets
      | Raised e => Raised e
      end.
Proof.
  induction order1 as [|entry order1 IH]; intros acc; cbn [appendFlatMaps app].
  - reflexivity.
  - destruct (appendFlatMap children acc entry); [apply IH | reflexivity].
Qed.

Lemma feature_named_absent (features : list (string * Z * TypeBuilder))
    (key : string) :
  Forall (fun f => f.1.1 <> key) features -> feature_named features key = None.
Proof.
  intros Hall. unfold feature_named.
  destruct (list_find (fun f => f.1.1 = key) features) as [[k f]|] eqn:Hfind;
    [|reflexivity].
  apply list_find_Some in Hfind. destruct Hfind as (Hk & Hname & _).
  rewrite Forall_forall in Hall. exfalso. apply (Hall f); [|exact Hname].
  apply list_elem_of_lookup. eauto.
Qed.

Lemma appendFlatMap_absent_feature children acc ordinal keys1 key keys2
    name nulls features :
  children !! ordinal = Some (name, FlatMap nulls features) ->
  Forall (fun f => f.1.1 <> to_string key) features ->
  appendFlatMap children acc (ordinal, keys1 ++ key :: keys2)
  = appendFlatMap children acc (ordinal, keys1 ++ keys2).
Proof.
  intros Hc Habsent. unfold appendFlatMap. rewrite Hc.
  destruct (negb (ordinal <? length children)%nat); [reflexivity|].
  f_equal. rewrite !fold_left_app. cbn [fold_left].
  rewrite (appendFeature_requested features _ key).
  rewrite (feature_named_absent features _ Habsent). now rewrite app_nil_r.
Qed.

Lemma getLayout_returns nulls children order streams :
  Forall (fun entry => flat_map_column children entry.1) order ->
  NoDup (offset <$> streams) ->
  (forall s, s ∈ streams -> offset s ∈ schema_preorder (Row nulls children)) ->
  exists layout, getLayout (Row nulls children) order streams = Returned layout.
Proof.
  intros Hvalid Hnd Hin. rewrite getLayout_Row_unfold.
  destruct (appendFlatMaps_valid children order Hvalid []) as [ordered ->].
  cbv zeta. rewrite appendAllNestedStreams_preorder. cbn [app].
  set (all := schema_preorder (Row nulls children)) in *.
  set (final := finalState nulls ordered all streams).
  destruct (held_keepFirst_NoDup streams ∅ Hnd) as [Hheld Hdom].
  { intros s _. apply lookup_empty. }
  assert (Hempty : final.1 = ∅).
  { apply map_eq. intros o. rewrite lookup_empty. unfold final, finalState.
    rewrite fold_tryAppendStream_left.
    destruct (decide (o ∈ all)) as [Hall|Hall]; [reflexivity|].
    rewrite fold_tryAppendStream_left.
    destruct (decide (o ∈ ordered)); [reflexivity|].
    change (tryAppendStream (offsetsToStreams streams, []) nulls)
      with (fold_left tryAppendStream [nulls] (offsetsToStreams streams, [])).
    rewrite fold_tryAppendStream_left.
    destruct (decide (o ∈ [nulls])); [reflexivity|]. cbn [fst].
    destruct (offsetsToStreams streams !! o) as [s|] eqn:Hs; [|reflexivity].
    exfalso. apply Hall.
    assert (Ho : o ∈ offset <$> streams).
    { rewrite offsetsToStreams_fold in Hs.
      destruct (Hdom o) as [Hd _]. destruct Hd as [Hd|Hd]; [eauto| |exact Hd].
      rewrite lookup_empty in Hd. destruct Hd; discriminate. }
    apply list_elem_of_fmap in Ho. destruct Ho as (s' & -> & Hs').
    apply Hin. exact Hs'. }
  assert (Hperm : final.2 ≡ₚ streams).
  { assert (H : final.2 ++ held final.1 ≡ₚ held (offsetsToStreams streams)).
    { unfold final, finalState.
      rewrite !fold_tryAppendStream_keeps, tryAppendStream_keeps. reflexivity. }
    rewrite Hempty in H. unfold held at 1 in H.
    rewrite map_to_list_empty, app_nil_r in H. rewrite H.
    rewrite offsetsToStreams_fold, Hheld. unfold held.
    now rewrite map_to_list_empty. }
  rewrite (Permutation_length Hperm), Nat.eqb_refl. eauto.
Qed.

Lemma offsets_of_found (streams : list Stream) (offsets : list Z) :
  offset <$> omap (stream_with_offset streams) offsets
  = filter (fun o => o ∈ offset <$> streams) offsets.
Proof.
  induction offsets as [|o offsets IH]; [reflexivity|].
  cbn [omap list_omap]. rewrite filter_cons. unfold stream_with_offset at 1.
  destruct (list_find (fun s => offset s = o) streams) as [[k s]|] eqn:Hfind;
    cbn [fmap option_fmap option_map snd].
  - apply list_find_Some in Hfind. destruct Hfind as (Hk & Ho & _).
    rewrite decide_True.
    + rewrite fmap_cons, Ho. f_equal. exact IH.
    + apply list_elem_of_fmap. exists s. split; [now symmetry|].
      apply list_elem_of_lookup. eauto.
  - rewrite decide_False; [exact IH|].
    intros Hin. apply list_elem_of_fmap in Hin. destruct Hin as (s & Ho & Hs).
    apply list_find_None in Hfind. rewrite Forall_forall in Hfind.
    apply (Hfind s Hs). now symmetry.
Qed.

Definition example_order : list (nat * list Z) := [(1%nat, [3; 99; 1])].

Definition example_layout : list Stream :=
  map stream_at [0; 2; 7; 8; 9; 3; 4; 1; 5; 6; 10; 11; 12].

(** C6. Whatever the schema, the configuration and the input streams, a
    layout that [getLayout] returns is a permutation of the input streams.
    The call does return when the root is a row, every configured column is
    a flat map, and the input streams have pairwise different offsets, all
    of them offsets of the schema; otherwise it raises. *)
Theorem getLayout_is_permutation :
  forall (type : TypeBuilder) (flatMapFeatureOrder : list (nat * list Z))
         (streams : list Stream),
    (forall layout,
        getLayout type flatMapFeatureOrder streams = Returned layout ->
        layout ≡ₚ streams)
    /\ (forall nulls children,
          type = Row nulls children ->
          Forall (fun entry => flat_map_column children entry.1)
            flatMapFeatureOrder ->
          NoDup (offset <$> streams) ->
          (forall s, s ∈ streams -> offset s ∈ schema_preorder type) ->
          exists layout,
            getLayout type flatMapFeatureOrder streams = Returned layout).
Proof.
  intros type order streams. split.
  - intros layout. apply getLayout_Permutation.
  - intros nulls children -> Hvalid Hnd Hin.
    apply getLayout_returns; assumption.
Qed.

Lemma getLayout_is_permutation_witness :
  getLayout example_schema example_order example_streams
    = Returned example_layout
  /\ example_layout ≡ₚ example_streams.
Proof.
  assert (H : getLayout example_schema example_order example_streams
              = Returned example_layout) by (vm_compute; reflexivity).
  split; [exact H|].
  exact (proj1 (getLayout_is_permutation example_schema example_order
                  example_streams) example_layout H).
Defined.

(** C7. For a schema rooted at a row, a layout that [getLayout] returns is
    the planned order (root nulls; then per configured column its nulls and,
    for each requested key the schema has, the in-map stream and the value
    subtree in preorder; then every stream in schema preorder), each offset
    taken at its first place, with the input stream of that offset put for
    it.  So the root nulls stream, when given, comes first, and the offsets
    of the layout are the planned ones that are offsets of input streams. *)
Theorem getLayout_follows_plan :
  forall (nulls : Z) (children : list (string * TypeBuilder))
         (flatMapFeatureOrder : list (nat * list Z))
         (streams layout : list Stream),
    getLayout (Row nulls children) flatMapFeatureOrder streams
      = Returned layout ->
    layout = omap (stream_with_offset streams)
               (first_occurrences
                  (planned_offsets nulls children flatMapFeatureOrder))
    /\ (forall s, stream_with_offset streams nulls = Some s ->
                  exists rest, layout = s :: rest)
    /\ offset <$> layout
       = filter (fun o => o ∈ offset <$> streams)
           (first_occurrences
              (planned_offsets nulls children flatMapFeatureOrder)).
Proof.
  intros nulls children order streams layout Hl.
  apply getLayout_planned in Hl. split; [exact Hl|]. split.
  - intros s Hs. rewrite Hl. unfold planned_offsets.
    cbn [first_occurrences omap list_omap]. rewrite Hs. eauto.
  - rewrite Hl. apply offsets_of_found.
Qed.

Lemma getLayout_follows_plan_witness :
  getLayout example_schema example_order example_streams
    = Returned example_layout
  /\ offset <$> example_layout
     = filter (fun o => o ∈ offset <$> example_streams)
         (first_occurrences
            (planned_offsets 0
               [ ("id", Scalar 1);
                 ("features",
                   FlatMap 2 [ ("1", 3, Scalar 4); ("2", 5, Scalar 6);
                               ("3", 7, Array 8 (Scalar 9)) ]);
                 ("tags", Map 10 (Scalar 11) (Scalar 12)) ]%string
               example_order)).
Proof.
  assert (H : getLayout example_schema example_order example_streams
              = Returned example_layout) by (vm_compute; reflexivity).
  split; [exact H|].
  exact (proj2 (proj2 (getLayout_follows_plan _ _ _ _ _ H))).
Defined.

(** C8. With a row at the root, [getLayout] raises an invalid layout
    request as soon as the configuration has a column ordinal that is not a
    flat map of the root, in particular one past the root's last child.  A
    requested key that no feature of the flat map is named after changes
    nothing: the call ends as it does without that key, and with only flat
    maps configured and input streams of the schema it returns a layout. *)
Theorem getLayout_refuses_columns_and_skips_features :
  forall (nulls : Z) (children : list (string * TypeBuilder))
         (streams : list Stream),
    (forall order,
        Exists (fun entry => ~ flat_map_column children entry.1) order ->
        getLayout (Row nulls children) order streams
        = Raised InvalidLayoutRequest)
    /\ (forall order (entry : nat * list Z),
          entry ∈ order -> (length children <= entry.1)%nat ->
          getLayout (Row nulls children) order streams
          = Raised InvalidLayoutRequest)
    /\ (forall before after ordinal keys1 key keys2 name fmNulls features,
          children !! ordinal = Some (name, FlatMap fmNulls features) ->
          Forall (fun f => f.1.1 <> to_string key) features ->
          getLayout (Row nulls children)
            (before ++ (ordinal, keys1 ++ key :: keys2) :: after) streams
          = getLayout (Row nulls children)
              (before ++ (ordinal, keys1 ++ keys2) :: after) streams)
    /\ (forall order,
          Forall (fun entry => flat_map_column children entry.1) order ->
          NoDup (offset <$> streams) ->
          (forall s, s ∈ streams ->
                     offset s ∈ schema_preorder (Row nulls children)) ->
          exists layout,
            getLayout (Row nulls children) order streams = Returned layout).
Proof.
  intros nulls children streams.
  assert (Hinvalid : forall order,
    Exists (fun entry => ~ flat_map_column children entry.1) order ->
    getLayout (Row nulls children) order streams = Raised InvalidLayoutRequest).
  { intros order Hex. rewrite getLayout_Row_unfold.
    now rewrite (appendFlatMaps_invalid children order Hex []). }
  split; [exact Hinvalid|]. split; [|split].
  - intros order entry Hin Hge. apply Hinvalid. apply Exists_exists.
    exists entry. split; [exact Hin|].
    intros (name & fmNulls & features & Hc). apply lookup_lt_Some in Hc. lia.
  - intros before after ordinal keys1 key keys2 name fmNulls features Hc Habs.
    rewrite !getLayout_Row_unfold, !appendFlatMaps_app.
    destruct (appendFlatMaps children before []) as [offsets|e]; [|reflexivity].
    cbn [appendFlatMaps].
    now rewrite (appendFlatMap_absent_feature children offsets ordinal keys1 key
                   keys2 name fmNulls features Hc Habs).
  - intros order. apply getLayout_returns.
Qed.

Lemma getLayout_refuses_columns_and_skips_features_witness :
  getLayout example_schema [(1%nat, [3; 1]); (0%nat, [])] example_streams
    = Raised InvalidLayoutRequest
  /\ getLayout example_schema [(1%nat, [3; 99; 1])] example_streams
     = getLayout example_schema [(1%nat, [3; 1])] example_streams.
Proof.
  pose proof (getLayout_refuses_columns_and_skips_features 0
    [ ("id", Scalar 1);
      ("features",
        FlatMap 2 [ ("1", 3, Scalar 4); ("2", 5, Scalar 6);
                    ("3", 7, Array 8 (Scalar 9)) ]);
      ("tags", Map 10 (Scalar 11) (Scalar 12)) ]%string example_streams)
    as (Hrefuse & _ & Hskip & _).
  split.
  - apply Hrefuse. apply Exists_cons_tl, Exists_cons_hd.
    intros (name & n & features & [=]).
  - apply (Hskip [] [] 1%nat [3] 99 [1] "features"%string 2
             [ ("1", 3, Scalar 4); ("2", 5, Scalar 6);
               ("3", 7, Array 8 (Scalar 9)) ]%string).
    + reflexivity.
    + repeat constructor; vm_compute; discriminate.
Defined.


(** *** When the final assertion fails, and what the input order does *)

Lemma getLayout_Row_omap nulls children order streams :
  getLayout (Row nulls children) order streams
  = match appendFlatMaps children order [] with
    | Raised e => Raised e
    | Returned ordered =>
        let layout :=
          omap (stream_with_offset streams)
            (first_occurrences
               (nulls :: ordered ++ schema_preorder (Row nulls children))) in
        if (length streams =? length layout)%nat
        then Returned layout else Raised AssertionFailure
    end.
Proof.
  rewrite getLayout_Row_unfold, appendAllNestedStreams_preorder.
  destruct (appendFlatMaps children order []) as [ordered|e]; [|reflexivity].
  cbv zeta. rewrite finalState_layout. reflexivity.
Qed.

Lemma elem_of_first_occurrences (offsets : list Z) (o : Z) :
  o ∈ first_occurrences offsets <-> o ∈ offsets.
Proof.
  induction offsets as [|x offsets IH]; [reflexivity|].
  cbn [first_occurrences]. rewrite !elem_of_cons, list_elem_of_filter, IH.
  destruct (decide (o = x)); tauto.
Qed.

Lemma NoDup_first_occurrences (offsets : list Z) :
  NoDup (first_occurrences offsets).
Proof.
  induction offsets as [|x offsets IH]; [constructor|].
  cbn [first_occurrences]. constructor.
  - rewrite list_elem_of_filter. tauto.
  - apply NoDup_filter. exact IH.
Qed.

Lemma stream_with_offset_Some (streams : list Stream) (o : Z) (s : Stream) :
  NoDup (offset <$> streams) ->
  stream_with_offset streams o = Some s <-> s ∈ streams /\ offset s = o.
Proof.
  intros Hnd. unfold stream_with_offset. split.
  - destruct (list_find (fun s0 => offset s0 = o) streams) as [[k s']|] eqn:Hf;
      [|discriminate].
    intros Hs. inversion Hs; subst s'. apply list_find_Some in Hf.
    destruct Hf as (Hk & Ho & _). split; [|exact Ho].
    apply list_elem_of_lookup. eauto.
  - intros [Hin Ho].
    destruct (list_find (fun s0 => offset s0 = o) streams) as [[k s']|] eqn:Hf.
    + apply list_find_Some in Hf. destruct Hf as (Hk & Ho' & _).
      apply list_elem_of_lookup in Hin. destruct Hin as [j Hj].
      assert (Hkj : k = j).
      { apply (NoDup_lookup _ k j o Hnd); rewrite list_lookup_fmap.
        - rewrite Hk. simpl. now rewrite Ho'.
        - rewrite Hj. simpl. now rewrite Ho. }
      subst j. rewrite Hk in Hj. inversion Hj. reflexivity.
    + apply list_find_None in Hf. rewrite Forall_forall in Hf.
      exfalso. exact (Hf s Hin Ho).
Qed.

Lemma stream_with_offset_Permutation (streams1 streams2 : list Stream) (o : Z) :
  streams1 ≡ₚ streams2 -> NoDup (offset <$> streams1) ->
  stream_with_offset streams1 o = stream_with_offset streams2 o.
Proof.
  intros Hperm Hnd1.
  assert (Hnd2 : NoDup (offset <$> streams2)) by now rewrite <- Hperm.
  destruct (stream_with_offset streams1 o) as [s|] eqn:H1.
  - apply (stream_with_offset_Some _ _ _ Hnd1) in H1. symmetry.
    apply (stream_with_offset_Some _ _ _ Hnd2). now rewrite <- Hperm.
  - destruct (stream_with_offset streams2 o) as [s|] eqn:H2; [|reflexivity].
    apply (stream_with_offset_Some _ _ _ Hnd2) in H2.
    rewrite <- Hperm in H2.
    apply (stream_with_offset_Some _ _ _ Hnd1) in H2. congruence.
Qed.

Lemma getLayout_input_order type order streams1 streams2 :
  streams1 ≡ₚ streams2 -> NoDup (offset <$> streams1) ->
  getLayout type order streams1 = getLayout type order streams2.
Proof.
  intros Hperm Hnd.
  destruct type as [| nulls children | | | |]; try reflexivity.
  rewrite !getLayout_Row_omap.
  destruct (appendFlatMaps children order []) as [ordered|e]; [|reflexivity].
  cbv zeta.
  rewrite (omap_pointwise (stream_with_offset streams1)
             (stream_with_offset streams2))
    by (intros o; apply stream_with_offset_Permutation; assumption).
  now rewrite (Permutation_length Hperm).
Qed.

Lemma feature_named_elem (features : list (string * Z * TypeBuilder))
    (key : string) (f : string * Z * TypeBuilder) :
  feature_named features key = Some f -> f ∈ features.
Proof.
  unfold feature_named.
  destruct (list_find (fun f0 => f0.1.1 = key) features) as [[k f']|] eqn:Hf;
    [|discriminate].
  intros Hs. inversion Hs; subst f'. apply list_find_Some in Hf.
  apply list_elem_of_lookup. exists k. tauto.
Qed.

Lemma requested_in_schema nulls children entry (o : Z) :
  o ∈ requested_streams children entry ->
  o ∈ schema_preorder (Row nulls children).
Proof.
  unfold requested_streams.
  destruct (children !! entry.1) as [[name t]|] eqn:Hc; [|set_solver].
  destruct t as [| | | | |fmNulls features]; try set_solver.
  intros Ho. cbn [schema_preorder]. apply elem_of_cons. right.
  apply list_elem_of_In, in_flat_map. exists (name, FlatMap fmNulls features).
  split; [apply list_elem_of_In, list_elem_of_lookup; eauto|].
  apply list_elem_of_In. cbn [snd schema_preorder].
  apply elem_of_cons in Ho. destruct Ho as [->|Ho]; [now left|]. right.
  apply list_elem_of_In, in_flat_map in Ho. destruct Ho as (key & _ & Ho).
  destruct (feature_named features (to_string key)) as [[[fname inMap] value]|]
    eqn:Hf; [|destruct Ho].
  apply feature_named_elem in Hf.
  apply list_elem_of_In, in_flat_map. exists (fname, inMap, value).
  split; [apply list_elem_of_In; exact Hf | exact Ho].
Qed.

Lemma planned_in_schema nulls children order (o : Z) :
  o ∈ planned_offsets nulls children order ->
  o ∈ schema_preorder (Row nulls children).
Proof.
  unfold planned_offsets. rewrite elem_of_cons, elem_of_app.
  intros [->|[Ho|Ho]].
  - now left.
  - apply list_elem_of_In, in_flat_map in Ho. destruct Ho as (entry & _ & Ho).
    apply (requested_in_schema nulls children entry).
    apply list_elem_of_In. exact Ho.
  - exact Ho.
Qed.

(** A returned layout was computed from streams with pairwise different
    offsets, all of them offsets of the schema. *)
Lemma getLayout_Returned_input nulls children order streams layout :
  getLayout (Row nulls children) order streams = Returned layout ->
  NoDup (offset <$> streams)
  /\ (forall s, s ∈ streams -> offset s ∈ schema_preorder (Row nulls children)).
Proof.
  intros Hl. pose proof (getLayout_Permutation _ _ _ _ Hl) as Hperm.
  apply getLayout_planned in Hl.
  assert (Ho : offset <$> layout
               = filter (fun o => o ∈ offset <$> streams)
                   (first_occurrences (planned_offsets nulls children order))).
  { rewrite Hl. apply offsets_of_found. }
  split.
  - rewrite <- Hperm, Ho. apply NoDup_filter, NoDup_first_occurrences.
  - intros s Hs. apply (planned_in_schema nulls children order).
    apply elem_of_first_occurrences.
    assert (Hin : offset s ∈ offset <$> layout).
    { rewrite Hperm. apply list_elem_of_fmap. eauto. }
    rewrite Ho in Hin. apply list_elem_of_filter in Hin. tauto.
Qed.

Lemma getLayout_valid_cases nulls children order streams :
  Forall (fun entry => flat_map_column children entry.1) order ->
  (exists layout, getLayout (Row nulls children) order streams = Returned layout)
  \/ getLayout (Row nulls children) order streams = Raised AssertionFailure.
Proof.
  intros Hvalid. rewrite getLayout_Row_omap.
  destruct (appendFlatMaps_valid children order Hvalid []) as [ordered ->].
  cbv zeta. destruct (_ =? _)%nat; eauto.
Qed.

(** Two streams with one offset. *)
Definition example_streams_twice : list Stream :=
  stream_at 4 :: example_streams.

(** X14. With a row at the root and only flat maps configured, [getLayout]
    returns exactly when the input streams have pairwise different offsets
    that are all offsets of the schema; otherwise its final assertion on the
    stream count fails. An input with one offset twice, or with a stream the
    schema does not have, is never laid out. *)
Theorem getLayout_asserts_stream_count :
  forall (nulls : Z) (children : list (string * TypeBuilder))
         (flatMapFeatureOrder : list (nat * list Z)) (streams : list Stream),
    Forall (fun entry => flat_map_column children entry.1)
      flatMapFeatureOrder ->
    ((exists layout,
         getLayout (Row nulls children) flatMapFeatureOrder streams
         = Returned layout)
     <-> NoDup (offset <$> streams)
         /\ (forall s, s ∈ streams ->
                       offset s ∈ schema_preorder (Row nulls children)))
    /\ (getLayout (Row nulls children) flatMapFeatureOrder streams
        = Raised AssertionFailure
        <-> ~ (NoDup (offset <$> streams)
               /\ (forall s, s ∈ streams ->
                             offset s ∈ schema_preorder (Row nulls children)))).
Proof.
  intros nulls children order streams Hvalid.
  assert (Hiff : (exists layout,
                     getLayout (Row nulls children) order streams
                     = Returned layout)
                 <-> NoDup (offset <$> streams)
                     /\ (forall s, s ∈ streams ->
                           offset s ∈ schema_preorder (Row nulls children))).
  { split.
    - intros [layout Hl]. exact (getLayout_Returned_input _ _ _ _ _ Hl).
    - intros [Hnd Hin]. apply getLayout_returns; assumption. }
  split; [exact Hiff|]. rewrite <- Hiff.
  destruct (getLayout_valid_cases nulls children order streams Hvalid)
    as [[layout Hl]|Hl]; rewrite Hl.
  - split; [discriminate|]. intros Hno. exfalso. apply Hno. eauto.
  - split; [|reflexivity]. intros _ [layout' Hl']. discriminate.
Qed.

Lemma getLayout_asserts_stream_count_witness :
  getLayout example_schema example_order example_streams_twice
  = Raised AssertionFailure.
Proof.
  apply (proj2 (getLayout_asserts_stream_count 0
    [ ("id", Scalar 1);
      ("features",
        FlatMap 2 [ ("1", 3, Scalar 4); ("2", 5, Scalar 6);
                    ("3", 7, Array 8 (Scalar 9)) ]);
      ("tags", Map 10 (Scalar 11) (Scalar 12)) ]%string
    example_order example_streams_twice
    ltac:(repeat constructor; eexists _, _, _; reflexivity))).
  intros [Hnd _]. vm_compute in Hnd.
  apply NoDup_cons in Hnd. destruct Hnd as [Hnotin _]. apply Hnotin.
  repeat (first [apply list_elem_of_here | apply list_elem_of_further]).
Defined.

(** X15. The layout does not depend on the order in which the input streams
    are given, as long as their offsets are pairwise different: [getLayout]
    ends the same way, with the same layout, on any reordering of its input.
    *)
Theorem getLayout_ignores_input_order :
  forall (type : TypeBuilder) (flatMapFeatureOrder : list (nat * list Z))
         (streams1 streams2 : list Stream),
    streams1 ≡ₚ streams2 ->
    NoDup (offset <$> streams1) ->
    getLayout type flatMapFeatureOrder streams1
    = getLayout type flatMapFeatureOrder streams2.
Proof.
  intros type order streams1 streams2. apply getLayout_input_order.
Qed.

Lemma getLayout_ignores_input_order_witness :
  getLayout example_schema example_order (rev example_streams)
  = Returned example_layout.
Proof.
  rewrite <- (getLayout_ignores_input_order example_schema example_order
                example_streams (rev example_streams)).
  - vm_compute. reflexivity.
  - symmetry. apply Permutation_rev.
  - vm_compute. repeat (constructor; [set_solver|]). constructor.
Defined.

(** X16. Laying out a layout again changes nothing: [getLayout] applied to a
    layout it returned returns that layout. *)
Theorem getLayout_idempotent :
  forall (type : TypeBuilder) (flatMapFeatureOrder : list (nat * list Z))
         (streams layout : list Stream),
    getLayout type flatMapFeatureOrder streams = Returned layout ->
    getLayout type flatMapFeatureOrder layout = Returned layout.
Proof.
  intros type order streams layout Hl.
  pose proof (getLayout_Permutation _ _ _ _ Hl) as Hperm.
  destruct type as [| nulls children | | | |]; try discriminate.
  destruct (getLayout_Returned_input _ _ _ _ _ Hl) as [Hnd _].
  rewrite <- Hl. symmetry. apply getLayout_input_order; [now symmetry | exact Hnd].
Qed.

Lemma getLayout_idempotent_witness :
  getLayout example_schema example_order example_streams
    = Returned example_layout
  /\ getLayout example_schema example_order example_layout
     = Returned example_layout.
Proof.
  assert (H : getLayout example_schema example_order example_streams
              = Returned example_layout) by (vm_compute; reflexivity).
  split; [exact H|].
  exact (getLayout_idempotent example_schema example_order example_streams
           example_layout H).
Defined.

(** *** A feature requested twice *)

Lemma fold_tryAppendStream_absent (offsets : list Z) :
  forall state : gmap Z Stream * list Stream,
    Forall (fun o => state.1 !! o = None) offsets ->
    fold_left tryAppendStream offsets state = state.
Proof.
  induction offsets as [|o offsets IH]; intros [m layout] Habs;
    cbn [fold_left]; [reflexivity|].
  apply Forall_cons in Habs. destruct Habs as [Ho Habs]. cbn [fst] in *.
  unfold tryAppendStream at 2. rewrite Ho. apply IH. exact Habs.
Qed.

(** Offsets already passed over are passed over again without effect. *)
Lemma fold_tryAppendStream_again (before again after : list Z)
    (state : gmap Z Stream * list Stream) :
  (forall o, o ∈ again -> o ∈ before) ->
  fold_left tryAppendStream (before ++ again ++ after) state
  = fold_left tryAppendStream (before ++ after) state.
Proof.
  intros Hsub. rewrite !fold_left_app. f_equal.
  apply fold_tryAppendStream_absent. apply Forall_forall. intros o Ho.
  rewrite fold_tryAppendStream_left. rewrite decide_True; [reflexivity|].
  apply Hsub. exact Ho.
Qed.

Lemma appendFlatMaps_any_start children order :
  (forall acc, appendFlatMaps children order acc
               = Returned (acc ++ flat_map (requested_streams children) order))
  \/ (forall acc, appendFlatMaps children order acc
                  = Raised InvalidLayoutRequest).
Proof.
  induction order as [|entry order IH].
  - left. intros acc. simpl. now rewrite app_nil_r.
  - destruct (appendFlatMap_cases children [] entry) as [[Hyes _]|[Hno _]].
    + destruct IH as [IH|IH]; [left|right]; intros acc; cbn [appendFlatMaps];
        destruct (appendFlatMap_cases children acc entry)
          as [[_ [offsets Ho]]|[Hno _]]; try contradiction; rewrite Ho.
      * rewrite IH. apply appendFlatMap_requested in Ho. subst offsets.
        cbn [flat_map]. now rewrite <- app_assoc.
      * apply IH.
    + right. intros acc. apply appendFlatMaps_invalid. now constructor.
Qed.

Lemma requested_streams_repeated children ordinal keys1 key keys2 keys3
    name nulls features :
  children !! ordinal = Some (name, FlatMap nulls features) ->
  exists before again after : list Z,
    requested_streams children
      (ordinal, keys1 ++ key :: keys2 ++ key :: keys3)
    = before ++ again ++ after
    /\ requested_streams children (ordinal, keys1 ++ key :: keys2 ++ keys3)
       = before ++ after
    /\ (forall o, o ∈ again -> o ∈ before).
Proof.
  intros Hc. unfold requested_streams. cbn [fst snd]. rewrite Hc.
  set (g := fun key0 : Z =>
              match feature_named features (to_string key0) with
              | Some (_, inMap, value) => inMap :: schema_preorder value
              | None => []
              end).
  exists (nulls :: flat_map g keys1 ++ g key ++ flat_map g keys2),
         (g key), (flat_map g keys3).
  split; [|split].
  - rewrite !flat_map_app. cbn [flat_map]. rewrite !flat_map_app.
    cbn [flat_map]. cbn [app]. f_equal. now rewrite <- !app_assoc.
  - rewrite !flat_map_app. cbn [flat_map]. rewrite !flat_map_app.
    cbn [app]. f_equal. now rewrite <- !app_assoc.
  - intros o Ho. apply elem_of_cons. right.
    rewrite !elem_of_app. right. now left.
Qed.

(** X17. A key requested twice for one flat map counts once: the second
    request changes neither whether [getLayout] returns nor the layout it
    returns. *)
Theorem getLayout_repeated_feature :
  forall (nulls : Z) (children : list (string * TypeBuilder))
         (streams : list Stream) (before after : list (nat * list Z))
         (ordinal : nat) (keys1 keys2 keys3 : list Z) (key : Z)
         (name : string) (fmNulls : Z)
         (features : list (string * Z * TypeBuilder)),
    children !! ordinal = Some (name, FlatMap fmNulls features) ->
    getLayout (Row nulls children)
      (before ++ (ordinal, keys1 ++ key :: keys2 ++ key :: keys3) :: after)
      streams
    = getLayout (Row nulls children)
        (before ++ (ordinal, keys1 ++ key :: keys2 ++ keys3) :: after)
        streams.
Proof.
  intros nulls children streams before after ordinal keys1 keys2 keys3 key
    name fmNulls features Hc.
  destruct (requested_streams_repeated children ordinal keys1 key keys2 keys3
              name fmNulls features Hc) as (P & X & Q & H1 & H2 & Hsub).
  rewrite !getLayout_Row_unfold.
  destruct (appendFlatMaps_any_start children
              (before ++ (ordinal, keys1 ++ key :: keys2 ++ key :: keys3)
                 :: after)) as [Hret1|Hraise1].
  - destruct (appendFlatMaps_any_start children
                (before ++ (ordinal, keys1 ++ key :: keys2 ++ keys3) :: after))
      as [Hret2|Hraise2].
    + rewrite Hret1, Hret2. cbv zeta. cbn [app].
      rewrite !flat_map_app. cbn [flat_map]. rewrite H1, H2.
      unfold finalState. rewrite <- !fold_left_app.
      set (B := flat_map (requested_streams children) before).
      set (A := flat_map (requested_streams children) after).
      set (all := appendAllNestedStreams (Row nulls children) []).
      replace ((B ++ (P ++ X ++ Q) ++ A) ++ all)
        with ((B ++ P) ++ X ++ (Q ++ A ++ all))
        by (now rewrite <- !app_assoc).
      replace ((B ++ (P ++ Q) ++ A) ++ all)
        with ((B ++ P) ++ (Q ++ A ++ all))
        by (now rewrite <- !app_assoc).
      rewrite (fold_tryAppendStream_again (B ++ P) X (Q ++ A ++ all)).
      * reflexivity.
      * intros o Ho. apply elem_of_app. right. apply Hsub. exact Ho.
    + exfalso. specialize (Hret1 []). specialize (Hraise2 []).
      rewrite appendFlatMaps_app in Hret1, Hraise2.
      destruct (appendFlatMaps children before []) as [offsets|e];
        [|discriminate].
      cbn [appendFlatMaps] in Hret1, Hraise2.
      destruct (appendFlatMap_cases children offsets
                  (ordinal, keys1 ++ key :: keys2 ++ key :: keys3))
        as [[_ [o1 Ho1]]|[Hno _]].
      2:{ apply Hno. exists name, fmNulls, features. exact Hc. }
      destruct (appendFlatMap_cases children offsets
                  (ordinal, keys1 ++ key :: keys2 ++ keys3))
        as [[_ [o2 Ho2]]|[Hno _]].
      2:{ apply Hno. exists name, fmNulls, features. exact Hc. }
      rewrite Ho1 in Hret1. rewrite Ho2 in Hraise2.
      destruct (appendFlatMaps_any_start children after) as [Ha|Ha].
      * rewrite Ha in Hraise2. discriminate.
      * rewrite Ha in Hret1. discriminate.
  - rewrite Hraise1.
    destruct (appendFlatMaps_any_start children
                (before ++ (ordinal, keys1 ++ key :: keys2 ++ keys3) :: after))
      as [Hret2|Hraise2]; [|now rewrite Hraise2].
    exfalso. specialize (Hraise1 []). specialize (Hret2 []).
    rewrite appendFlatMaps_app in Hret2, Hraise1.
    destruct (appendFlatMaps children before []) as [offsets|e];
      [|discriminate].
    cbn [appendFlatMaps] in Hret2, Hraise1.
    destruct (appendFlatMap_cases children offsets
                (ordinal, keys1 ++ key :: keys2 ++ key :: keys3))
      as [[_ [o1 Ho1]]|[Hno _]].
    2:{ apply Hno. exists name, fmNulls, features. exact Hc. }
    destruct (appendFlatMap_cases children offsets
                (ordinal, keys1 ++ key :: keys2 ++ keys3))
      as [[_ [o2 Ho2]]|[Hno _]].
    2:{ apply Hno. exists name, fmNulls, features. exact Hc. }
    rewrite Ho1 in Hraise1. rewrite Ho2 in Hret2.
    destruct (appendFlatMaps_any_start children after) as [Ha|Ha].
    + rewrite Ha in Hraise1. discriminate.
    + rewrite Ha in Hret2. discriminate.
Qed.

Lemma getLayout_repeated_feature_witness :
  getLayout example_schema [(1%nat, [3; 1; 3])] example_streams
  = getLayout example_schema [(1%nat, [3; 1])] example_streams.
Proof.
  exact (getLayout_repeated_feature 0
    [ ("id", Scalar 1);
      ("features",
        FlatMap 2 [ ("1", 3, Scalar 4); ("2", 5, Scalar 6);
                    ("3", 7, Array 8 (Scalar 9)) ]);
      ("tags", Map 10 (Scalar 11) (Scalar 12)) ]%string
    example_streams [] [] 1%nat [] [1] [] 3 "features"%string 2
    [ ("1", 3, Scalar 4); ("2", 5, Scalar 6);
      ("3", 7, Array 8 (Scalar 9)) ]%string eq_refl).
Defined.
End FlatMapLayoutPlanner.

(** ** The dump tool ([NimbleDumpLib.cpp]) *)

Module NimbleDumpLib.
Import Common Rle.

(** *** Ordering the rows of the encoding histogram *)

(** [struct GroupingKey]: the encoding type and the data type (one-byte
    enumerations) and, when the encoding is compressed, the compression
    type. *)
Record GroupingKey : Type := {
  encodingType : Z;
  dataType : Z;
  compressinType : option Z
}.

(** [struct EncodingHistogramValue]. *)
Record EncodingHistogramValue : Type := {
  count : Z;
  bytes : Z
}.

(** [HistogramRowCompare], applied to two entries of the histogram. *)
Definition HistogramRowCompare
    (lhs rhs : GroupingKey * EncodingHistogramValue) : bool :=
  let lhsEncoding := encodingType lhs.1 in
  let rhsEncoding := encodingType rhs.1 in
  let lhsSize := bytes lhs.2 in
  let rhsSize := bytes rhs.2 in
  if negb (lhsEncoding =? rhsEncoding)
  then lhsEncoding <? rhsEncoding
  else rhsSize <? lhsSize.

(** *** Walking the stripes of a tablet *)

(** What the visitors of [traverseTablet] are called with. *)
Inductive Visit (ChunkedStream : Type) : Type :=
| StripeVisit (stripeId : Z)
| StreamVisit (stream : ChunkedStream) (stripeId streamId : Z).
Arguments StripeVisit {ChunkedStream} stripeId.
Arguments StreamVisit {ChunkedStream} stream stripeId streamId.

Section Tablet.
(** The tablet reader is not among the sources: what [traverseTablet] asks
    of it is [stripeCount()] (a [uint32_t]) and, per stripe, the streams
    [load] returns for all stream identifiers, some of which may be null.
    The visitors and the reader are taken to return. *)
Variable ChunkedStream : Type.
Variable stripeCount : Z.
Variable load : Z -> list (option ChunkedStream).

(** The loop over the streams of stripe [i]. *)
Definition visitStreams (i : Z) : list (Visit ChunkedStream) :=
  omap (fun v => v)
    (imap (fun j stream =>
             (fun s => StreamVisit s i (Z.of_nat j)) <$> stream) (load i)).

(** The body of the loop over the stripes: the calls it makes. *)
Definition visitStripe (stripeVisitor streamVisitor : bool) (i : Z)
  : list (Visit ChunkedStream) :=
  (if stripeVisitor then [StripeVisit i] else [])
    ++ (if streamVisitor then visitStreams i else []).

(** [for (uint32_t i = startStripe; i <= endStripe; ++i)]; one unit of fuel
    per stripe. *)
Fixpoint stripes_loop (fuel : nat) (stripeVisitor streamVisitor : bool)
    (i endStripe : Z) (visits : list (Visit ChunkedStream))
  : option (list (Visit ChunkedStream)) :=
  if i <=? endStripe
  then
    match fuel with
    | O => None
    | S fuel' =>
        stripes_loop fuel' stripeVisitor streamVisitor (wrap32 (i + 1))
          endStripe (visits ++ visitStripe stripeVisitor streamVisitor i)
    end
  else Some visits.

(** [traverseTablet]: the calls made to the visitors, in order.
    [stripeIndex] is a [std::optional<int32_t>]; [stripeVisitor] and
    [streamVisitor] tell whether the visitor was supplied. *)
Definition traverseTablet (fuel : nat) (stripeIndex : option Z)
    (stripeVisitor streamVisitor : bool)
  : option (list (Visit ChunkedStream)) :=
  let startStripe :=
    match stripeIndex with Some index => wrap32 index | None => 0 end in
  let endStripe :=
    match stripeIndex with
    | Some index => wrap32 index
    | None => wrap32 (stripeCount - 1)
    end in
  stripes_loop fuel stripeVisitor streamVisitor startStripe endStripe [].

Lemma stripes_loop_range (stripeVisitor streamVisitor : bool) (n : nat) :
  forall (fuel : nat) (i endStripe : Z) (visits : list (Visit ChunkedStream)),
    0 <= i -> endStripe < 2 ^ 32 - 1 ->
    i + Z.of_nat n = endStripe + 1 ->
    (n <= fuel)%nat ->
    stripes_loop fuel stripeVisitor streamVisitor i endStripe visits
    = Some (visits
              ++ flat_map (visitStripe stripeVisitor streamVisitor)
                   (seqZ i (Z.of_nat n))).
Proof.
  induction n as [|n IH]; intros fuel i endStripe visits Hi Hend Hn Hfuel.
  - destruct fuel; cbn [stripes_loop];
      (destruct (Z.leb_spec i endStripe); [lia|]);
      simpl; now rewrite app_nil_r.
  - destruct fuel as [|fuel]; [lia|]. cbn [stripes_loop].
    destruct (Z.leb_spec i endStripe); [|lia].
    rewrite wrap32_small by (unfold in_range; lia).
    rewrite IH by lia.
    rewrite (seqZ_cons i (Z.of_nat (S n))) by lia. cbn [flat_map].
    replace (Z.succ i) with (i + 1) by lia.
    replace (Z.pred (Z.of_nat (S n))) with (Z.of_nat n) by lia.
    now rewrite <- app_assoc.
Qed.

Lemma stripes_loop_forever (stripeVisitor streamVisitor : bool) (fuel : nat) :
  forall (i : Z) (visits : list (Visit ChunkedStream)),
    0 <= i < 2 ^ 32 ->
    stripes_loop fuel stripeVisitor streamVisitor i (2 ^ 32 - 1) visits = None.
Proof.
  induction fuel as [|fuel IH]; intros i visits Hi; cbn [stripes_loop].
  - destruct (Z.leb_spec i (2 ^ 32 - 1)); [reflexivity | lia].
  - destruct (Z.leb_spec i (2 ^ 32 - 1)); [|lia].
    apply IH. apply wrap_in_range. lia.
Qed.

End Tablet.

(** *** Reading the content of a stream in buffers *)

Definition kBufferSize : Z := 1000.

Section Content.
Context {V D : Type} `{Rle.RunValues V D}.

(** The loop of [emitContent] over one encoding, here a run-length
    decoder that is not nullable: [printScalarData] materializes
    [currentReadSize] rows into its buffer and prints them.  [printed] is
    what has been printed so far; [fuel] bounds the passes of the run loop
    inside [materialize]. *)
Fixpoint emitContent_loop (passes fuel : nat) (totalRows : Z)
    (encoding : Rle.RLEEncodingBase V D) (printed : list V)
  : option (list V * Rle.RLEEncodingBase V D) :=
  if 0 <? totalRows
  then
    match passes with
    | O => None
    | S passes' =>
        let currentReadSize := Z.min kBufferSize totalRows in
        match Rle.materialize fuel currentReadSize encoding with
        | Some (buffer, encoding') =>
            emitContent_loop passes' fuel (wrap32 (totalRows - currentReadSize))
              encoding' (printed ++ buffer)
        | None => None
        end
    end
  else Some (printed, encoding).

Lemma emitContent_loop_materialize (passes : nat) :
  forall (fuel : nat) (totalRows : Z) (encoding : Rle.RLEEncodingBase V D)
         (printed o : list V) (encoding' : Rle.RLEEncodingBase V D),
    Rle.wf encoding -> 0 <= totalRows < 2 ^ 32 ->
    totalRows <= kBufferSize * Z.of_nat passes ->
    Rle.materialize fuel totalRows encoding = Some (o, encoding') ->
    emitContent_loop passes fuel totalRows encoding printed
    = Some (printed ++ o, encoding').
Proof.
  induction passes as [|passes IH];
    intros fuel totalRows encoding printed o encoding' Hwf Hr Hp Hm.
  - assert (totalRows = 0) by (unfold kBufferSize in Hp; lia). subst totalRows.
    unfold Rle.materialize in Hm. rewrite Rle.materialize_loop_zero in Hm.
    inversion Hm; subst. simpl. now rewrite app_nil_r.
  - cbn [emitContent_loop]. destruct (Z.ltb_spec 0 totalRows) as [Hpos|H0].
    + set (cur := Z.min kBufferSize totalRows).
      assert (Hcur : 0 <= cur <= totalRows) by (unfold cur, kBufferSize; lia).
      unfold Rle.materialize in Hm.
      replace totalRows with (cur + (totalRows - cur)) in Hm by lia.
      destruct (Rle.materialize_loop_split fuel cur (totalRows - cur) encoding
                  o encoding' Hwf) as (o1 & s1 & o2 & H1 & H2 & Ho & Hlen);
        [lia|lia|lia|exact Hm|].
      unfold Rle.materialize. rewrite H1.
      rewrite wrap32_small by (unfold in_range; lia).
      destruct (Rle.materialize_loop_length fuel cur encoding [] o1 s1 Hwf)
        as [_ Hwf1]; [lia|exact H1|].
      rewrite (IH fuel (totalRows - cur) s1 (printed ++ o1) o2 encoding').
      * subst o. now rewrite app_assoc.
      * exact Hwf1.
      * lia.
      * unfold cur, kBufferSize in *. lia.
      * exact H2.
    + assert (totalRows = 0) by lia. subst totalRows.
      unfold Rle.materialize in Hm. rewrite Rle.materialize_loop_zero in Hm.
      inversion Hm; subst. now rewrite app_nil_r.
Qed.

End Content.

(** *** Properties *)


(** *** Walking an encoding layout tree *)

Section Layout.
Context {EncodingLayout : Type}.

(** The trees of [EncodingLayoutTree.cpp] and their children. *)
Definition Tree : Type := EncodingLayoutTree.EncodingLayoutTree EncodingLayout.

Definition childrenOf (t : Tree) : list Tree :=
  EncodingLayoutTree.children EncodingLayout t.

(** What the visitor of [traverseEncodingLayoutTree] is called with. *)
Record NodeVisit : Type := {
  node : Tree;
  parentNode : Tree;
  nodeId : Z;
  parentId : Z;
  level : Z;
  childIndex : Z
}.

(** [traverseEncodingLayoutTree]: the calls made to the visitor, in order,
    and the value [nodeId] is left with; [nodeId] is a reference to a
    [uint32_t] shared by the whole walk, [level] is a [uint32_t] and
    [childIndex] a [uint8_t].  The loop runs over [child(0)], ...,
    [child(childrenCount() - 1)], which are the children in order when
    their number fits the [int] that counts them. *)
Fixpoint traverseEncodingLayoutTree (node parentNode : Tree)
    (nodeId parentId level childIndex : Z) : list NodeVisit * Z :=
  match node with
  | EncodingLayoutTree.Node _ _ _ children_ =>
      let currentNodeId := nodeId in
      (fix eachChild (cs : list Tree) (i nodeId : Z) (visits : list NodeVisit)
         : list NodeVisit * Z :=
         match cs with
         | [] => (visits, nodeId)
         | c :: cs' =>
             let '(below, nodeId) :=
               traverseEncodingLayoutTree c node (wrap32 (nodeId + 1))
                 currentNodeId (wrap32 (level + 1)) (wrap8 i) in
             eachChild cs' (i + 1) nodeId (visits ++ below)
         end) children_ 0 nodeId
        [{| node := node; parentNode := parentNode; nodeId := currentNodeId;
            parentId := parentId; level := level; childIndex := childIndex |}]
  end.

(** The loop over the children, with the call made for a child as a
    parameter. *)
Definition eachChild (traverse : Tree -> Z -> Z -> list NodeVisit * Z)
  : list Tree -> Z -> Z -> list NodeVisit -> list NodeVisit * Z :=
  fix eachChild (cs : list Tree) (i nodeId : Z) (visits : list NodeVisit)
    : list NodeVisit * Z :=
    match cs with
    | [] => (visits, nodeId)
    | c :: cs' =>
        let '(below, nodeId) := traverse c nodeId i in
        eachChild cs' (i + 1) nodeId (visits ++ below)
    end.

(** The nodes of a tree in preorder. *)
Fixpoint nodes (t : Tree) : list Tree :=
  match t with
  | EncodingLayoutTree.Node _ _ _ cs => t :: flat_map nodes cs
  end.

(** A visit is linked to the visit of its parent: an earlier visit, whose
    identifier is passed as [parentId], whose node is passed as
    [parentNode] and has the visited node as its child number
    [childIndex], one level up. *)
Definition linked (visits : list NodeVisit) (v : NodeVisit) : Prop :=
  exists (u : NodeVisit) (k : nat),
    u ∈ visits
    /\ nodeId u < nodeId v
    /\ parentId v = nodeId u
    /\ parentNode v = node u
    /\ level v = wrap32 (level u + 1)
    /\ childrenOf (node u) !! k = Some (node v)
    /\ childIndex v = wrap8 (Z.of_nat k).

Lemma traverseEncodingLayoutTree_unfold (t p : Tree) (n0 pid lvl ci : Z) :
  traverseEncodingLayoutTree t p n0 pid lvl ci
  = eachChild
      (fun c nodeId i =>
         traverseEncodingLayoutTree c t (wrap32 (nodeId + 1)) n0
           (wrap32 (lvl + 1)) (wrap8 i))
      (childrenOf t) 0 n0
      [{| node := t; parentNode := p; nodeId := n0; parentId := pid;
          level := lvl; childIndex := ci |}].
Proof. destruct t. reflexivity. Qed.

Lemma nodes_unfold (t : Tree) : nodes t = t :: flat_map nodes (childrenOf t).
Proof. destruct t. reflexivity. Qed.

Lemma linked_mono (visits visits' : list NodeVisit) (v : NodeVisit) :
  (forall u, u ∈ visits -> u ∈ visits') ->
  linked visits v -> linked visits' v.
Proof.
  intros Hsub (u & k & Hu & H). exists u, k.
  split; [apply Hsub; exact Hu | exact H].
Qed.

(** What the walk of one tree does, for any starting identifier that
    leaves room for the nodes of the tree. *)
Definition numbered (t : Tree) : Prop :=
  forall (p : Tree) (n0 pid lvl ci : Z),
    0 <= n0 -> n0 + Z.of_nat (length (nodes t)) <= 2 ^ 32 ->
    exists rest : list NodeVisit,
      let first := {| node := t; parentNode := p; nodeId := n0;
                      parentId := pid; level := lvl; childIndex := ci |} in
      traverseEncodingLayoutTree t p n0 pid lvl ci
      = (first :: rest, n0 + Z.of_nat (length rest))
      /\ node <$> rest = flat_map nodes (childrenOf t)
      /\ nodeId <$> rest = seqZ (n0 + 1) (Z.of_nat (length rest))
      /\ Forall (linked (first :: rest)) rest.

Lemma eachChild_numbered (t p : Tree) (n0 pid lvl ci : Z) (cs : list Tree) :
  Forall numbered cs ->
  let first := {| node := t; parentNode := p; nodeId := n0;
                  parentId := pid; level := lvl; childIndex := ci |} in
  forall (done : list Tree) (rest : list NodeVisit),
    childrenOf t = done ++ cs ->
    node <$> rest = flat_map nodes done ->
    nodeId <$> rest = seqZ (n0 + 1) (Z.of_nat (length rest)) ->
    Forall (linked (first :: rest)) rest ->
    0 <= n0 ->
    n0 + 1 + Z.of_nat (length rest) + Z.of_nat (length (flat_map nodes cs))
      <= 2 ^ 32 ->
    exists rest' : list NodeVisit,
      eachChild
        (fun c nodeId i =>
           traverseEncodingLayoutTree c t (wrap32 (nodeId + 1)) n0
             (wrap32 (lvl + 1)) (wrap8 i))
        cs (Z.of_nat (length done)) (n0 + Z.of_nat (length rest))
        (first :: rest)
      = (first :: rest', n0 + Z.of_nat (length rest'))
      /\ node <$> rest' = flat_map nodes (done ++ cs)
      /\ nodeId <$> rest' = seqZ (n0 + 1) (Z.of_nat (length rest'))
      /\ Forall (linked (first :: rest')) rest'.
Proof.
  intros Hcs first. induction Hcs as [|c cs Hc _ IH];
    intros done rest Hch Hnode Hid Hlink Hn0 Hroom.
  - exists rest. cbn [eachChild]. rewrite app_nil_r. auto.
  - cbn [eachChild flat_map] in *. rewrite length_app in Hroom.
    rewrite (nodes_unfold c) in Hroom. cbn [length] in Hroom.
    rewrite wrap32_small by (unfold in_range; lia).
    destruct (Hc t (n0 + Z.of_nat (length rest) + 1) n0 (wrap32 (lvl + 1))
                (wrap8 (Z.of_nat (length done))))
      as (below & Htr & Hbnode & Hbid & Hblink).
    { lia. }
    { rewrite (nodes_unfold c). cbn [length]. lia. }
    cbv zeta in Htr, Hblink. rewrite Htr.
    set (fc := {| node := c; parentNode := t;
                  nodeId := n0 + Z.of_nat (length rest) + 1; parentId := n0;
                  level := wrap32 (lvl + 1);
                  childIndex := wrap8 (Z.of_nat (length done)) |}) in *.
    assert (Hblen : length (flat_map nodes (childrenOf c)) = length below).
    { rewrite <- Hbnode. now rewrite length_fmap. }
    destruct (IH (done ++ [c]) (rest ++ fc :: below))
      as (rest' & Hloop & H1 & H2 & H3).
    + rewrite <- app_assoc. exact Hch.
    + rewrite fmap_app, fmap_cons, Hnode, Hbnode, flat_map_app.
      cbn [flat_map]. rewrite app_nil_r, (nodes_unfold c). reflexivity.
    + rewrite fmap_app, fmap_cons, Hid, Hbid, length_app.
      cbn [length nodeId fc].
      replace (Z.of_nat (length rest + S (length below)))
        with (Z.of_nat (length rest) + Z.of_nat (S (length below))) by lia.
      rewrite seqZ_app by lia. f_equal.
      rewrite (seqZ_cons (n0 + 1 + Z.of_nat (length rest))) by lia.
      f_equal; [lia|]. f_equal; lia.
    + apply Forall_app. split; [|constructor].
      * eapply Forall_impl; [exact Hlink|]. intros v. apply linked_mono.
        intros u Hu. rewrite app_comm_cons. apply elem_of_app. now left.
      * exists first, (length done). split; [apply list_elem_of_here|].
        cbn [nodeId level node parentId parentNode childIndex fc first].
        split; [lia|]. split; [reflexivity|]. split; [reflexivity|].
        split; [reflexivity|]. split; [|reflexivity].
        rewrite Hch. rewrite lookup_app_r by lia.
        now rewrite Nat.sub_diag.
      * eapply Forall_impl; [exact Hblink|]. intros v. apply linked_mono.
        intros u Hu. rewrite app_comm_cons. apply elem_of_app. now right.
    + exact Hn0.
    + rewrite length_app. cbn [length]. rewrite <- Hblen in *. lia.
    + exists rest'. split; [|split; [|split]].
      * replace (Z.of_nat (length (done ++ [c])))
          with (Z.of_nat (length done) + 1) in Hloop
          by (rewrite length_app; cbn [length]; lia).
        replace (n0 + Z.of_nat (length (rest ++ fc :: below)))
          with (n0 + Z.of_nat (length rest) + 1 + Z.of_nat (length below))
          in Hloop by (rewrite length_app; cbn [length]; lia).
        exact Hloop.
      * rewrite H1. now rewrite <- app_assoc.
      * exact H2.
      * exact H3.
Qed.

Lemma traverseEncodingLayoutTree_numbered (t : Tree) : numbered t.
Proof.
  induction t as [k m n cs IH]
    using EncodingLayoutTree.EncodingLayoutTree_induction.
  intros p n0 pid lvl ci Hn0 Hroom.
  rewrite traverseEncodingLayoutTree_unfold.
  rewrite nodes_unfold in Hroom. cbn [length] in Hroom.
  destruct (eachChild_numbered (EncodingLayoutTree.Node k m n cs) p n0 pid
              lvl ci cs IH [] []) as (rest & Hloop & H1 & H2 & H3).
  - reflexivity.
  - reflexivity.
  - reflexivity.
  - constructor.
  - exact Hn0.
  - cbn [length]. unfold childrenOf in Hroom.
    cbn [EncodingLayoutTree.children] in Hroom. lia.
  - exists rest. cbv zeta. cbn [length] in Hloop. rewrite Z.add_0_r in Hloop.
    split; [exact Hloop|]. split; [exact H1|]. split; [exact H2 | exact H3].
Qed.

End Layout.

(** *** Properties *)

Lemma HistogramRowCompare_true (a b : GroupingKey * EncodingHistogramValue) :
  HistogramRowCompare a b = true
  <-> encodingType a.1 < encodingType b.1
      \/ (encodingType a.1 = encodingType b.1 /\ bytes b.2 < bytes a.2).
Proof.
  unfold HistogramRowCompare. cbv zeta.
  destruct (Z.eqb_spec (encodingType a.1) (encodingType b.1)) as [He|He];
    cbn [negb]; rewrite Z.ltb_lt; lia.
Qed.

(** X18. [HistogramRowCompare] is an ordering [std::sort] can work with: no
    row comes before itself, the relation is transitive, and so is being
    unordered, which holds exactly for rows with the same encoding type and
    the same number of bytes. A row comes before another when its encoding
    type is smaller, or the same with more bytes. *)
Theorem HistogramRowCompare_strict_weak_order :
  forall a b c : GroupingKey * EncodingHistogramValue,
    HistogramRowCompare a a = false
    /\ (HistogramRowCompare a b = true -> HistogramRowCompare b c = true ->
        HistogramRowCompare a c = true)
    /\ (HistogramRowCompare a b = false /\ HistogramRowCompare b a = false
        <-> encodingType a.1 = encodingType b.1 /\ bytes a.2 = bytes b.2)
    /\ (HistogramRowCompare a b = true
        <-> encodingType a.1 < encodingType b.1
            \/ (encodingType a.1 = encodingType b.1 /\ bytes b.2 < bytes a.2)).
Proof.
  intros a b c.
  rewrite <- !Bool.not_true_iff_false, !HistogramRowCompare_true.
  lia.
Qed.

(** A tablet with three stripes; stripe [i] has [i + 1] streams, the
    second of which is null. *)
Definition example_load (i : Z) : list (option Z) :=
  imap (fun j _ => if (j =? 1)%nat then None else Some (10 * i + Z.of_nat j))
    (replicate (Z.to_nat (i + 1)) tt).

(** X19. Without a stripe index, [traverseTablet] calls the visitors for the
    stripes 0, 1, ... up to the last one, in this order: the stripe visitor
    first, then the stream visitor for each stream of the stripe that is not
    null, with the stripe and the position of the stream. With a stripe index
    it does so for that stripe alone, whether or not the tablet has such a
    stripe. *)
Theorem traverseTablet_visits_stripes :
  forall (ChunkedStream : Type) (stripeCount : Z)
         (load : Z -> list (option ChunkedStream))
         (stripeVisitor streamVisitor : bool) (fuel : nat),
    (0 < stripeCount < 2 ^ 32 -> (Z.to_nat stripeCount <= fuel)%nat ->
     traverseTablet ChunkedStream stripeCount load fuel None
       stripeVisitor streamVisitor
     = Some (flat_map (visitStripe ChunkedStream load stripeVisitor streamVisitor)
               (seqZ 0 stripeCount)))
    /\ (forall index : Z,
          0 <= index < 2 ^ 31 -> (1 <= fuel)%nat ->
          traverseTablet ChunkedStream stripeCount load fuel (Some index)
            stripeVisitor streamVisitor
          = Some (visitStripe ChunkedStream load stripeVisitor streamVisitor
                    index)).
Proof.
  intros CS stripeCount load sv stv fuel. unfold traverseTablet. split.
  - intros Hcount Hfuel.
    rewrite wrap32_small by (unfold in_range; lia).
    rewrite (stripes_loop_range CS load sv stv (Z.to_nat stripeCount)) by lia.
    rewrite Z2Nat.id by lia. reflexivity.
  - intros index Hindex Hfuel.
    rewrite wrap32_small by (unfold in_range; lia).
    rewrite (stripes_loop_range CS load sv stv 1) by lia.
    cbn [app]. rewrite (seqZ_cons index) by lia. rewrite seqZ_nil by lia.
    cbn [flat_map]. now rewrite app_nil_r.
Qed.

Lemma traverseTablet_visits_stripes_witness :
  traverseTablet Z 3 example_load 3 None true true
  = Some [ StripeVisit 0; StreamVisit 0 0 0;
           StripeVisit 1; StreamVisit 10 1 0;
           StripeVisit 2; StreamVisit 20 2 0; StreamVisit 22 2 2 ].
Proof.
  rewrite (proj1 (traverseTablet_visits_stripes Z 3 example_load true true 3));
    [reflexivity | lia | simpl; lia].
Defined.

(** X20. On a tablet without stripes, and with the stripe index -1, the last
    stripe to visit is taken to be stripe 2^32 - 1, which every [uint32_t]
    counter is at or below: the loop of [traverseTablet] calls the visitors
    for stripe after stripe and does not end by itself. *)
Theorem traverseTablet_never_ends :
  forall (ChunkedStream : Type) (stripeCount : Z)
         (load : Z -> list (option ChunkedStream))
         (stripeVisitor streamVisitor : bool) (fuel : nat)
         (stripeIndex : option Z),
    (stripeIndex = None /\ stripeCount = 0) \/ stripeIndex = Some (-1) ->
    traverseTablet ChunkedStream stripeCount load fuel stripeIndex
      stripeVisitor streamVisitor = None.
Proof.
  intros CS stripeCount load sv stv fuel stripeIndex [[Hindex Hcount]|Hindex];
    subst; unfold traverseTablet.
  - change (wrap32 (0 - 1)) with (2 ^ 32 - 1).
    apply stripes_loop_forever. lia.
  - change (wrap32 (-1)) with (2 ^ 32 - 1).
    apply stripes_loop_forever. lia.
Qed.

Lemma traverseTablet_never_ends_witness :
  traverseTablet Z 0 example_load 1000 None true false = None.
Proof.
  apply (traverseTablet_never_ends Z 0 example_load true false 1000 None).
  left. split; reflexivity.
Defined.

(** A boolean decoder over 2500 rows in three runs. *)
Definition long_runs : Rle.RLEEncodingBase bool Rle.BoolRunValues :=
  Rle.bool_decoder [1500; 700; 300] (fun _ => 0) true.

(** X21. Reading an encoding in buffers of [kBufferSize] rows, as
    [emitContent] does, prints the rows that one [materialize] of all the rows
    gives, in the same order, and leaves the decoder in the same state; the
    number of values printed is the number of rows. *)
Theorem emitContent_prints_all_rows :
  forall (V D : Type) (RV : Rle.RunValues V D)
         (encoding : Rle.RLEEncodingBase V D) (totalRows : Z)
         (passes fuel : nat),
    Rle.wf encoding -> 0 <= totalRows < 2 ^ 32 ->
    totalRows <= Rle.copiesRemaining_ encoding
                 + Rle.total (Rle.unread (Rle.materializedRunLengths_ encoding)) ->
    (length (Rle.unread (Rle.materializedRunLengths_ encoding)) < fuel)%nat ->
    totalRows <= kBufferSize * Z.of_nat passes ->
    exists (rows : list V) (encoding' : Rle.RLEEncodingBase V D),
      Rle.materialize fuel totalRows encoding = Some (rows, encoding')
      /\ emitContent_loop passes fuel totalRows encoding []
         = Some (rows, encoding')
      /\ Z.of_nat (length rows) = totalRows.
Proof.
  intros V D RV encoding totalRows passes fuel Hwf Hr Hrows Hfuel Hpasses.
  destruct (Rle.materialize_loop_returns
              (Rle.unread (Rle.materializedRunLengths_ encoding)) totalRows
              encoding Hwf eq_refl) as (o & s' & Ho); [lia|lia|].
  apply (Rle.materialize_loop_fuel_mono _ fuel) in Ho; [|lia].
  exists o, s'. split; [exact Ho|]. split.
  - apply (emitContent_loop_materialize passes fuel totalRows encoding [] o s');
      assumption.
  - destruct (Rle.materialize_loop_length fuel totalRows encoding [] o s' Hwf Hr Ho)
      as [Hlen _].
    rewrite Hlen. simpl. lia.
Qed.

Lemma emitContent_prints_all_rows_witness :
  exists rows encoding',
    Rle.materialize 4 2500 long_runs = Some (rows, encoding')
    /\ emitContent_loop 3 4 2500 long_runs [] = Some (rows, encoding')
    /\ Z.of_nat (length rows) = 2500.
Proof.
  apply (emitContent_prints_all_rows bool Rle.BoolRunValues Rle.bool_run_values
           long_runs 2500 3 4).
  - split; [unfold in_range; simpl; lia|].
    split; [repeat constructor; unfold in_range; simpl; lia
           | intros i; unfold in_range; simpl; lia].
  - lia.
  - simpl. lia.
  - simpl. lia.
  - unfold kBufferSize. lia.
Defined.

(** X22. [traverseEncodingLayoutTree] calls the visitor once for every node of
    the tree, in preorder, with the identifiers [n0], [n0 + 1], ... in this
    order, and leaves [nodeId] at the last identifier given out. Every visit
    after the first is linked to the visit of its parent: it gets the parent's
    node and identifier, the next level, and the position of the node among
    the children of the parent. *)
Theorem traverseEncodingLayoutTree_numbers_preorder :
  forall (EncodingLayout : Type) (t p : @Tree EncodingLayout)
         (n0 pid lvl ci : Z),
    0 <= n0 -> n0 + Z.of_nat (length (nodes t)) <= 2 ^ 32 ->
    let visits := (traverseEncodingLayoutTree t p n0 pid lvl ci).1 in
    node <$> visits = nodes t
    /\ nodeId <$> visits = seqZ n0 (Z.of_nat (length (nodes t)))
    /\ (traverseEncodingLayoutTree t p n0 pid lvl ci).2
       = n0 + Z.of_nat (length (nodes t)) - 1
    /\ exists rest,
         visits = {| node := t; parentNode := p; nodeId := n0;
                     parentId := pid; level := lvl; childIndex := ci |} :: rest
         /\ Forall (linked visits) rest.
Proof.
  intros EL t p n0 pid lvl ci Hn0 Hroom.
  destruct (traverseEncodingLayoutTree_numbered t p n0 pid lvl ci Hn0 Hroom)
    as (rest & Htr & Hnode & Hid & Hlink).
  cbv zeta in *. rewrite Htr. cbn [fst snd].
  assert (Hlen : length (nodes t) = S (length rest)).
  { rewrite nodes_unfold. cbn [length]. rewrite <- Hnode.
    now rewrite length_fmap. }
  split; [|split; [|split]].
  - rewrite fmap_cons, Hnode, nodes_unfold. reflexivity.
  - rewrite fmap_cons, Hid, Hlen. cbn [nodeId].
    rewrite (seqZ_cons n0) by lia. f_equal. f_equal; lia.
  - rewrite Hlen. lia.
  - exists rest. split; [reflexivity | exact Hlink].
Qed.

Lemma traverseEncodingLayoutTree_numbers_preorder_witness :
  nodeId <$> (traverseEncodingLayoutTree EncodingLayoutTree.example_tree
                EncodingLayoutTree.example_tree 0 0 0 0).1
  = [0; 1; 2; 3].
Proof.
  destruct (traverseEncodingLayoutTree_numbers_preorder (Z * Z)
              EncodingLayoutTree.example_tree EncodingLayoutTree.example_tree
              0 0 0 0 ltac:(lia) ltac:(simpl; lia)) as (_ & Hid & _).
  exact Hid.
Defined.

Lemma HistogramRowCompare_strict_weak_order_witness :
  HistogramRowCompare
    ({| encodingType := 1; dataType := 4; compressinType := None |},
     {| count := 2; bytes := 900 |})
    ({| encodingType := 3; dataType := 4; compressinType := Some 1 |},
     {| count := 1; bytes := 10 |}) = true.
Proof.
  apply (proj2 (proj2 (proj2 (HistogramRowCompare_strict_weak_order
    ({| encodingType := 1; dataType := 4; compressinType := None |},
     {| count := 2; bytes := 900 |})
    ({| encodingType := 3; dataType := 4; compressinType := Some 1 |},
     {| count := 1; bytes := 10 |})
    ({| encodingType := 3; dataType := 4; compressinType := Some 1 |},
     {| count := 1; bytes := 10 |}))))).
  left. simpl. lia.
Defined.

End NimbleDumpLib.
